(** * Parcel asset-graph core: Graph traversals, orphan pruning, asset flags
      and symbol propagation.

    A shallow embedding of
      - [MutableAsset]'s flag accessors      (core/src/public/Asset.js),
      - [Graph]                              (graph/src/Graph.js),
      - [propagateSymbols] and its two passes (core/src/SymbolPropagation.js),
    followed by the properties established about them. *)

From Stdlib Require Import ZArith Lia List String Bool Sorted.
From stdpp Require Import base option list gmap strings.

Local Open Scope string_scope.
Local Open Scope list_scope.

(** * JavaScript effects

    Every method of the embedding is a function from the mutable world to an
    outcome and the world it leaves behind.  A JavaScript exception does not
    roll mutations back, so the world is returned next to [Throw] as well.
    [OutOfFuel] only arises from the recursion bound of the embedding. *)

Inductive outcome (A : Type) : Type :=
  | Ok (a : A)
  | Throw (msg : string)
  | OutOfFuel.
Arguments Ok {A} a.
Arguments Throw {A} msg.
Arguments OutOfFuel {A}.

Definition M (St A : Type) : Type := St -> outcome A * St.

Definition ret {St A} (a : A) : M St A := fun s => (Ok a, s).

Definition bind {St A B} (m : M St A) (k : A -> M St B) : M St B :=
  fun s =>
    match m s with
    | (Ok a, s') => k a s'
    | (Throw e, s') => (Throw e, s')
    | (OutOfFuel, s') => (OutOfFuel, s')
    end.

Definition throw {St A} (msg : string) : M St A := fun s => (Throw msg, s).
Definition timeout {St A} : M St A := fun s => (OutOfFuel, s).
Definition get {St} : M St St := fun s => (Ok s, s).
Definition gets {St A} (f : St -> A) : M St A := fun s => (Ok (f s), s).
Definition modify {St} (f : St -> St) : M St unit := fun s => (Ok tt, f s).

Declare Scope js_scope.
Delimit Scope js_scope with js.
Notation "x <- m ;; k" := (bind m (fun x => k))
  (at level 100, m at next level, right associativity) : js_scope.
Notation "m ;;; k" := (bind m (fun _ => k))
  (at level 100, right associativity) : js_scope.

(** [nullthrows(x, msg)] *)
Definition nullthrows {St A} (x : option A) (msg : string) : M St A :=
  match x with
  | Some a => ret a
  | None => throw msg
  end.

(** [invariant(cond)] / [assert(cond)] *)
Definition invariant {St} (cond : bool) : M St unit :=
  if cond then ret tt else throw "Invariant violation".

(** [for (let x of xs) body(x)] over an array snapshot. *)
Fixpoint forEach {St A} (xs : list A) (body : A -> M St unit) : M St unit :=
  match xs with
  | [] => ret tt
  | x :: xs' => bind (body x) (fun _ => forEach xs' body)
  end.

(** [xs.map(f)] where [f] may throw. *)
Fixpoint mapM {St A B} (f : A -> M St B) (xs : list A) : M St (list B) :=
  match xs with
  | [] => ret []
  | x :: xs' =>
      bind (f x) (fun y => bind (mapM f xs') (fun ys => ret (y :: ys)))
  end.

(** * Insertion-ordered [Set] and [Map]

    A JavaScript [Set] iterates in insertion order and [Map.set] on a present
    key keeps the key's position; both orders are observable here (the order
    of [usedSymbolsUp] is what the final sort of [propagateSymbols] is
    about), so they are duplicate-free lists. *)

Section JsCollections.
Context {K : Type} `{EqDecision K}.

Definition set_has (s : list K) (k : K) : bool := bool_decide (k ∈ s).

Definition set_add (s : list K) (k : K) : list K :=
    if set_has s k then s else s ++ [k].

Definition set_delete (s : list K) (k : K) : list K :=
    filter (fun x => x ≠ k) s.

  (** [new Set(array)] *)
Definition set_of_list (l : list K) : list K := foldl set_add [] l.

  (** [setEqual(a, b)] of [@parcel/utils]: same size and every element of
      [a] is in [b]. *)
Definition setEqual (a b : list K) : bool :=
    (length a =? length b)%nat && forallb (set_has b) a.

Context {V : Type}.

Definition map_has (m : list (K * V)) (k : K) : bool :=
    bool_decide (k ∈ m.*1).

Fixpoint map_get (m : list (K * V)) (k : K) : option V :=
    match m with
    | [] => None
    | (k', v) :: m' => if decide (k' = k) then Some v else map_get m' k
    end.

Fixpoint map_set (m : list (K * V)) (k : K) (v : V) : list (K * V) :=
    match m with
    | [] => [(k, v)]
    | (k', v') :: m' =>
        if decide (k' = k) then (k, v) :: m' else (k', v') :: map_set m' k v
    end.
End JsCollections.

(** * Asset flags (public/Asset.js, [MutableAsset])

    [flags] is a JavaScript number used as a bit set; [|=] and [&] act on its
    32-bit two's complement reading. *)

Module AssetFlagBits.

Definition to_int32 (z : Z) : Z := ((z + 2 ^ 31) mod 2 ^ 32 - 2 ^ 31)%Z.

  (** [a | b] *)
Definition js_or (a b : Z) : Z := to_int32 (Z.lor (to_int32 a) (to_int32 b)).
  (** [a & b] *)
Definition js_and (a b : Z) : Z := to_int32 (Z.land (to_int32 a) (to_int32 b)).
  (** [Boolean(n)] on an integer *)
Definition js_Boolean (z : Z) : bool := negb (z =? 0)%Z.

  (** The [AssetFlags] table of [@parcel/rust]; only the two members the
      accessors use. *)
Record AssetFlagsT : Type := {
    IS_BUNDLE_SPLITTABLE : Z;
    SIDE_EFFECTS : Z;
  }.

Section Accessors.
Variable AssetFlags : AssetFlagsT.

    (** [get isBundleSplittable()] *)
Definition get_isBundleSplittable (flags : Z) : bool :=
      js_Boolean (js_and flags (IS_BUNDLE_SPLITTABLE AssetFlags)).

    (** [set isBundleSplittable(isBundleSplittable)]: the new value of
        [this.#asset.value.flags]. *)
Definition set_isBundleSplittable (flags : Z) (isBundleSplittable : bool) : Z :=
      js_or flags (IS_BUNDLE_SPLITTABLE AssetFlags).

    (** [get sideEffects()] *)
Definition get_sideEffects (flags : Z) : bool :=
      js_Boolean (js_and flags (SIDE_EFFECTS AssetFlags)).

    (** [set sideEffects(sideEffects)] *)
Definition set_sideEffects (flags : Z) (sideEffects : bool) : Z :=
      js_or flags (SIDE_EFFECTS AssetFlags).
End Accessors.

End AssetFlagBits.

(** * Graph (graph/src/Graph.js) *)

Module Graph.

Abbreviation NodeId := nat (only parsing).
Abbreviation EdgeType := nat (only parsing).

Record Edge : Type := mkEdge { e_from : NodeId; e_to : NodeId; e_type : EdgeType }.

#[global] Instance Edge_eq_dec : EqDecision Edge.
Proof. solve_decision. Defined.

  (** The [type] argument of the neighbour queries: one type, an array of
      types, or the sentinel [ALL_EDGE_TYPES]. *)
Inductive TypeSpec : Type :=
    | OneType (t : EdgeType)
    | TypeList (ts : list EdgeType)
    | ALL_EDGE_TYPES.

Definition matchesType (spec : TypeSpec) (t : EdgeType) : bool :=
    match spec with
    | OneType t' => bool_decide (t = t')
    | TypeList ts => bool_decide (t ∈ ts)
    | ALL_EDGE_TYPES => true
    end.

  (** Keep the first occurrence of every element. *)
Fixpoint dedup (seen : list NodeId) (l : list NodeId) : list NodeId :=
    match l with
    | [] => []
    | x :: l' =>
        if bool_decide (x ∈ seen) then dedup seen l' else x :: dedup (x :: seen) l'
    end.

  (** Modelled from the spec: the [AdjacencyList] class (AdjacencyList.js is not
      part of the sources at hand).  The spec gives its contract: a store of
      typed directed edges, at most one per [(from, to, type)], whose inbound
      and outbound lists iterate in insertion order; [hasEdge] is a lookup,
      [removeEdge] unlinks, [getNodesConnectedFrom]/[getNodesConnectedTo]
      iterate one endpoint's list filtered by the type argument (Graph turns
      them into de-duplicated arrays), and [getInboundEdgesByType] /
      [getOutboundEdgesByType] enumerate every edge of a node.  The packed
      arrays and the hash table are storage detail; the live edges in
      insertion order are all that the methods observe. *)
Module AdjacencyList.
Definition t : Type := list Edge.

Definition hasEdge (adj : t) (from to : NodeId) (type : EdgeType) : bool :=
      bool_decide (mkEdge from to type ∈ adj).

Definition addEdge (adj : t) (from to : NodeId) (type : EdgeType) : bool * t :=
      if hasEdge adj from to type then (false, adj)
      else (true, adj ++ [mkEdge from to type]).

Definition removeEdge (adj : t) (from to : NodeId) (type : EdgeType) : t :=
      filter (fun e => e ≠ mkEdge from to type) adj.

    (** [{type, from}] of every edge into [node]. *)
Definition getInboundEdgesByType (adj : t) (node : NodeId) : list (EdgeType * NodeId) :=
      (fun e => (e_type e, e_from e)) <$> filter (fun e => e_to e = node) adj.

    (** [{type, to}] of every edge out of [node]. *)
Definition getOutboundEdgesByType (adj : t) (node : NodeId) : list (EdgeType * NodeId) :=
      (fun e => (e_type e, e_to e)) <$> filter (fun e => e_from e = node) adj.

Definition getNodesConnectedFrom (adj : t) (node : NodeId) (type : TypeSpec) : list NodeId :=
      dedup [] (e_to <$> filter (fun e => e_from e = node ∧ matchesType type (e_type e) = true) adj).

Definition getNodesConnectedTo (adj : t) (node : NodeId) (type : TypeSpec) : list NodeId :=
      dedup [] (e_from <$> filter (fun e => e_to e = node ∧ matchesType type (e_type e) = true) adj).
End AdjacencyList.

Section WithNode.
Context {TNode : Type}.

Record t : Type := mkGraph {
      nodes : gmap NodeId TNode;
      adjacencyList : AdjacencyList.t;
      rootNodeId : option NodeId;
      nextNodeId : nat;
    }.

Definition hasNode (g : t) (id : NodeId) : bool := bool_decide (is_Some (nodes g !! id)).

Definition getNode (g : t) (id : NodeId) : option TNode := nodes g !! id.

Definition hasEdge (g : t) (from to : NodeId) (type : EdgeType) : bool :=
      AdjacencyList.hasEdge (adjacencyList g) from to type.

    (** [_assertHasNodeId(nodeId)] *)
Definition _assertHasNodeId {St} (g : t) (nodeId : NodeId) : M St unit :=
      if hasNode g nodeId then ret tt else throw "Does not have node".

    (** [getNodeIdsConnectedTo(nodeId, type = 1)]; reads the graph only. *)
Definition getNodeIdsConnectedTo (g : t) (nodeId : NodeId) (type : TypeSpec)
      : outcome (list NodeId) :=
      if hasNode g nodeId
      then Ok (AdjacencyList.getNodesConnectedTo (adjacencyList g) nodeId type)
      else Throw "Does not have node".

    (** [getNodeIdsConnectedFrom(nodeId, type = 1)] *)
Definition getNodeIdsConnectedFrom (g : t) (nodeId : NodeId) (type : TypeSpec)
      : outcome (list NodeId) :=
      if hasNode g nodeId
      then Ok (AdjacencyList.getNodesConnectedFrom (adjacencyList g) nodeId type)
      else Throw "Does not have node".

    (** [addEdge(from, to, type = 1)] *)
Definition addEdge (from to : NodeId) (type : EdgeType) : M t bool :=
      fun g =>
        if (type =? 0)%nat then (Throw "Edge type not allowed", g)
        else if negb (hasNode g from) then (Throw "from node not found", g)
        else if negb (hasNode g to) then (Throw "to node not found", g)
        else
          let '(added, adj) := AdjacencyList.addEdge (adjacencyList g) from to type in
          (Ok added, mkGraph (nodes g) adj (rootNodeId g) (nextNodeId g)).

    (** ** Traversals *)

Section Dfs.
      (** [S] is whatever the visitor closes over besides the graph; visitors
          run against the graph and may change it. *)
Context {S C : Type}.

Abbreviation World := (t * S)%type.

      (** What one call [enter(nodeId, context, actions)] or
          [exit(nodeId, context, actions)] did: the value it returned
          ([None] for [undefined]), whether it called
          [actions.skipChildren()] and [actions.stop()], and the world it
          left. *)
Record VisitResult : Type := mkVisitResult {
        newContext : option C;
        calledSkipChildren : bool;
        calledStop : bool;
        worldAfter : World;
      }.

Definition Callback : Type := NodeId -> option C -> World -> VisitResult.

      (** [visit] is either a function or an object [{enter?, exit?}]. *)
Inductive GraphVisitor : Type :=
        | VisitFunction (f : Callback)
        | VisitObject (enter exit : option Callback).

Definition enterOf (visit : GraphVisitor) : option Callback :=
        match visit with
        | VisitFunction f => Some f
        | VisitObject enter _ => enter
        end.

Definition exitOf (visit : GraphVisitor) : option Callback :=
        match visit with
        | VisitFunction _ => None
        | VisitObject _ exit => exit
        end.

Inductive CallbackKind : Type := Enter | Exit.

      (** One callback invocation, as observed from outside. *)
Record Event : Type := mkEvent {
        ev_kind : CallbackKind;
        ev_node : NodeId;
        ev_context : option C;
        ev_world : World;
        ev_result : VisitResult;
      }.

      (** The closure variables of one [dfs] call, the world, and the
          callbacks invoked so far. *)
Record DfsState : Type := mkDfsState {
        visited : list NodeId;
        skipped : bool;
        stopped : bool;
        world : World;
        trace : list Event;
      }.

      (** Invoke a callback; evaluates to the context after
          [if (typeof newContext !== 'undefined') context = newContext]. *)
Definition invoke (kind : CallbackKind) (cb : Callback) (nodeId : NodeId)
          (context : option C) : M DfsState (option C) :=
        fun st =>
          let r := cb nodeId context (world st) in
          (Ok (match newContext r with Some c => Some c | None => context end),
           mkDfsState (visited st)
                      (skipped st || calledSkipChildren r)
                      (stopped st || calledStop r)
                      (worldAfter r)
                      (trace st ++ [mkEvent kind nodeId context (world st) r])).

Variable visit : GraphVisitor.
Variable getChildren : World -> NodeId -> outcome (list NodeId).

      (** The [for (let child of getChildren(nodeId))] loop of [walk];
          [Some result] stands for its [return result]. *)
Fixpoint walkChildren (walk : NodeId -> option C -> M DfsState (option C))
          (children : list NodeId) (context : option C)
          : M DfsState (option (option C)) :=
        match children with
        | [] => ret None
        | child :: rest =>
            (st <- get ;;
             if set_has (visited st) child then walkChildren walk rest context
             else
               modify (fun st => mkDfsState (set_add (visited st) child) (skipped st)
                                            (stopped st) (world st) (trace st)) ;;;
               result <- walk child context ;;
               st <- get ;;
               if stopped st then ret (Some result)
               else walkChildren walk rest context)%js
        end.

(** The end of [walk], after the loop over the children: the [exit]
    callback, guarded by [this.hasNode(nodeId)], and the two final tests. *)
Definition leave (nodeId : NodeId) (context : option C) : M DfsState (option C) :=
  (st <- get ;;
   context <- match exitOf visit with
              | Some exit =>
                  if hasNode (world st).1 nodeId
                  then invoke Exit exit nodeId context
                  else ret context
              | None => ret context
              end ;;
   st <- get ;;
   if skipped st then ret None
   else if stopped st then ret context
   else ret None)%js.

Fixpoint walk (fuel : nat) (nodeId : NodeId) (context : option C)
    : M DfsState (option C) :=
  match fuel with
  | O => timeout
  | Datatypes.S fuel' =>
      (st <- get ;;
       if negb (hasNode (world st).1 nodeId) then ret None
       else
         modify (fun st => mkDfsState (set_add (visited st) nodeId) false
                                      (stopped st) (world st) (trace st)) ;;;
         context <- match enterOf visit with
                    | Some enter => invoke Enter enter nodeId context
                    | None => ret context
                    end ;;
         st <- get ;;
         if skipped st then ret None
         else if stopped st then ret context
         else
           children <- (fun st => (getChildren (world st) nodeId, st)) ;;
           r <- walkChildren (walk fuel') children context ;;
           match r with
           | Some result => ret result
           | None => leave nodeId context
           end)%js
  end.

(** [dfs({visit, startNodeId, getChildren})], with the closure state it
          ends in. *)
Definition dfs_run (fuel : nat) (startNodeId : option NodeId) (w : World)
          : outcome (option C) * DfsState :=
        let st0 := mkDfsState [] false false w [] in
        match (match startNodeId with Some n => Some n | None => rootNodeId w.1 end) with
        | None => (Throw "A start node is required to traverse", st0)
        | Some traversalStartNode =>
            if hasNode w.1 traversalStartNode
            then walk fuel traversalStartNode None st0
            else (Throw "Does not have node", st0)
        end.

Definition dfs (fuel : nat) (startNodeId : option NodeId) : M World (option C) :=
        fun w => let '(r, st) := dfs_run fuel startNodeId w in (r, world st).
End Dfs.

Section Traversals.
Context {S C : Type}.

(** [traverse(visit, startNodeId, type = 1)] *)
Definition traverse_run (fuel : nat) (visit : @GraphVisitor S C)
    (startNodeId : option NodeId) (type : TypeSpec) (w : t * S)
    : outcome (option C) * @DfsState S C :=
  dfs_run visit (fun w nodeId => getNodeIdsConnectedFrom w.1 nodeId type)
          fuel startNodeId w.

(** [traverseAncestors(startNodeId, visit, type = 1)] *)
Definition traverseAncestors_run (fuel : nat) (startNodeId : option NodeId)
    (visit : @GraphVisitor S C) (type : TypeSpec) (w : t * S)
    : outcome (option C) * @DfsState S C :=
  dfs_run visit (fun w nodeId => getNodeIdsConnectedTo w.1 nodeId type)
          fuel startNodeId w.
End Traversals.

(** The visitor of [isOrphanedNode]; the closure variable it writes is
    [hasPathToRoot]. *)
Definition isOrphanedNode_visitor : @GraphVisitor bool unit :=
  VisitFunction (fun ancestorId _ w =>
    if bool_decide (Some ancestorId = rootNodeId w.1)
    then mkVisitResult None false true (w.1, true)
    else mkVisitResult None false false w).

(** [isOrphanedNode(nodeId)].  The traversal runs on the graph paired with
    [hasPathToRoot = false]; its visitor leaves the graph alone, so only the
    flag is read back. *)
Definition isOrphanedNode (fuel : nat) (g : t) (nodeId : NodeId) : outcome bool :=
  if negb (hasNode g nodeId) then Throw "Does not have node"
  else
    match rootNodeId g with
    | None =>
        match AdjacencyList.getInboundEdgesByType (adjacencyList g) nodeId with
        | _ :: _ => Ok false
        | [] => Ok true
        end
    | Some _ =>
        match traverseAncestors_run fuel (Some nodeId) isOrphanedNode_visitor
                ALL_EDGE_TYPES (g, false) with
        | (Ok _, st) => let hasPathToRoot := (world st).2 in
                        Ok (if hasPathToRoot then false else true)
        | (Throw e, _) => Throw e
        | (OutOfFuel, _) => OutOfFuel
        end
    end.

(** [removeNode(nodeId)], given the [removeEdge] it calls back into. *)
Definition removeNode_with
    (removeEdge : NodeId -> NodeId -> EdgeType -> bool -> M t unit)
    (nodeId : NodeId) : M t unit :=
  (g <- get ;;
   _assertHasNodeId g nodeId ;;;
   forEach (AdjacencyList.getInboundEdgesByType (adjacencyList g) nodeId)
     (fun '(type, from) => removeEdge from nodeId type false) ;;;
   g <- get ;;
   forEach (AdjacencyList.getOutboundEdgesByType (adjacencyList g) nodeId)
     (fun '(type, to) => removeEdge nodeId to type true) ;;;
   g <- get ;;
   let wasRemoved := hasNode g nodeId in
   modify (fun g => mkGraph (delete nodeId (nodes g)) (adjacencyList g)
                            (rootNodeId g) (nextNodeId g)) ;;;
   invariant wasRemoved)%js.

(** [removeEdge(from, to, type = 1, removeOrphans = true)] *)
Fixpoint removeEdge (fuel : nat) (from to : NodeId) (type : EdgeType)
    (removeOrphans : bool) : M t unit :=
  match fuel with
  | O => timeout
  | Datatypes.S fuel' =>
      (g <- get ;;
       if negb (AdjacencyList.hasEdge (adjacencyList g) from to type)
       then throw "Edge not found!"
       else
         modify (fun g => mkGraph (nodes g)
                            (AdjacencyList.removeEdge (adjacencyList g) from to type)
                            (rootNodeId g) (nextNodeId g)) ;;;
         if removeOrphans then
           g <- get ;;
           orphaned <- (fun s => (isOrphanedNode fuel' g to, s)) ;;
           if orphaned : bool then removeNode_with (removeEdge fuel') to
           else ret tt
         else ret tt)%js
  end.

(** [removeNode(nodeId)] *)
Definition removeNode (fuel : nat) (nodeId : NodeId) : M t unit :=
  removeNode_with (removeEdge fuel) nodeId.

Section Bfs.
Context {S : Type}.

(** The world of a [bfs] call and the arguments its visitor was called
    with, in order. *)
Record BfsState : Type := mkBfsState {
  bfs_world : t * S;
  bfs_calls : list NodeId;
}.

(** [visit(nodeId)] returns [?boolean]. *)
Variable visit : NodeId -> t * S -> option bool * (t * S).

(** The [while (queue.length > 0)] loop of [bfs]. *)
Fixpoint bfs_loop (fuel : nat) (rootNodeId : NodeId) (queue visited : list NodeId)
    : M BfsState (option NodeId) :=
  match fuel with
  | O => timeout
  | Datatypes.S fuel' =>
      match queue with
      | [] => ret None
      | node :: queue =>
          (stop <- (fun st =>
                      let '(r, w) := visit rootNodeId (bfs_world st) in
                      (Ok r, mkBfsState w (bfs_calls st ++ [rootNodeId]))) ;;
           if bool_decide (stop = Some true) then ret (Some node)
           else
             children <- (fun st =>
                            (getNodeIdsConnectedFrom (bfs_world st).1 node (OneType 1), st)) ;;
             let '(queue, visited) :=
               foldl (fun '(queue, visited) child =>
                        if set_has visited child then (queue, visited)
                        else (queue ++ [child], set_add visited child))
                     (queue, visited) children in
             bfs_loop fuel' rootNodeId queue visited)%js
      end
  end.

(** [bfs(visit)] *)
Definition bfs_run (fuel : nat) (w : t * S) : outcome (option NodeId) * BfsState :=
  let st0 := mkBfsState w [] in
  match rootNodeId w.1 with
  | None => (Throw "A root node is required to traverse", st0)
  | Some rootNodeId => bfs_loop fuel rootNodeId [rootNodeId] [rootNodeId] st0
  end.
End Bfs.

End WithNode.
Arguments t : clear implicits.
End Graph.

(** * Symbol propagation (core/src/SymbolPropagation.js) *)

Module SymbolPropagation.

Import AssetFlagBits.

Abbreviation NodeId := nat (only parsing).
Abbreviation SymbolId := nat (only parsing).
Abbreviation ContentKey := string (only parsing).
(** Handles into the external database ([CommittedAssetId] and the like). *)
Abbreviation Addr := nat (only parsing).

(** ** What the database hands out ([@parcel/rust]) *)

Record SourceLocation : Type := mkLoc {
  loc_filePath : string;
  loc_start : nat * nat;
  loc_end : nat * nat;
}.

Record Symbol : Type := mkSymbol {
  exported : SymbolId;
  local : SymbolId;
  flags : Z;
  loc : option SourceLocation;
}.

Record DbAssetT : Type := mkDbAsset {
  a_symbols : option (list Symbol);
  a_filePath : string;
  a_flags : Z;
  a_bundleBehavior : string;
  a_assetType : string;
}.

Record DbDependencyT : Type := mkDbDependency {
  d_symbols : option (list Symbol);
  d_specifier : string;
  d_sourceAssetId : option Addr;
  d_flags : Z;
}.

Record Db : Type := mkDb {
  starSymbol : SymbolId;
  defaultSymbol : SymbolId;
  DbAsset_get : Addr -> DbAssetT;
  DbDependency_get : Addr -> DbDependencyT;
  readCachedString : SymbolId -> string;
}.

(** The flag constants the propagator tests; their values live in
    [@parcel/rust]. *)
Record FlagTables : Type := mkFlagTables {
  AssetFlags_SIDE_EFFECTS : Z;
  DependencyFlags_HAS_SYMBOLS : Z;
  SymbolFlags_IS_WEAK : Z;
}.

(** [flags & BIT] used as a condition. *)
Definition hasFlag (flags bit : Z) : bool := js_Boolean (js_and flags bit).

(** ** Diagnostics ([@parcel/diagnostic]) *)

Record CodeHighlight : Type := mkHighlight {
  h_start : nat * nat;
  h_end : nat * nat;
}.

Record CodeFrame : Type := mkCodeFrame {
  cf_filePath : option string;
  cf_language : option string;
  cf_codeHighlights : list CodeHighlight;
}.

Record Diagnostic : Type := mkDiagnostic {
  message : string;
  origin : string;
  codeFrames : option (list CodeFrame);
}.

(** [ParcelOptions] and the helpers imported from [./projectPath],
    [@parcel/diagnostic]: the propagator only passes values through them. *)
Record ParcelOptions : Type := mkOptions {
  db : Db;
  logLevel : string;
  projectRoot : string;
  fromProjectPathRelative : string -> string;
  fromProjectPath : string -> string -> option string;
  escapeMarkdown : string -> string;
  convertSourceLocationToHighlight : SourceLocation -> CodeHighlight;
}.

(** ** Asset graph nodes ([./types]) *)

Record Resolution : Type := mkResolution {
  r_asset : ContentKey;
  r_symbol : option SymbolId;
}.

#[global] Instance Resolution_eq_dec : EqDecision Resolution.
Proof. solve_decision. Defined.

Record AssetNode : Type := mkAssetNode {
  an_id : ContentKey;
  an_value : Addr;
  usedSymbols : list SymbolId;
  an_usedSymbolsDownDirty : bool;
  usedSymbolsUpDirty : bool;
}.

(** [usedSymbolsUp] maps a symbol to its resolution; [None] stands for the
    [null]/[undefined] stored for an ambiguous or assumed symbol. *)
Record DependencyNode : Type := mkDependencyNode {
  dn_id : ContentKey;
  dn_value : Addr;
  usedSymbolsDown : list SymbolId;
  usedSymbolsUp : list (SymbolId * option Resolution);
  dn_usedSymbolsDownDirty : bool;
  usedSymbolsUpDirtyDown : bool;
  usedSymbolsUpDirtyUp : bool;
  excluded : bool;
}.

Record AssetGroup : Type := mkAssetGroup {
  ag_filePath : string;
  ag_sideEffects : option bool;
}.

Record AssetGroupNode : Type := mkAssetGroupNode {
  agn_id : ContentKey;
  agn_value : AssetGroup;
  agn_usedSymbolsDownDirty : bool;
}.

Inductive AssetGraphNode : Type :=
  | NAsset (n : AssetNode)
  | NDependency (n : DependencyNode)
  | NAssetGroup (n : AssetGroupNode)
  | NRoot (id : ContentKey).

Definition isAsset (n : AssetGraphNode) : bool :=
  match n with NAsset _ => true | _ => false end.
Definition isDependency (n : AssetGraphNode) : bool :=
  match n with NDependency _ => true | _ => false end.
Definition isAssetGroup (n : AssetGraphNode) : bool :=
  match n with NAssetGroup _ => true | _ => false end.

(** Modelled from the spec: the content-key index of [AssetGraph]
    (AssetGraph.js and ContentGraph.js are not part of the sources at hand).
    The spec has the graph maintain a side index [ContentKey -> NodeId];
    [getNodeIdByContentKey] reads it and fails on an unknown key,
    [getNodeByContentKey] reads it and then the node map. *)
Record AssetGraph : Type := mkAssetGraph {
  graph : Graph.t AssetGraphNode;
  _contentKeyToNodeId : gmap ContentKey NodeId;
}.

(** One call of an asset visitor: which pass, on which asset, with which
    incoming and outgoing dependencies, and what it returned. *)
Inductive Pass : Type := Down | Up.

Record VisitRecord : Type := mkVisit {
  v_pass : Pass;
  v_asset : NodeId;
  v_incoming : list NodeId;
  v_outgoing : list NodeId;
  v_errors : list Diagnostic;
}.

(** Everything [propagateSymbols] can write to: the asset graph, its two
    closure variables [changedDeps] and [changedDepsUsedSymbolsUpDirtyDown]
    (a [DependencyNode] object is named by its [NodeId]), the [errors] map
    of [propagateSymbolsUp], which its [walk] closure and its queue loop both
    write, the logger, and the record of visitor calls. *)
Record PState : Type := mkPState {
  assetGraph : AssetGraph;
  changedDeps : list NodeId;
  changedDepsUsedSymbolsUpDirtyDown : list ContentKey;
  errors : gmap NodeId (list Diagnostic);
  warnings : list string;
  visits : list VisitRecord;
}.

Definition with_nodes (f : gmap NodeId AssetGraphNode -> gmap NodeId AssetGraphNode)
    (s : PState) : PState :=
  let ag := assetGraph s in
  let g := graph ag in
  mkPState
    (mkAssetGraph
       (Graph.mkGraph (f (Graph.nodes g)) (Graph.adjacencyList g)
                      (Graph.rootNodeId g) (Graph.nextNodeId g))
       (_contentKeyToNodeId ag))
    (changedDeps s) (changedDepsUsedSymbolsUpDirtyDown s) (errors s) (warnings s) (visits s).

(** A field write through a node reference. *)
Definition mutate (id : NodeId) (f : AssetGraphNode -> AssetGraphNode) : M PState unit :=
  modify (with_nodes (alter f id)).

Definition onAsset (f : AssetNode -> AssetNode) (n : AssetGraphNode) : AssetGraphNode :=
  match n with NAsset a => NAsset (f a) | _ => n end.
Definition onDependency (f : DependencyNode -> DependencyNode) (n : AssetGraphNode)
    : AssetGraphNode :=
  match n with NDependency d => NDependency (f d) | _ => n end.

Definition set_usedSymbols (v : list SymbolId) (a : AssetNode) : AssetNode :=
  mkAssetNode (an_id a) (an_value a) v (an_usedSymbolsDownDirty a) (usedSymbolsUpDirty a).
Definition set_usedSymbolsUpDirty (b : bool) (a : AssetNode) : AssetNode :=
  mkAssetNode (an_id a) (an_value a) (usedSymbols a) (an_usedSymbolsDownDirty a) b.
Definition set_usedSymbolsDown (v : list SymbolId) (d : DependencyNode) : DependencyNode :=
  mkDependencyNode (dn_id d) (dn_value d) v (usedSymbolsUp d) (dn_usedSymbolsDownDirty d)
    (usedSymbolsUpDirtyDown d) (usedSymbolsUpDirtyUp d) (excluded d).
Definition set_usedSymbolsUp (v : list (SymbolId * option Resolution)) (d : DependencyNode)
    : DependencyNode :=
  mkDependencyNode (dn_id d) (dn_value d) (usedSymbolsDown d) v (dn_usedSymbolsDownDirty d)
    (usedSymbolsUpDirtyDown d) (usedSymbolsUpDirtyUp d) (excluded d).
Definition set_usedSymbolsUpDirtyDown (b : bool) (d : DependencyNode) : DependencyNode :=
  mkDependencyNode (dn_id d) (dn_value d) (usedSymbolsDown d) (usedSymbolsUp d)
    (dn_usedSymbolsDownDirty d) b (usedSymbolsUpDirtyUp d) (excluded d).
Definition set_usedSymbolsUpDirtyUp (b : bool) (d : DependencyNode) : DependencyNode :=
  mkDependencyNode (dn_id d) (dn_value d) (usedSymbolsDown d) (usedSymbolsUp d)
    (dn_usedSymbolsDownDirty d) (usedSymbolsUpDirtyDown d) b (excluded d).
Definition set_excluded (b : bool) (d : DependencyNode) : DependencyNode :=
  mkDependencyNode (dn_id d) (dn_value d) (usedSymbolsDown d) (usedSymbolsUp d)
    (dn_usedSymbolsDownDirty d) (usedSymbolsUpDirtyDown d) (usedSymbolsUpDirtyUp d) b.

(** [node.usedSymbolsDownDirty = b], on whichever of the three node types
    that carry the flag. *)
Definition set_usedSymbolsDownDirty (b : bool) (n : AssetGraphNode) : AssetGraphNode :=
  match n with
  | NAsset a =>
      NAsset (mkAssetNode (an_id a) (an_value a) (usedSymbols a) b (usedSymbolsUpDirty a))
  | NDependency d =>
      NDependency (mkDependencyNode (dn_id d) (dn_value d) (usedSymbolsDown d)
                     (usedSymbolsUp d) b (usedSymbolsUpDirtyDown d)
                     (usedSymbolsUpDirtyUp d) (excluded d))
  | NAssetGroup g => NAssetGroup (mkAssetGroupNode (agn_id g) (agn_value g) b)
  | NRoot id => NRoot id
  end.

Definition usedSymbolsDownDirty (n : AssetGraphNode) : bool :=
  match n with
  | NAsset a => an_usedSymbolsDownDirty a
  | NDependency d => dn_usedSymbolsDownDirty d
  | NAssetGroup g => agn_usedSymbolsDownDirty g
  | NRoot _ => false
  end.

(** Reading through a node reference taken earlier.  Nodes are never
    replaced or removed while the propagator runs, so the reference is the
    node stored under its [NodeId]. *)
Definition derefAsset (id : NodeId) : M PState AssetNode :=
  fun s =>
    match Graph.getNode (graph (assetGraph s)) id with
    | Some (NAsset a) => (Ok a, s)
    | _ => (Throw "not an asset node", s)
    end.

Definition derefDependency (id : NodeId) : M PState DependencyNode :=
  fun s =>
    match Graph.getNode (graph (assetGraph s)) id with
    | Some (NDependency d) => (Ok d, s)
    | _ => (Throw "not a dependency node", s)
    end.

(** [nullthrows(assetGraph.getNode(id))] *)
Definition getNodeOrThrow (id : NodeId) : M PState AssetGraphNode :=
  fun s => nullthrows (Graph.getNode (graph (assetGraph s)) id) "Got unexpected null" s.

(** [assetGraph.getNodeIdsConnectedFrom(id)], edge type 1. *)
Definition getNodeIdsConnectedFrom (id : NodeId) : M PState (list NodeId) :=
  fun s => (Graph.getNodeIdsConnectedFrom (graph (assetGraph s)) id (Graph.OneType 1), s).

(** [assetGraph.getNodeIdsConnectedTo(id)], edge type 1. *)
Definition getNodeIdsConnectedTo (id : NodeId) : M PState (list NodeId) :=
  fun s => (Graph.getNodeIdsConnectedTo (graph (assetGraph s)) id (Graph.OneType 1), s).

Definition getNodeIdByContentKey (key : ContentKey) : M PState NodeId :=
  fun s => nullthrows (_contentKeyToNodeId (assetGraph s) !! key)
             "Expected content key to exist" s.

(** [let dep = assetGraph.getNodeByContentKey(d);
     invariant(dep && dep.type === 'dependency'); return dep;] *)
Definition getDependencyByContentKey (key : ContentKey) : M PState NodeId :=
  fun s =>
    match _contentKeyToNodeId (assetGraph s) !! key with
    | Some id =>
        match Graph.getNode (graph (assetGraph s)) id with
        | Some (NDependency _) => (Ok id, s)
        | _ => (Throw "Invariant violation", s)
        end
    | None => (Throw "Invariant violation", s)
    end.

(** [let depNode = nullthrows(assetGraph.getNode(dep));
     invariant(depNode.type === 'dependency'); return depNode;] *)
Definition getDependencyById (id : NodeId) : M PState NodeId :=
  (n <- getNodeOrThrow id ;;
   invariant (isDependency n) ;;;
   ret id)%js.

(** [setPop(set)] *)
Definition setPop {St A} (set : list A) : M St (A * list A) :=
  match set with
  | v :: rest => ret (v, rest)
  | [] => throw "Got unexpected null"
  end.

Fixpoint foldM {St A B} (f : B -> A -> M St B) (xs : list A) (b : B) : M St B :=
  match xs with
  | [] => ret b
  | x :: xs' => bind (f b x) (fun b' => foldM f xs' b')
  end.

Section Propagate.
Variable options : ParcelOptions.
Variable flagTables : FlagTables.

(** [assetGraph.getIncomingDependencies(asset)] of AssetGraph.js: the content
    keys of the dependencies that resolve to the asset.  Its body is not
    among the sources; the propagator is defined for any such method. *)
Variable getIncomingDependencies : AssetGraph -> Addr -> list ContentKey.

(** The comparison [assetGraph.nodes.length * (1 / 6) * 0.5 < size] that
    selects the full pass, as a function of the graph and of the size of
    [changedDepsUsedSymbolsUpDirtyDownAssets].  It is floating-point
    arithmetic on a property of the node container; the propagator is
    defined for either answer. *)
Variable runFullPassHeuristic : AssetGraph -> nat -> bool.

Abbreviation starSym := (starSymbol (db options)).
Abbreviation defaultSym := (defaultSymbol (db options)).

(** [symbols?.find(s => s.exported === starSymbol)?.local === starSymbol] *)
Definition exportsNamespace (symbols : option (list Symbol)) : bool :=
  match symbols with
  | Some l =>
      match List.find (fun s => bool_decide (exported s = starSym)) l with
      | Some s => bool_decide (local s = starSym)
      | None => false
      end
  | None => false
  end.

(** The map [identifier -> exportSymbol] built from [asset.symbols]. *)
Definition inverseSymbols (assetSymbols : list Symbol) : list (SymbolId * list SymbolId) :=
  foldl (fun inv s =>
           map_set inv (local s)
                   (set_add (default [] (map_get inv (local s))) (exported s)))
        [] assetSymbols.

(** [incoming = assetGraph.getIncomingDependencies(node.value).map(...)] *)
Definition incomingDependencies (value : Addr) : M PState (list NodeId) :=
  (s <- get ;;
   mapM getDependencyByContentKey (getIncomingDependencies (assetGraph s) value))%js.

Definition addUsedSymbol (a : NodeId) (sym : SymbolId) : M PState unit :=
  mutate a (onAsset (fun n => set_usedSymbols (set_add (usedSymbols n) sym) n)).
Definition deleteUsedSymbol (a : NodeId) (sym : SymbolId) : M PState unit :=
  mutate a (onAsset (fun n => set_usedSymbols (set_delete (usedSymbols n) sym) n)).
Definition addUsedSymbolDown (d : NodeId) (sym : SymbolId) : M PState unit :=
  mutate d (onDependency (fun n => set_usedSymbolsDown (set_add (usedSymbolsDown n) sym) n)).
Definition setUsedSymbolUp (d : NodeId) (sym : SymbolId) (v : option Resolution)
    : M PState unit :=
  mutate d (onDependency (fun n => set_usedSymbolsUp (map_set (usedSymbolsUp n) sym v) n)).

Definition addChangedDepsUsedSymbolsUpDirtyDown (key : ContentKey) : M PState unit :=
  modify (fun s => mkPState (assetGraph s) (changedDeps s)
                     (set_add (changedDepsUsedSymbolsUpDirtyDown s) key)
                     (errors s) (warnings s) (visits s)).
Definition addChangedDeps (d : NodeId) : M PState unit :=
  modify (fun s => mkPState (assetGraph s) (set_add (changedDeps s) d)
                     (changedDepsUsedSymbolsUpDirtyDown s) (errors s) (warnings s)
                     (visits s)).
(** [errors = ...], [errors.set(...)] and [errors.delete(...)] *)
Definition writeErrors (f : gmap NodeId (list Diagnostic) -> gmap NodeId (list Diagnostic))
    : M PState unit :=
  modify (fun s => mkPState (assetGraph s) (changedDeps s)
                     (changedDepsUsedSymbolsUpDirtyDown s) (f (errors s)) (warnings s)
                     (visits s)).
Definition loggerWarn (msg : string) : M PState unit :=
  modify (fun s => mkPState (assetGraph s) (changedDeps s)
                     (changedDepsUsedSymbolsUpDirtyDown s) (errors s) (warnings s ++ [msg])
                     (visits s)).
Definition recordVisit (v : VisitRecord) : M PState unit :=
  modify (fun s => mkPState (assetGraph s) (changedDeps s)
                     (changedDepsUsedSymbolsUpDirtyDown s) (errors s) (warnings s)
                     (visits s ++ [v])).

(** ** The asset visitor of the down pass

    The three locals [namespaceReexportedSymbols], [isEntry] and [addAll]
    of step 1. *)
Record Requested : Type := mkRequested {
  namespaceReexportedSymbols : list SymbolId;
  isEntry : bool;
  addAll : bool;
}.

(** The body of [for (let exportSymbol of incomingDep.usedSymbolsDown)]. *)
Definition requestSymbol (assetNodeId : NodeId) (assetSymbols : option (list Symbol))
    (hasNamespaceOutgoingDeps : bool) (nrs : list SymbolId) (exportSymbol : SymbolId)
    : M PState (list SymbolId) :=
  (nrs <- (if bool_decide (exportSymbol = starSym)
           then addUsedSymbol assetNodeId starSym ;;; ret (set_add nrs starSym)
           else ret nrs) ;;
   if match assetSymbols with
      | None => true
      | Some l => existsb (fun s => bool_decide (exported s = exportSymbol)) l
                  || existsb (fun s => bool_decide (exported s = starSym)) l
      end
   then addUsedSymbol assetNodeId exportSymbol ;;; ret nrs
   else if hasNamespaceOutgoingDeps && negb (bool_decide (exportSymbol = defaultSym))
   then ret (set_add nrs exportSymbol)
   else ret nrs)%js.

(** Step 1: what the incoming dependencies request from the asset. *)
Definition determineRequested (assetNodeId : NodeId) (assetSymbols : option (list Symbol))
    (hasNamespaceOutgoingDeps : bool) (incomingDeps : list NodeId) : M PState Requested :=
  (mutate assetNodeId (onAsset (set_usedSymbols [])) ;;;
   req <- match incomingDeps with
          | [] =>
              addUsedSymbol assetNodeId starSym ;;;
              ret (mkRequested [starSym] false false)
          | _ =>
              foldM (fun req incomingDep =>
                       depNode <- derefDependency incomingDep ;;
                       let dep := DbDependency_get (db options) (dn_value depNode) in
                       if negb (hasFlag (d_flags dep) (DependencyFlags_HAS_SYMBOLS flagTables))
                       then
                         match d_sourceAssetId dep with
                         | None => ret (mkRequested (namespaceReexportedSymbols req) true (addAll req))
                         | Some _ => ret (mkRequested (namespaceReexportedSymbols req) (isEntry req) true)
                         end
                       else
                         nrs <- foldM (requestSymbol assetNodeId assetSymbols
                                         hasNamespaceOutgoingDeps)
                                      (usedSymbolsDown depNode)
                                      (namespaceReexportedSymbols req) ;;
                         ret (mkRequested nrs (isEntry req) (addAll req)))
                    incomingDeps (mkRequested [] false false)
          end ;;
   (if addAll req
    then match assetSymbols with
         | Some l => forEach l (fun sym => addUsedSymbol assetNodeId (exported sym))
         | None => throw "assetSymbols is not iterable"
         end
    else ret tt) ;;;
   ret req)%js.

(** The body of [for (let {exported: symbol, local, flags} of depSymbols)]. *)
Definition distributeSymbol (assetNodeId dep : NodeId)
    (assetSymbolsInverse : option (list (SymbolId * list SymbolId))) (sym : Symbol)
    : M PState unit :=
  if bool_decide (local sym = starSym) then ret tt
  else
    match assetSymbolsInverse with
    | None => addUsedSymbolDown dep (exported sym)
    | Some inverse =>
        if negb (hasFlag (flags sym) (SymbolFlags_IS_WEAK flagTables))
        then addUsedSymbolDown dep (exported sym)
        else
          match map_get inverse (local sym) with
          | None => addUsedSymbolDown dep (exported sym)
          | Some reexportedExportSymbols =>
              (assetNode <- derefAsset assetNodeId ;;
               if set_has (usedSymbols assetNode) starSym
               then
                 addUsedSymbolDown dep (exported sym) ;;;
                 forEach reexportedExportSymbols (deleteUsedSymbol assetNodeId)
               else
                 let usedReexportedExportSymbols :=
                   List.filter (set_has (usedSymbols assetNode)) reexportedExportSymbols in
                 match usedReexportedExportSymbols with
                 | [] => ret tt
                 | _ =>
                     addUsedSymbolDown dep (exported sym) ;;;
                     forEach usedReexportedExportSymbols (deleteUsedSymbol assetNodeId)
                 end)%js
          end
    end.

(** Step 2, the body of [for (let dep of outgoingDeps)]. *)
Definition distributeToDependency (assetNodeId : NodeId) (asset : DbAssetT)
    (assetSymbolsInverse : option (list (SymbolId * list SymbolId))) (req : Requested)
    (dep : NodeId) : M PState unit :=
  (depNode <- derefDependency dep ;;
   let depUsedSymbolsDownOld := usedSymbolsDown depNode in
   mutate dep (onDependency (set_usedSymbolsDown [])) ;;;
   assetNode <- derefAsset assetNodeId ;;
   continue <-
     (if hasFlag (a_flags asset) (AssetFlags_SIDE_EFFECTS flagTables)
         || addAll req || isEntry req
         || (0 <? length (usedSymbols assetNode))%nat
         || (0 <? length (namespaceReexportedSymbols req))%nat
      then
        match d_symbols (DbDependency_get (db options) (dn_value depNode)) with
        | None => ret true
        | Some depSymbols =>
            (if exportsNamespace (Some depSymbols)
             then if addAll req then addUsedSymbolDown dep starSym
                  else forEach (namespaceReexportedSymbols req) (addUsedSymbolDown dep)
             else ret tt) ;;;
            forEach depSymbols (distributeSymbol assetNodeId dep assetSymbolsInverse) ;;;
            ret false
        end
      else
        mutate dep (onDependency (set_usedSymbolsDown [])) ;;;
        ret false) ;;
   if continue : bool then ret tt
   else
     depNode <- derefDependency dep ;;
     (if negb (setEqual depUsedSymbolsDownOld (usedSymbolsDown depNode))
      then
        mutate dep (set_usedSymbolsDownDirty true) ;;;
        mutate dep (onDependency (set_usedSymbolsUpDirtyDown true)) ;;;
        addChangedDepsUsedSymbolsUpDirtyDown (dn_id depNode)
      else ret tt) ;;;
     depNode <- derefDependency dep ;;
     if usedSymbolsUpDirtyDown depNode
     then addChangedDepsUsedSymbolsUpDirtyDown (dn_id depNode)
     else ret tt)%js.

(** The visitor [propagateSymbols] passes to [propagateSymbolsDown]. *)
Definition downVisitor (assetNodeId : NodeId) (incomingDeps outgoingDeps : list NodeId)
    : M PState unit :=
  (assetNode <- derefAsset assetNodeId ;;
   let asset := DbAsset_get (db options) (an_value assetNode) in
   let assetSymbols := a_symbols asset in
   let assetSymbolsInverse := inverseSymbols <$> assetSymbols in
   outgoing <- mapM derefDependency outgoingDeps ;;
   let hasNamespaceOutgoingDeps :=
     existsb (fun d => exportsNamespace
                         (d_symbols (DbDependency_get (db options) (dn_value d))))
             outgoing in
   req <- determineRequested assetNodeId assetSymbols hasNamespaceOutgoingDeps
            incomingDeps ;;
   forEach outgoingDeps
     (distributeToDependency assetNodeId asset assetSymbolsInverse req))%js.

(** ** The asset visitor of the up pass

    The locals [reexportedSymbols] and [reexportedSymbolsSource]; a source is
    a [DependencyNode] object, named by its [NodeId]. *)
Record Reexports : Type := mkReexports {
  reexportedSymbols : list (SymbolId * option Resolution);
  reexportedSymbolsSource : list (SymbolId * NodeId);
}.

(** The double quote character, as a string. *)
Definition dquote : string := String (Ascii.ascii_of_nat 34) EmptyString.

(** [logFallbackNamespaceInsertion(assetNode, symbol, depNode1, depNode2)] *)
Definition logFallbackNamespaceInsertion (assetNodeId : NodeId) (symbol : SymbolId)
    (depNode1 depNode2 : NodeId) : M PState unit :=
  if bool_decide (logLevel options = "verbose")
  then
    (assetNode <- derefAsset assetNodeId ;;
     d1 <- derefDependency depNode1 ;;
     d2 <- derefDependency depNode2 ;;
     loggerWarn
       (String.concat ""
          [fromProjectPathRelative options
             (a_filePath (DbAsset_get (db options) (an_value assetNode)));
           " reexports "; dquote; readCachedString (db options) symbol; dquote;
           ", which could be resolved either to the dependency "; dquote;
           d_specifier (DbDependency_get (db options) (dn_value d1)); dquote;
           " or "; dquote;
           d_specifier (DbDependency_get (db options) (dn_value d2)); dquote;
           " at runtime. Adding a namespace object to fall back on."]))%js
  else ret tt.

(** The block both reexport loops share: record that [s] is reexported
    through [outgoingDep] with resolution [sResolved], or fall back to the
    asset's namespace when [s] already has a source. *)
Definition recordReexport (assetNodeId outgoingDep : NodeId) (rx : Reexports)
    (s : SymbolId) (sResolved : option Resolution) : M PState Reexports :=
  if map_has (reexportedSymbols rx) s
  then
    (assetNode <- derefAsset assetNodeId ;;
     (if negb (set_has (usedSymbols assetNode) starSym)
      then
        source <- nullthrows (map_get (reexportedSymbolsSource rx) s) "Got unexpected null" ;;
        logFallbackNamespaceInsertion assetNodeId s source outgoingDep
      else ret tt) ;;;
     addUsedSymbol assetNodeId starSym ;;;
     ret (mkReexports
            (map_set (reexportedSymbols rx) s
                     (Some (mkResolution (an_id assetNode) (Some s))))
            (reexportedSymbolsSource rx)))%js
  else
    ret (mkReexports (map_set (reexportedSymbols rx) s sResolved)
                     (map_set (reexportedSymbolsSource rx) s outgoingDep)).

(** The body of [for (let outgoingDep of outgoingDeps)]. *)
Definition collectReexports (assetNodeId : NodeId)
    (assetSymbolsInverse : option (list (SymbolId * list SymbolId)))
    (rx : Reexports) (outgoingDep : NodeId) : M PState Reexports :=
  (depNode <- derefDependency outgoingDep ;;
   match d_symbols (DbDependency_get (db options) (dn_value depNode)) with
   | None => ret rx
   | Some outgoingDepSymbols =>
       depNodeId <- getNodeIdByContentKey (dn_id depNode) ;;
       connected <- getNodeIdsConnectedFrom depNodeId ;;
       let isExcluded := bool_decide (length connected = 0) in
       (if isExcluded
        then forEach (usedSymbolsDown depNode) (fun s => setUsedSymbolUp outgoingDep s None)
        else ret tt) ;;;
       rx <- (if exportsNamespace (Some outgoingDepSymbols)
              then
                depNode <- derefDependency outgoingDep ;;
                foldM (fun rx '(s, sResolved) =>
                         if bool_decide (s = defaultSym) then ret rx
                         else recordReexport assetNodeId outgoingDep rx s sResolved)
                      (usedSymbolsUp depNode) rx
              else ret rx) ;;
       depNode <- derefDependency outgoingDep ;;
       foldM (fun rx '(s, sResolved) =>
                if negb (set_has (usedSymbolsDown depNode) s) then ret rx
                else
                  match List.find (fun sym => bool_decide (exported sym = s))
                                  outgoingDepSymbols with
                  | None => ret rx
                  | Some sym =>
                      match match assetSymbolsInverse with
                            | Some inv => map_get inv (local sym)
                            | None => None
                            end with
                      | None => ret rx
                      | Some reexported =>
                          foldM (fun rx s' =>
                                   recordReexport assetNodeId outgoingDep rx s' sResolved)
                                reexported rx
                      end
                  end)
             (usedSymbolsUp depNode) rx
   end)%js.

(** [usedSymbolsUpAmbiguous(old, current, s, value)], [current] being the
    [usedSymbolsUp] of [incomingDep]. *)
Definition usedSymbolsUpAmbiguous (old : list (SymbolId * option Resolution))
    (incomingDep : NodeId) (s : SymbolId) (value : Resolution) : M PState unit :=
  if map_has old s && negb (bool_decide (map_get old s = Some (Some value)))
  then setUsedSymbolUp incomingDep s None
  else setUsedSymbolUp incomingDep s (Some value).

(** The diagnostic pushed when [s] is requested through [incomingDep] but
    neither exported nor reexported. *)
Definition missingExport (incomingDep : NodeId) (depNode : DependencyNode) (s : SymbolId)
    : M PState Diagnostic :=
  (let dep := DbDependency_get (db options) (dn_value depNode) in
   let symbolLoc :=
     match d_symbols dep with
     | Some l =>
         match List.find (fun sym => bool_decide (exported sym = s)) l with
         | Some sym => loc sym
         | None => None
         end
     | None => None
     end in
   depNodeId <- getNodeIdByContentKey (dn_id depNode) ;;
   connected <- getNodeIdsConnectedFrom depNodeId ;;
   resolution <- match connected with
                 | resolutionNodeId :: _ => getNodeOrThrow resolutionNodeId
                 | [] => throw "Got unexpected null"
                 end ;;
   invariant (isAssetGroup resolution || isAsset resolution) ;;;
   let sourceAsset := DbAsset_get (db options) <$> d_sourceAssetId dep in
   let filePath :=
     match resolution with
     | NAsset a => a_filePath (DbAsset_get (db options) (an_value a))
     | NAssetGroup g => ag_filePath (agn_value g)
     | _ => ""
     end in
   ret (mkDiagnostic
          (String.concat ""
             [escapeMarkdown options (fromProjectPathRelative options filePath);
              " does not export '";
              escapeMarkdown options (readCachedString (db options) s); "'"])
          "@parcel/core"
          (match symbolLoc with
           | Some l =>
               Some [mkCodeFrame (fromProjectPath options (projectRoot options) (loc_filePath l))
                       (a_assetType <$> sourceAsset)
                       [convertSourceLocationToHighlight options l]]
           | None => None
           end)))%js.

(** The body of [for (let s of incomingDep.usedSymbolsDown)]. *)
Definition resolveSymbol (assetNodeId : NodeId) (asset : DbAssetT) (rx : Reexports)
    (incomingDep : NodeId) (depNode : DependencyNode)
    (incomingDepUsedSymbolsUpOld : list (SymbolId * option Resolution))
    (hasNamespaceReexport : bool) (errors : list Diagnostic) (s : SymbolId)
    : M PState (list Diagnostic) :=
  (assetNode <- derefAsset assetNodeId ;;
   let own := mkResolution (an_id assetNode) (Some s) in
   if match a_symbols asset with None => true | Some _ => false end
      || bool_decide (a_bundleBehavior asset = "isolated")
      || bool_decide (a_bundleBehavior asset = "inline")
      || bool_decide (s = starSym)
      || set_has (usedSymbols assetNode) s
   then
     usedSymbolsUpAmbiguous incomingDepUsedSymbolsUpOld incomingDep s own ;;;
     ret errors
   else if map_has (reexportedSymbols rx) s
   then
     let v := match hasFlag (a_flags asset) (AssetFlags_SIDE_EFFECTS flagTables),
                    map_get (reexportedSymbols rx) s with
              | false, Some (Some reexport) => reexport
              | _, _ => own
              end in
     usedSymbolsUpAmbiguous incomingDepUsedSymbolsUpOld incomingDep s v ;;;
     ret errors
   else if negb hasNamespaceReexport
   then
     e <- missingExport incomingDep depNode s ;;
     ret (errors ++ [e])
   else ret errors)%js.

(** [equalMap(a, b)] *)
Definition equalMap (a b : list (SymbolId * option Resolution)) : bool :=
  bool_decide (length a = length b)
  && forallb (fun '(k, v) => map_has b k && bool_decide (map_get b k = Some v)) a.

(** The body of [for (let incomingDep of incomingDeps)]. *)
Definition resolveIncoming (assetNodeId : NodeId) (asset : DbAssetT) (rx : Reexports)
    (errors : list Diagnostic) (incomingDep : NodeId) : M PState (list Diagnostic) :=
  (depNode <- derefDependency incomingDep ;;
   let dep := DbDependency_get (db options) (dn_value depNode) in
   let incomingDepUsedSymbolsUpOld := usedSymbolsUp depNode in
   mutate incomingDep (onDependency (set_usedSymbolsUp [])) ;;;
   match d_symbols dep with
   | None => ret errors
   | Some incomingDepSymbols =>
       let hasNamespaceReexport := exportsNamespace (Some incomingDepSymbols) in
       errors <- foldM (resolveSymbol assetNodeId asset rx incomingDep depNode
                          incomingDepUsedSymbolsUpOld hasNamespaceReexport)
                       (usedSymbolsDown depNode) errors ;;
       depNode <- derefDependency incomingDep ;;
       (if negb (equalMap incomingDepUsedSymbolsUpOld (usedSymbolsUp depNode))
        then
          addChangedDeps incomingDep ;;;
          mutate incomingDep (onDependency (set_usedSymbolsUpDirtyUp true))
        else ret tt) ;;;
       mutate incomingDep (onDependency (set_excluded false)) ;;;
       (if hasFlag (d_flags dep) (DependencyFlags_HAS_SYMBOLS flagTables)
           && bool_decide (length (usedSymbolsUp depNode) = 0)
        then
          depNodeId <- getNodeIdByContentKey (dn_id depNode) ;;
          assetGroups <- getNodeIdsConnectedFrom depNodeId ;;
          match assetGroups with
          | [assetGroupId] =>
              assetGroup <- getNodeOrThrow assetGroupId ;;
              match assetGroup with
              | NAssetGroup g =>
                  if bool_decide (ag_sideEffects (agn_value g) = Some false)
                  then mutate incomingDep (onDependency (set_excluded true))
                  else ret tt
              | _ => ret tt
              end
          | _ => invariant (bool_decide (length assetGroups = 0))
          end
        else ret tt) ;;;
       ret errors
   end)%js.

(** The visitor [propagateSymbols] passes to [propagateSymbolsUp]. *)
Definition upVisitor (assetNodeId : NodeId) (incomingDeps outgoingDeps : list NodeId)
    : M PState (list Diagnostic) :=
  (assetNode <- derefAsset assetNodeId ;;
   let asset := DbAsset_get (db options) (an_value assetNode) in
   let assetSymbolsInverse := inverseSymbols <$> a_symbols asset in
   rx <- foldM (collectReexports assetNodeId assetSymbolsInverse) outgoingDeps
               (mkReexports [] []) ;;
   foldM (resolveIncoming assetNodeId asset rx) incomingDeps [])%js.

(** ** [propagateSymbolsDown] *)

(** The body of [for (let child of outgoing)]. *)
Definition markChild (wasNodeDirty : bool) (queue : list NodeId) (child : NodeId)
    : M PState (list NodeId) :=
  (childNode <- getNodeOrThrow child ;;
   if (isAsset childNode || isAssetGroup childNode) && wasNodeDirty
   then mutate child (set_usedSymbolsDownDirty true) ;;; ret (set_add queue child)
   else if isDependency childNode
   then ret (if usedSymbolsDownDirty childNode then set_add queue child else queue)
   else ret queue)%js.

Section Down.
Variable visit : NodeId -> list NodeId -> list NodeId -> M PState unit.

(** The [while (queue.size > 0)] loop. *)
Fixpoint propagateSymbolsDown_loop (fuel : nat) (queue unreachedAssets : list NodeId)
    : M PState unit :=
  match fuel with
  | O => timeout
  | S fuel' =>
      match queue with
      | [] => ret tt
      | _ =>
          (popped <- setPop queue ;;
           let '(queuedNodeId, queue) := popped in
           let unreachedAssets := set_delete unreachedAssets queuedNodeId in
           outgoing <- getNodeIdsConnectedFrom queuedNodeId ;;
           node <- getNodeOrThrow queuedNodeId ;;
           wasNodeDirty <-
             match node with
             | NDependency _ | NAssetGroup _ =>
                 mutate queuedNodeId (set_usedSymbolsDownDirty false) ;;;
                 ret (usedSymbolsDownDirty node)
             | NAsset a =>
                 if an_usedSymbolsDownDirty a
                 then
                   incoming <- incomingDependencies (an_value a) ;;
                   outgoingDeps <- mapM getDependencyById outgoing ;;
                   visit queuedNodeId incoming outgoingDeps ;;;
                   recordVisit (mkVisit Down queuedNodeId incoming outgoingDeps []) ;;;
                   mutate queuedNodeId (set_usedSymbolsDownDirty false) ;;;
                   ret false
                 else ret false
             | NRoot _ => ret false
             end ;;
           queue <- foldM (markChild wasNodeDirty) outgoing queue ;;
           match queue, unreachedAssets with
           | [], _ :: _ =>
               popped <- setPop unreachedAssets ;;
               let '(v, unreachedAssets) := popped in
               propagateSymbolsDown_loop fuel' [v] unreachedAssets
           | _, _ => propagateSymbolsDown_loop fuel' queue unreachedAssets
           end)%js
      end
  end.

Definition propagateSymbolsDown (fuel : nat)
    (changedAssets assetGroupsWithRemovedParents : list NodeId) : M PState unit :=
  match changedAssets, assetGroupsWithRemovedParents with
  | [], [] => ret tt
  | _, _ =>
      (popped <- setPop (set_of_list (changedAssets ++ assetGroupsWithRemovedParents)) ;;
       let '(v, unreachedAssets) := popped in
       propagateSymbolsDown_loop fuel [v] unreachedAssets)%js
  end.
End Down.

(** ** [propagateSymbolsUp] *)

(** [getDependencyResolution(graph, depId)].  [if (child)] takes the node id
    [0] for an absent child. *)
Definition getDependencyResolution (depId : ContentKey) : M PState (list NodeId) :=
  (depNodeId <- getNodeIdByContentKey depId ;;
   connected <- getNodeIdsConnectedFrom depNodeId ;;
   invariant (length connected <=? 1)%nat ;;;
   match connected with
   | child :: _ =>
       if (child =? 0)%nat then ret []
       else
         childNode <- getNodeOrThrow child ;;
         if isAssetGroup childNode then getNodeIdsConnectedFrom child
         else ret [child]
   | [] => ret []
   end)%js.

(** The closure variables [visited] and [dirtyDeps] of the full pass. *)
Record UpLocals : Type := mkUpLocals {
  up_visited : list NodeId;
  dirtyDeps : list NodeId;
}.

(** [if (dep.usedSymbolsUpDirtyDown) { dep.usedSymbolsUpDirtyDown = false;
     node.usedSymbolsUpDirty = true; }] for every incoming dependency. *)
Definition pullDirtyDown (nodeId : NodeId) (incoming : list NodeId) : M PState unit :=
  forEach incoming (fun dep =>
    (d <- derefDependency dep ;;
     if usedSymbolsUpDirtyDown d
     then
       mutate dep (onDependency (set_usedSymbolsUpDirtyDown false)) ;;;
       mutate nodeId (onAsset (set_usedSymbolsUpDirty true))
     else ret tt)%js).

(** [if (child.usedSymbolsUpDirtyUp) { node.usedSymbolsUpDirty = true;
     child.usedSymbolsUpDirtyUp = false; }] *)
Definition pullDirtyUp (nodeId child : NodeId) : M PState unit :=
  (d <- derefDependency child ;;
   if usedSymbolsUpDirtyUp d
   then
     mutate nodeId (onAsset (set_usedSymbolsUpDirty true)) ;;;
     mutate child (onDependency (set_usedSymbolsUpDirtyUp false))
   else ret tt)%js.

Section Up.
Variable visit : NodeId -> list NodeId -> list NodeId -> M PState (list Diagnostic).

(** [let e = visit(node, incoming, outgoing); if (e.length > 0) {...} else
     {...}]: the one place that writes entries of [errors]. *)
Definition visitAndStore (nodeId : NodeId) (incoming outgoing : list NodeId) : M PState unit :=
  (e <- visit nodeId incoming outgoing ;;
   recordVisit (mkVisit Up nodeId incoming outgoing e) ;;;
   match e with
   | _ :: _ =>
       mutate nodeId (onAsset (set_usedSymbolsUpDirty true)) ;;;
       writeErrors (insert nodeId e)
   | [] =>
       mutate nodeId (onAsset (set_usedSymbolsUpDirty false)) ;;;
       writeErrors (delete nodeId)
   end)%js.

(** The recursive [walk] of the full pass. *)
Fixpoint walk (fuel : nat) (nodeId : NodeId) (locals : UpLocals) : M PState UpLocals :=
  match fuel with
  | O => timeout
  | S fuel' =>
      (node <- getNodeOrThrow nodeId ;;
       outgoing <- getNodeIdsConnectedFrom nodeId ;;
       locals <-
         foldM (fun locals childId =>
                  if set_has (up_visited locals) childId then ret locals
                  else
                    locals <- walk fuel' childId
                                (mkUpLocals (set_add (up_visited locals) childId)
                                            (dirtyDeps locals)) ;;
                    child <- getNodeOrThrow childId ;;
                    (if isAsset node
                     then invariant (isDependency child) ;;; pullDirtyUp nodeId childId
                     else ret tt) ;;;
                    ret locals)
               outgoing locals ;;
       match node with
       | NAsset a =>
           incoming <- incomingDependencies (an_value a) ;;
           pullDirtyDown nodeId incoming ;;;
           assetNode <- derefAsset nodeId ;;
           if usedSymbolsUpDirty assetNode
           then
             outgoingDeps <- mapM getDependencyById outgoing ;;
             visitAndStore nodeId incoming outgoingDeps ;;;
             ret locals
           else ret locals
       | NDependency _ =>
           d <- derefDependency nodeId ;;
           ret (mkUpLocals (up_visited locals)
                  (if usedSymbolsUpDirtyUp d
                   then set_add (dirtyDeps locals) nodeId
                   else set_delete (dirtyDeps locals) nodeId))
       | _ => ret locals
       end)%js
  end.

(** The [while (queue.size > 0)] loop.  [queue.add(...connectedNodes)] passes
    every connected node as an argument, and [Set.prototype.add] takes the
    first. *)
Fixpoint propagateSymbolsUp_loop (fuel : nat) (queue : list NodeId) : M PState unit :=
  match fuel with
  | O => timeout
  | S fuel' =>
      match queue with
      | [] => ret tt
      | _ =>
          (popped <- setPop queue ;;
           let '(queuedNodeId, queue) := popped in
           node <- getNodeOrThrow queuedNodeId ;;
           match node with
           | NAsset a =>
               incoming <- incomingDependencies (an_value a) ;;
               pullDirtyDown queuedNodeId incoming ;;;
               outgoingIds <- getNodeIdsConnectedFrom queuedNodeId ;;
               outgoing <- mapM getDependencyById outgoingIds ;;
               forEach outgoing (pullDirtyUp queuedNodeId) ;;;
               assetNode <- derefAsset queuedNodeId ;;
               (if usedSymbolsUpDirty assetNode
                then visitAndStore queuedNodeId incoming outgoing
                else ret tt) ;;;
               queue <- foldM (fun queue i =>
                                 d <- derefDependency i ;;
                                 if usedSymbolsUpDirtyUp d
                                 then
                                   id <- getNodeIdByContentKey (dn_id d) ;;
                                   ret (set_add queue id)
                                 else ret queue)
                              incoming queue ;;
               propagateSymbolsUp_loop fuel' queue
           | _ =>
               connectedNodes <- getNodeIdsConnectedTo queuedNodeId ;;
               propagateSymbolsUp_loop fuel'
                 (match connectedNodes with
                  | first :: _ => set_add queue first
                  | [] => queue
                  end)
           end)%js
      end
  end.

(** The entries of [previousErrors] whose node is still in the graph
    ([new Map([...previousErrors].filter(([n]) => assetGraph.hasNode(n)))]),
    or an empty map. *)
Definition initialErrors (g : AssetGraph)
    (previousErrors : option (gmap NodeId (list Diagnostic)))
    : gmap NodeId (list Diagnostic) :=
  match previousErrors with
  | Some prev => filter (fun kv => Graph.hasNode (graph g) kv.1 = true) prev
  | None => ∅
  end.

(** The two passes of [propagateSymbolsUp]: the full pass when the heuristic
    asks for it, then the queue loop, on [dirtyDeps] after a full pass and on
    [changedDepsUsedSymbolsUpDirtyDownAssets] otherwise. *)
Definition propagateSymbolsUp_passes (fuel : nat) (g : AssetGraph)
    (changedAssets : list NodeId) (changedDepsUsedSymbolsUpDirtyDown : list ContentKey)
    : M PState unit :=
  (resolutions <- mapM getDependencyResolution (rev changedDepsUsedSymbolsUpDirtyDown) ;;
   let changedDepsUsedSymbolsUpDirtyDownAssets :=
     set_of_list (concat resolutions ++ changedAssets) in
   let runFullPass :=
     runFullPassHeuristic g (length changedDepsUsedSymbolsUpDirtyDownAssets) in
   if runFullPass
   then
     rootNodeId <- nullthrows (Graph.rootNodeId (graph g))
                     "A root node is required to traverse" ;;
     locals <- walk fuel rootNodeId (mkUpLocals [rootNodeId] []) ;;
     propagateSymbolsUp_loop fuel (dirtyDeps locals)
   else
     propagateSymbolsUp_loop fuel changedDepsUsedSymbolsUpDirtyDownAssets)%js.

Definition propagateSymbolsUp (fuel : nat) (changedAssets : list NodeId)
    (changedDepsUsedSymbolsUpDirtyDown : list ContentKey)
    (previousErrors : option (gmap NodeId (list Diagnostic)))
    : M PState (gmap NodeId (list Diagnostic)) :=
  (s <- get ;;
   writeErrors (fun _ => initialErrors (assetGraph s) previousErrors) ;;;
   propagateSymbolsUp_passes fuel (assetGraph s) changedAssets
     changedDepsUsedSymbolsUpDirtyDown ;;;
   s <- get ;;
   ret (errors s))%js.
End Up.

(** ** [propagateSymbols] *)

(** [[...m].sort(([a], [b]) => a - b)]: a stable sort on the key. *)
Fixpoint insertByKey {V} (x : SymbolId * V) (l : list (SymbolId * V)) : list (SymbolId * V) :=
  match l with
  | [] => [x]
  | y :: l' => if (x.1 <=? y.1)%nat then x :: y :: l' else y :: insertByKey x l'
  end.

Definition sortByKey {V} (l : list (SymbolId * V)) : list (SymbolId * V) :=
  foldr insertByKey [] l.

(** The final [for (let dep of changedDeps)] loop. *)
Definition sortChangedDeps : M PState unit :=
  (s <- get ;;
   forEach (changedDeps s) (fun dep =>
     mutate dep (onDependency (fun d => set_usedSymbolsUp (sortByKey (usedSymbolsUp d)) d))))%js.

Definition propagateSymbols_body (fuel : nat) (changedAssetsPropagation : list ContentKey)
    (assetGroupsWithRemovedParents : list NodeId)
    (previousErrors : option (gmap NodeId (list Diagnostic)))
    : M PState (gmap NodeId (list Diagnostic)) :=
  (ids <- mapM getNodeIdByContentKey changedAssetsPropagation ;;
   let changedAssets := set_of_list ids in
   propagateSymbolsDown downVisitor fuel changedAssets
     (set_of_list assetGroupsWithRemovedParents) ;;;
   s <- get ;;
   errs <- propagateSymbolsUp upVisitor fuel changedAssets
             (changedDepsUsedSymbolsUpDirtyDown s) previousErrors ;;
   sortChangedDeps ;;;
   ret errs)%js.

(** [propagateSymbols({options, assetGraph, changedAssetsPropagation,
     assetGroupsWithRemovedParents, previousErrors})], started with empty
    [changedDeps] and [changedDepsUsedSymbolsUpDirtyDown]. *)
Definition propagateSymbols (fuel : nat) (assetGraph : AssetGraph)
    (changedAssetsPropagation : list ContentKey)
    (assetGroupsWithRemovedParents : list NodeId)
    (previousErrors : option (gmap NodeId (list Diagnostic)))
    : outcome (gmap NodeId (list Diagnostic)) * PState :=
  propagateSymbols_body fuel changedAssetsPropagation assetGroupsWithRemovedParents
    previousErrors (mkPState assetGraph [] [] ∅ [] []).

End Propagate.
End SymbolPropagation.

(** * Vocabulary of the properties *)

Module Examples.
Import Graph.

(** A chain [0 -> 1 -> 2] rooted at [0]. *)
Definition chain : Graph.t unit :=
  mkGraph (list_to_map [(0, tt); (1, tt); (2, tt)])
          [mkEdge 0 1 1; mkEdge 1 2 1] (Some 0) 3.

(** A visitor that asks [bfs] to stop at node [1] and has no state. *)
Definition stopAtOne (n : nat) (w : Graph.t unit * unit) : option bool * (Graph.t unit * unit) :=
  (Some (bool_decide (n = 1)), w).

(** A diamond below the root: [0 -> 1], [1 -> 2], [1 -> 3], [2 -> 3]. *)
Definition diamond : Graph.t unit :=
  mkGraph (list_to_map [(0, tt); (1, tt); (2, tt); (3, tt)])
          [mkEdge 0 1 1; mkEdge 1 2 1; mkEdge 1 3 1; mkEdge 2 3 1] (Some 0) 4.

End Examples.

(** The graph with one edge unlinked. *)
Definition unlink {TNode} (g : Graph.t TNode) (from to type : nat) : Graph.t TNode :=
  Graph.mkGraph (Graph.nodes g)
    (Graph.AdjacencyList.removeEdge (Graph.adjacencyList g) from to type)
    (Graph.rootNodeId g) (Graph.nextNodeId g).

(** ** Reading a [dfs] trace *)

Section DfsVocabulary.
Import Graph.
Context {TNode S C : Type}.

(** The context in force when the callback of an event returned. *)
Definition contextAfter (e : @Event TNode S C) : option C :=
  match newContext (ev_result e) with
  | Some c => Some c
  | None => ev_context e
  end.

(** The callback called [actions.stop()]. *)
Definition stopsAt (e : @Event TNode S C) : bool := calledStop (ev_result e).

(** The callback called [actions.skipChildren()]. *)
Definition skipsAt (e : @Event TNode S C) : bool := calledSkipChildren (ev_result e).

(** The node was in the graph when its callback was invoked. *)
Definition invokedOnPresentNode (e : @Event TNode S C) : Prop :=
  hasNode (ev_world e).1 (ev_node e) = true.

(** No event calls [stop], except that the last one does when [stopped]. *)
Definition stopOnlyAtEnd (evs : list (@Event TNode S C)) (stopped : bool) : Prop :=
  if stopped
  then exists evs0 e, evs = evs0 ++ [e] /\ Forall (fun e' => stopsAt e' = false) evs0
                      /\ stopsAt e = true
  else Forall (fun e' => stopsAt e' = false) evs.

(** What a piece of a traversal that starts in [st] and ends in [st'] with
    outcome [r] has done: it invoked callbacks on nodes that were present,
    none called [stop] unless it is the last one, and when the traversal is
    stopped the piece returned normally, with [undefined] if [skipped] is
    set and with the context after the last callback otherwise.  [ret] is
    how the piece wraps the value it returns. *)
Definition traversed {X} (ret : option C -> X) (st : @DfsState TNode S C)
    (r : outcome X) (st' : @DfsState TNode S C) : Prop :=
  exists evs,
    trace st' = trace st ++ evs
    /\ Forall invokedOnPresentNode evs
    /\ stopOnlyAtEnd evs (stopped st')
    /\ (stopped st' = true ->
        exists e, last evs = Some e
                  /\ r = Ok (ret (if skipped st' then None else contextAfter e))
                  /\ (ev_kind e = Enter ->
                      skipped st' = calledSkipChildren (ev_result e))).

(** Between [st] and [st'] callbacks were invoked, and the [skipped] flag is
    not set in [st'] unless it was set in [st] or one of these callbacks
    called [skipChildren()]. *)
Definition skipRequested (st st' : @DfsState TNode S C) : Prop :=
  exists evs,
    trace st' = trace st ++ evs
    /\ (skipped st' = true ->
        skipped st = true \/ Exists (fun e => skipsAt e = true) evs).

Definition walk_ok (walk : nat -> option C -> M (@DfsState TNode S C) (option C)) : Prop :=
  forall n ctx st r st',
    stopped st = false -> walk n ctx st = (r, st') -> traversed id st r st'.

End DfsVocabulary.

Module DfsExamples.
Import Graph.

(** A callback that does nothing. *)
Definition noop : @Callback unit unit nat :=
  fun _ _ w => mkVisitResult None false false w.

(** An [{enter, exit}] visitor whose [enter] calls both [skipChildren()] and
    [stop()] and returns the context [7]. *)
Definition skipAndStop : @GraphVisitor unit unit nat :=
  VisitObject (Some (fun _ _ w => mkVisitResult (Some 7) true true w)) (Some noop).

(** An [{enter, exit}] visitor whose [enter] returns the node as the new
    context and calls [stop()] at node [2]. *)
Definition stopsEnteringTwo : @GraphVisitor unit unit nat :=
  VisitObject (Some (fun n _ w => mkVisitResult (Some n) false (bool_decide (n = 2)) w))
              (Some noop).

(** An [{enter, exit}] visitor whose [enter] returns the node as the new
    context and whose [exit] calls [stop()] at node [2]. *)
Definition stopsLeavingTwo : @GraphVisitor unit unit nat :=
  VisitObject (Some (fun n _ w => mkVisitResult (Some n) false false w))
              (Some (fun n _ w => mkVisitResult None false (bool_decide (n = 2)) w)).

(** A visitor whose [enter] removes node [0] from the graph when it enters
    node [1], and which has an [exit]. *)
Definition removeNodeZero (w : Graph.t unit * unit) : Graph.t unit * unit :=
  (mkGraph (delete 0 (nodes w.1)) (adjacencyList w.1) (rootNodeId w.1) (nextNodeId w.1), w.2).

Definition removesStart : @GraphVisitor unit unit nat :=
  VisitObject
    (Some (fun n _ w =>
             mkVisitResult None false false (if bool_decide (n = 1) then removeNodeZero w else w)))
    (Some (fun _ _ w => mkVisitResult None false false w)).

(** An [{enter, exit}] visitor whose [enter] returns the node as the new
    context and calls [skipChildren()] at node [2], and whose [exit] calls
    [stop()] at node [1]. *)
Definition skipsTwoStopsLeavingOne : @GraphVisitor unit unit nat :=
  VisitObject (Some (fun n _ w => mkVisitResult (Some n) (bool_decide (n = 2)) false w))
              (Some (fun n _ w => mkVisitResult None false (bool_decide (n = 1)) w)).

Definition forward (w : Graph.t unit * unit) (n : nat) : outcome (list nat) :=
  getNodeIdsConnectedFrom w.1 n (OneType 1).

End DfsExamples.

(** ** Reasoning about the effects *)

Section Logic.
Context {St : Type}.

(** [m] never changes the state. *)
Definition readonly {A} (m : M St A) : Prop := forall s, (m s).2 = s.

(** Whatever [m] does, normally or not, relates the state before to the
    state after by [R]. *)
Definition preserves {A} (R : relation St) (m : M St A) : Prop :=
  forall s, R s (m s).2.

(** Running [m] from [s] ends in a state satisfying [Q] on the returned
    value, or [E] when it threw or ran out of fuel. *)
Definition wp {A} (m : M St A) (Q : A -> St -> Prop) (E : St -> Prop) (s : St) : Prop :=
  match m s with
  | (Ok a, s') => Q a s'
  | (_, s') => E s'
  end.
End Logic.

(** ** What symbol propagation may and may not touch *)

Module PropagationSpec.
Import SymbolPropagation.

(** Two node values are the same node up to its propagation state: same
    type, same content key, same payload. *)
Definition sameIdentity (n n' : AssetGraphNode) : Prop :=
  match n, n' with
  | NAsset a, NAsset a' => an_id a = an_id a' /\ an_value a = an_value a'
  | NDependency d, NDependency d' => dn_id d = dn_id d' /\ dn_value d = dn_value d'
  | NAssetGroup g, NAssetGroup g' => agn_id g = agn_id g' /\ agn_value g = agn_value g'
  | NRoot id, NRoot id' => id = id'
  | _, _ => False
  end.

(** The same node with the same symbol sets: only dirty flags and
    [excluded] may differ. *)
Definition sameSymbols (n n' : AssetGraphNode) : Prop :=
  match n, n' with
  | NAsset a, NAsset a' =>
      an_id a = an_id a' /\ an_value a = an_value a' /\ usedSymbols a = usedSymbols a'
  | NDependency d, NDependency d' =>
      dn_id d = dn_id d' /\ dn_value d = dn_value d'
      /\ usedSymbolsDown d = usedSymbolsDown d' /\ usedSymbolsUp d = usedSymbolsUp d'
  | NAssetGroup g, NAssetGroup g' => agn_id g = agn_id g' /\ agn_value g = agn_value g'
  | NRoot id, NRoot id' => id = id'
  | _, _ => False
  end.

(** The kinds of field writes the propagator performs. *)
Definition writesFlags (f : AssetGraphNode -> AssetGraphNode) : Prop :=
  forall n, sameSymbols n (f n).

Definition writesUsedSymbols (f : AssetGraphNode -> AssetGraphNode) : Prop :=
  forall n, match n with
            | NAsset a => exists v, f n = NAsset (set_usedSymbols v a)
            | _ => f n = n
            end.

Definition writesUsedSymbolsDown (f : AssetGraphNode -> AssetGraphNode) : Prop :=
  forall n, match n with
            | NDependency d => exists v, f n = NDependency (set_usedSymbolsDown v d)
            | _ => f n = n
            end.

Definition writesUsedSymbolsUp (f : AssetGraphNode -> AssetGraphNode) : Prop :=
  forall n, match n with
            | NDependency d => exists v, f n = NDependency (set_usedSymbolsUp v d)
            | _ => f n = n
            end.

(** The frame of a propagation: the edges, the root, the node id counter and
    the content-key index are the same, the same node ids are in use, and
    every node is still the same node. *)
Record sameFrame (g g' : AssetGraph) : Prop := mkSameFrame {
  frame_edges : Graph.adjacencyList (graph g') = Graph.adjacencyList (graph g);
  frame_root : Graph.rootNodeId (graph g') = Graph.rootNodeId (graph g);
  frame_next : Graph.nextNodeId (graph g') = Graph.nextNodeId (graph g);
  frame_keys : _contentKeyToNodeId g' = _contentKeyToNodeId g;
  frame_nodes : forall id,
    match Graph.nodes (graph g) !! id, Graph.nodes (graph g') !! id with
    | Some n, Some n' => sameIdentity n n'
    | None, None => True
    | _, _ => False
    end;
}.

Definition frameOf (s s' : PState) : Prop := sameFrame (assetGraph s) (assetGraph s').

(** What one recorded visitor call does to the error map: a call of the up
    pass replaces the asset's entry by its diagnostics, or deletes the entry
    when there are none. *)
Definition applyVisit (errs : gmap nat (list Diagnostic)) (v : VisitRecord)
    : gmap nat (list Diagnostic) :=
  match v_pass v with
  | Down => errs
  | Up =>
      match v_errors v with
      | [] => delete (v_asset v) errs
      | e => <[v_asset v := e]> errs
      end
  end.

Definition replay (vs : list VisitRecord) (errs : gmap nat (list Diagnostic))
    : gmap nat (list Diagnostic) :=
  foldl applyVisit errs vs.

(** The dependency node stored under an id, if it is one. *)
Definition dependencyAt (g : AssetGraph) (id : nat) : option DependencyNode :=
  match Graph.getNode (graph g) id with
  | Some (NDependency d) => Some d
  | _ => None
  end.

(** The keys of the [usedSymbolsUp] of the dependency under [id] are in
    ascending order (or [id] is no dependency). *)
Definition usedSymbolsUpSorted (g : AssetGraph) (id : nat) : Prop :=
  match dependencyAt g id with
  | Some d => StronglySorted le (usedSymbolsUp d).*1
  | None => True
  end.

(** The keys of the [usedSymbolsUp] of the dependency under [id] are all in
    its [usedSymbolsDown] (or [id] is no dependency). *)
Definition upWithinDown (g : AssetGraph) (id : nat) : Prop :=
  match dependencyAt g id with
  | Some d => forall k, k ∈ (usedSymbolsUp d).*1 -> k ∈ usedSymbolsDown d
  | None => True
  end.

(** The dirty flags of a node that are set, by name. *)
Definition dirtyFlags (n : AssetGraphNode) : list string :=
  match n with
  | NAsset a =>
      (if an_usedSymbolsDownDirty a then ["usedSymbolsDownDirty"] else [])
      ++ (if usedSymbolsUpDirty a then ["usedSymbolsUpDirty"] else [])
  | NDependency d =>
      (if dn_usedSymbolsDownDirty d then ["usedSymbolsDownDirty"] else [])
      ++ (if usedSymbolsUpDirtyDown d then ["usedSymbolsUpDirtyDown"] else [])
      ++ (if usedSymbolsUpDirtyUp d then ["usedSymbolsUpDirtyUp"] else [])
  | _ => []
  end.

(** Every asset and dependency node without an entry in the error map
    [errs] has all its dirty flags clear. *)
Definition flagsSettled (g : AssetGraph) (errs : gmap nat (list Diagnostic)) : Prop :=
  forall id n,
    Graph.getNode (graph g) id = Some n -> errs !! id = None -> dirtyFlags n = [].

(** Between [s] and [s'] the same ids hold dependencies, and each has the
    [usedSymbolsUp] it had. *)
Definition upKept (s s' : PState) : Prop :=
  forall id, usedSymbolsUp <$> dependencyAt (assetGraph s') id
             = usedSymbolsUp <$> dependencyAt (assetGraph s) id.

(** Every key of the [usedSymbolsUp] of [d'] is requested, that is, in
    [down], or was already a key of the [usedSymbolsUp] of [d]. *)
Definition requestedOrStale (down : list SymbolId) (d d' : DependencyNode) : Prop :=
  forall k, k ∈ (usedSymbolsUp d').*1 -> k ∈ down \/ k ∈ (usedSymbolsUp d).*1.

(** Between [s] and [s'] the same ids hold dependencies, each has the
    [usedSymbolsDown] it had, and the keys its [usedSymbolsUp] gained are in
    its [usedSymbolsDown]. *)
Definition downKept (s s' : PState) : Prop :=
  forall id,
    match dependencyAt (assetGraph s) id, dependencyAt (assetGraph s') id with
    | Some d, Some d' =>
        usedSymbolsDown d' = usedSymbolsDown d /\ requestedOrStale (usedSymbolsDown d) d d'
    | None, None => True
    | _, _ => False
    end.

(** What a propagation that started in [s] has done to the dependencies by
    the time it is in [s']: the same ids hold dependencies, and every key of
    a [usedSymbolsUp] is in the [usedSymbolsDown] next to it or is a key it
    had at the start. *)
Definition upRequestedOrStale (s s' : PState) : Prop :=
  forall id,
    match dependencyAt (assetGraph s) id, dependencyAt (assetGraph s') id with
    | Some d, Some d' => requestedOrStale (usedSymbolsDown d') d d'
    | None, None => True
    | _, _ => False
    end.

(** A write to a node that keeps a dependency a dependency with the same
    [usedSymbolsUp], and makes no dependency of another node. *)
Definition keepsUp (f : AssetGraphNode -> AssetGraphNode) (n : AssetGraphNode) : Prop :=
  match n, f n with
  | NDependency d, NDependency d' => usedSymbolsUp d' = usedSymbolsUp d
  | NDependency _, _ => False
  | _, NDependency _ => False
  | _, _ => True
  end.

(** A write to a node that keeps a dependency a dependency with the same
    [usedSymbolsDown] and only adds requested keys to its [usedSymbolsUp],
    and makes no dependency of another node. *)
Definition keepsDown (f : AssetGraphNode -> AssetGraphNode) (n : AssetGraphNode) : Prop :=
  match n, f n with
  | NDependency d, NDependency d' =>
      usedSymbolsDown d' = usedSymbolsDown d /\ requestedOrStale (usedSymbolsDown d) d d'
  | NDependency _, _ => False
  | _, NDependency _ => False
  | _, _ => True
  end.

(** What the final loop does to one dependency. *)
Definition sortUp (d : DependencyNode) : DependencyNode :=
  set_usedSymbolsUp (sortByKey (usedSymbolsUp d)) d.

(** The state with [errors] replaced. *)
Definition withErrors (errs : gmap nat (list Diagnostic)) (s : PState) : PState :=
  mkPState (assetGraph s) (changedDeps s) (changedDepsUsedSymbolsUpDirtyDown s) errs
           (warnings s) (visits s).

(** Neither the log of visitor calls nor [errors] is written. *)
Definition logUntouched (s s' : PState) : Prop :=
  frameOf s s' /\ errors s' = errors s /\ visits s' = visits s.

(** Only calls of the down pass are logged and [errors] is not written. *)
Definition downLogged (s s' : PState) : Prop :=
  frameOf s s' /\ errors s' = errors s
  /\ exists new, visits s' = visits s ++ new /\ Forall (fun v => v_pass v = Down) new.

(** Only calls of the up pass are logged, each on a node of the graph, and
    [errors] is what replaying them on the old [errors] gives. *)
Definition errorsFollowVisits (s s' : PState) : Prop :=
  frameOf s s'
  /\ exists new,
       visits s' = visits s ++ new
       /\ errors s' = replay new (errors s)
       /\ Forall (fun v => v_pass v = Up
                           /\ Graph.hasNode (graph (assetGraph s)) (v_asset v) = true) new.

(** The last call of the up pass on [n] in a log, if any. *)
Definition lastUpVisit (n : nat) (vs : list VisitRecord) : option VisitRecord :=
  last (List.filter (fun v => match v_pass v with
                              | Up => bool_decide (v_asset v = n)
                              | Down => false
                              end) vs).

End PropagationSpec.

(** ** Concrete asset graphs *)

Module PropagationExamples.
Import SymbolPropagation.

(** Modelled from the spec: [AssetGraph.getIncomingDependencies] (AssetGraph.js
    is not part of the sources at hand).  The spec has a dependency resolve
    to an asset either directly or through an asset group; the incoming
    dependencies of an asset are the dependency nodes with an edge to the
    asset, or to an asset group that has an edge to it.  Only the concrete
    runs below use this definition. *)
Definition getIncomingDependencies (ag : AssetGraph) (value : nat) : list string :=
  let g := graph ag in
  let connectedTo id :=
    Graph.AdjacencyList.getNodesConnectedTo (Graph.adjacencyList g) id (Graph.OneType 1) in
  match List.find (fun kv => match kv.2 with
                             | NAsset a => bool_decide (an_value a = value)
                             | _ => false
                             end)
                  (map_to_list (Graph.nodes g)) with
  | Some (id, _) =>
      concat
        ((fun p =>
            match Graph.getNode g p with
            | Some (NDependency d) => [dn_id d]
            | Some (NAssetGroup _) =>
                omap (fun q => match Graph.getNode g q with
                               | Some (NDependency d) => Some (dn_id d)
                               | _ => None
                               end)
                     (connectedTo p)
            | _ => []
            end) <$> connectedTo id)
  | None => []
  end.

(** Flag bits: [SIDE_EFFECTS = 1 << 2], [HAS_SYMBOLS = 1], [IS_WEAK = 1]. *)
Definition flagTables : FlagTables := mkFlagTables 4 1 1.

(** Symbols: [*] is [0], [default] is [1]; [2] is [a], [5] is [bar],
    [4] is [foo], [6] is [baz]; identifiers local to an asset start at 10. *)
Definition symbolName (s : nat) : string :=
  match s with
  | 0 => "*" | 1 => "default" | 2 => "a" | 4 => "foo" | 5 => "bar" | 6 => "baz"
  | _ => "?"
  end.

Definition noSymbolsDependency : DbDependencyT := mkDbDependency None "./entry" None 0.

(** The database behind all the graphs below, by handle. *)
Definition dbAsset (addr : nat) : DbAssetT :=
  match addr with
  | 100 => mkDbAsset (Some []) "a.js" 0 "none" "js"
  | 110 => mkDbAsset (Some [mkSymbol 5 11 0 None]) "a.js" 0 "none" "js"
  | 111 => mkDbAsset (Some [mkSymbol 6 13 0 None]) "b.js" 0 "none" "js"
  | 120 => mkDbAsset (Some [mkSymbol 2 10 0 None]) "a.js" 0 "none" "js"
  | 130 => mkDbAsset (Some [mkSymbol 2 10 0 None; mkSymbol 5 11 0 None]) "a.js" 0 "none" "js"
  | _ => mkDbAsset None "unknown.js" 0 "none" "js"
  end.

Definition dbDependency (addr : nat) : DbDependencyT :=
  match addr with
  | 301 => mkDbDependency (Some [mkSymbol 5 20 0 None; mkSymbol 2 21 0 None]) "./o" (Some 100) 1
  | 310 => mkDbDependency (Some [mkSymbol 5 5 0 None]) "./a" None 1
  | 311 => mkDbDependency (Some [mkSymbol 4 12 0 None]) "./b" (Some 110) 1
  | 320 => mkDbDependency (Some [mkSymbol 2 2 0 None]) "./a" None 1
  | 321 => mkDbDependency (Some [mkSymbol 2 10 1 None]) "./o" (Some 120) 1
  | 330 => mkDbDependency (Some [mkSymbol 5 5 0 None; mkSymbol 2 2 0 None]) "./a" None 1
  | _ => noSymbolsDependency
  end.

Definition options : ParcelOptions :=
  mkOptions (mkDb 0 1 dbAsset dbDependency symbolName) "info" "/"
            (fun path => path) (fun _ path => Some path) (fun text => text)
            (fun l => mkHighlight (loc_start l) (loc_end l)).

(** A dependency as [nodeFromDep] makes it, all flags dirty, with the
    requested symbols [down]. *)
Definition freshDependency (id : string) (value : nat) (down : list nat) : AssetGraphNode :=
  NDependency (mkDependencyNode id value down [] true true true false).

(** A dependency whose flags are all clear. *)
Definition settledDependency (id : string) (value : nat) (down : list nat)
    (up : list (nat * option Resolution)) : AssetGraphNode :=
  NDependency (mkDependencyNode id value down up false false false false).

Definition freshAsset (id : string) (value : nat) : AssetGraphNode :=
  NAsset (mkAssetNode id value [] true true).

Definition mkExample (nodes : list (nat * AssetGraphNode)) (edges : list (nat * nat))
    (keys : list (string * nat)) : AssetGraph :=
  mkAssetGraph
    (Graph.mkGraph (list_to_map nodes) ((fun e => Graph.mkEdge e.1 e.2 1) <$> edges)
                   (Some 0) (length nodes))
    (list_to_map keys).

(** [root -> entry -> A -> O], where [O] requests [bar] and [a] of a module
    that resolves to nothing. *)
Definition unresolvedImports : AssetGraph :=
  mkExample
    [(0, NRoot "root"); (1, freshDependency "entry" 300 []);
     (2, freshAsset "A" 100); (3, freshDependency "O" 301 [])]
    [(0, 1); (1, 2); (2, 3)]
    [("root", 0); ("entry", 1); ("A", 2); ("O", 3)].

(** [root -> D1 -> A -> D2 -> B]: the entry requests [bar] of [A], and [A]
    imports [foo] from [B], which only exports [baz]. *)
Definition missingExportGraph : AssetGraph :=
  mkExample
    [(0, NRoot "root"); (1, freshDependency "D1" 310 [5]); (2, freshAsset "A" 110);
     (3, freshDependency "D2" 311 []); (4, freshAsset "B" 111)]
    [(0, 1); (1, 2); (2, 3); (3, 4)]
    [("root", 0); ("D1", 1); ("A", 2); ("D2", 3); ("B", 4)].

(** [root -> I -> A -> O] after a build in which [I] requested [a]: [A]
    reexports [a] from [O], which resolves to nothing, so [O] has
    [usedSymbolsDown = {a}] and [usedSymbolsUp = {a -> null}].  Now [I]
    requests nothing and [A] is to be propagated again. *)
Definition droppedRequest : AssetGraph :=
  mkExample
    [(0, NRoot "root"); (1, settledDependency "I" 320 [] []);
     (2, freshAsset "A" 120); (3, settledDependency "O" 321 [2] [(2, None)])]
    [(0, 1); (1, 2); (2, 3)]
    [("root", 0); ("I", 1); ("A", 2); ("O", 3)].

(** [root -> entry -> G -> A] where the asset group [G] lost a parent and is
    marked dirty. *)
Definition dirtyAssetGroup : AssetGraph :=
  mkExample
    [(0, NRoot "root"); (1, settledDependency "entry" 300 [] []);
     (2, NAssetGroup (mkAssetGroupNode "G" (mkAssetGroup "a.js" None) true));
     (3, NAsset (mkAssetNode "A" 100 [] false false))]
    [(0, 1); (1, 2); (2, 3)]
    [("root", 0); ("entry", 1); ("G", 2); ("A", 3)].

(** [root -> entry -> A]: an application entry (no symbols on the entry
    dependency) whose asset changed. *)
Definition changedEntryAsset : AssetGraph :=
  mkExample
    [(0, NRoot "root");
     (1, NDependency (mkDependencyNode "entry" 300 [] [] false true false false));
     (2, freshAsset "A" 100)]
    [(0, 1); (1, 2)]
    [("root", 0); ("entry", 1); ("A", 2)].

(** [root -> D1 -> A] where only the changed asset [A] is dirty: the entry
    requests [bar] of [A], which exports it. *)
Definition settledEntry : AssetGraph :=
  mkExample
    [(0, NRoot "root"); (1, settledDependency "D1" 310 [5] []); (2, freshAsset "A" 110)]
    [(0, 1); (1, 2)]
    [("root", 0); ("D1", 1); ("A", 2)].

(** [root -> D1 -> A]: the entry requests [bar] and then [a] of [A], which
    exports both. *)
Definition unsortedRequest : AssetGraph :=
  mkExample
    [(0, NRoot "root"); (1, freshDependency "D1" 330 [5; 2]); (2, freshAsset "A" 130)]
    [(0, 1); (1, 2)]
    [("root", 0); ("D1", 1); ("A", 2)].

(** The asset graph [g] of the graph above after [A] changed and was
    transformed again: node [2] is a fresh asset node, with both dirty flags
    set and no used symbols; everything else is as the last build left it. *)
Definition withRebuiltAsset (g : AssetGraph) : AssetGraph :=
  mkAssetGraph
    (Graph.mkGraph (<[2 := freshAsset "A" 130]> (Graph.nodes (graph g)))
       (Graph.adjacencyList (graph g)) (Graph.rootNodeId (graph g))
       (Graph.nextNodeId (graph g)))
    (_contentKeyToNodeId g).

(** An error entry left by an earlier build. *)
Definition staleDiagnostic : Diagnostic := mkDiagnostic "stale" "@parcel/core" None.

(** Error entries of an earlier build: for a node that is gone ([7]), for
    the dependency [1] and for the asset [2]. *)
Definition staleErrors : gmap nat (list Diagnostic) :=
  list_to_map [(7, [staleDiagnostic]); (1, [staleDiagnostic]); (2, [staleDiagnostic])].

(** What [propagateSymbols] returns in a run, or the empty map. *)
Definition returned (run : outcome (gmap nat (list Diagnostic)) * PState)
    : gmap nat (list Diagnostic) :=
  match run.1 with
  | Ok errs => errs
  | _ => ∅
  end.

(** A fact about a run that holds whether the full-pass heuristic answers
    no or yes. *)
Definition eitherHeuristic (P : bool -> Prop) : Prop := P false /\ P true.

Definition propagate (heuristic : bool) (g : AssetGraph) (changed : list string)
    (groups : list nat) (previousErrors : option (gmap nat (list Diagnostic)))
    : outcome (gmap nat (list Diagnostic)) * PState :=
  propagateSymbols options flagTables getIncomingDependencies (fun _ _ => heuristic)
    30 g changed groups previousErrors.

End PropagationExamples.

(** * More of the asset accessors (public/Asset.js) *)

Module AssetAccessors.
Import AssetFlagBits.

(** [~a] *)
Definition js_not (a : Z) : Z := to_int32 (Z.lnot (to_int32 a)).

(** The members of [AssetFlags] behind the [meta] proxy of [BaseAsset]. *)
Record MetaFlagsT : Type := {
  SHOULD_WRAP : Z;
  IS_CONSTANT_MODULE : Z;
  HAS_NODE_REPLACEMENTS : Z;
  HAS_CJS_EXPORTS : Z;
  STATIC_EXPORTS : Z;
}.

Section MetaProxy.
Variable AssetFlags : MetaFlagsT.

(** The values kept in [meta], with JavaScript's truthiness of a value. *)
Context {Value : Type}.
Variable truthy : Value -> bool.

(** The [switch (prop)] of the two traps: the flag a property name stands
    for, [None] for the [default] case. *)
Definition flagOf (prop : string) : option Z :=
  if bool_decide (prop = "shouldWrap") then Some (SHOULD_WRAP AssetFlags)
  else if bool_decide (prop = "isConstantModule") then Some (IS_CONSTANT_MODULE AssetFlags)
  else if bool_decide (prop = "hasNodeReplacements") then Some (HAS_NODE_REPLACEMENTS AssetFlags)
  else if bool_decide (prop = "hasCJSExports") then Some (HAS_CJS_EXPORTS AssetFlags)
  else if bool_decide (prop = "staticExports") then Some (STATIC_EXPORTS AssetFlags)
  else None.

(** What the proxy reads and writes: [this.#asset.value.flags] and the
    target [this.#asset.meta]. *)
Record ProxiedAsset : Type := mkProxiedAsset {
  pa_flags : Z;
  pa_meta : gmap string Value;
}.

(** What the [get] trap returns: a boolean computed from the flags, or
    [target[prop]] ([None] for [undefined]). *)
Inductive MetaRead : Type :=
  | FromFlags (b : bool)
  | FromTarget (v : option Value).

(** The [get] trap. *)
Definition meta_get (a : ProxiedAsset) (prop : string) : MetaRead :=
  match flagOf prop with
  | Some flag => FromFlags (js_Boolean (js_and (pa_flags a) flag))
  | None => FromTarget (pa_meta a !! prop)
  end.

(** The [set] trap. *)
Definition meta_set (a : ProxiedAsset) (prop : string) (value : Value) : ProxiedAsset :=
  match flagOf prop with
  | Some flag =>
      if truthy value
      then mkProxiedAsset (js_or (pa_flags a) flag) (pa_meta a)
      else mkProxiedAsset (js_and (pa_flags a) (js_not flag)) (pa_meta a)
  | None => mkProxiedAsset (pa_flags a) (<[prop := value]> (pa_meta a))
  end.
End MetaProxy.

(** [get bundleBehavior()], from the stored [this.#asset.value.bundleBehavior];
    [None] stands for [null]. *)
Definition get_bundleBehavior (stored : string) : option string :=
  if bool_decide (stored = "none") then None else Some stored.

(** [set bundleBehavior(bundleBehavior)]: the value stored.  The empty string
    is the one falsy string. *)
Definition set_bundleBehavior (bundleBehavior : option string) : string :=
  match bundleBehavior with
  | Some b => if bool_decide (b = "") then "none" else b
  | None => "none"
  end.

(** [set uniqueKey(uniqueKey)] on the stored [this.#asset.value.uniqueKey];
    [None] stands for [null] and [undefined]. *)
Definition set_uniqueKey (uniqueKey : option string) : M (option string) unit :=
  fun stored =>
    match stored with
    | Some _ => (Throw "Cannot change an asset's uniqueKey after it has been set.", stored)
    | None => (Ok tt, uniqueKey)
    end.

(** A run of assignments [asset.uniqueKey = k], each one on its own (an
    exception ends the assignment, not the run); the stored key at the end. *)
Definition assign_uniqueKeys (keys : list (option string)) (stored : option string)
    : option string :=
  foldl (fun stored k => (set_uniqueKey k stored).2) stored keys.

End AssetAccessors.

(** * More of Graph (graph/src/Graph.js) *)

Module GraphMethods.
Import Graph.

Section WithNode.
Context {TNode : Type}.

(** [updateNode(nodeId, node)] *)
Definition updateNode (nodeId : NodeId) (node : TNode) : M (Graph.t TNode) unit :=
  (g <- get ;;
   _assertHasNodeId g nodeId ;;;
   modify (fun g => mkGraph (<[nodeId := node]> (nodes g)) (adjacencyList g)
                            (rootNodeId g) (nextNodeId g)))%js.

(** [removeEdges(nodeId, type = 1)] *)
Definition removeEdges (fuel : nat) (nodeId : NodeId) (type : EdgeType)
    : M (Graph.t TNode) unit :=
  (g <- get ;;
   _assertHasNodeId g nodeId ;;;
   connected <- (fun s => (getNodeIdsConnectedFrom g nodeId (OneType type), s)) ;;
   forEach connected (fun to => removeEdge fuel nodeId to type true))%js.

(** [replaceNodeIdsConnectedTo(fromNodeId, toNodeIds, replaceFilter, type = 1)];
    [replaceFilter] is a predicate on node ids, [None] when it is not given. *)
Definition replaceNodeIdsConnectedTo (fuel : nat) (fromNodeId : NodeId)
    (toNodeIds : list NodeId) (replaceFilter : option (NodeId -> bool)) (type : EdgeType)
    : M (Graph.t TNode) unit :=
  (g <- get ;;
   _assertHasNodeId g fromNodeId ;;;
   outboundEdges <- (fun s => (getNodeIdsConnectedFrom g fromNodeId (OneType type), s)) ;;
   let childrenToRemove :=
     set_of_list (match replaceFilter with
                  | Some f => List.filter f outboundEdges
                  | None => outboundEdges
                  end) in
   childrenToRemove <-
     SymbolPropagation.foldM
       (fun childrenToRemove toNodeId =>
          g <- get ;;
          (if negb (hasEdge g fromNodeId toNodeId type)
           then addEdge fromNodeId toNodeId type ;;; ret tt
           else ret tt) ;;;
          ret (set_delete childrenToRemove toNodeId))
       toNodeIds childrenToRemove ;;
   forEach childrenToRemove (fun child => removeEdge fuel fromNodeId child type true))%js.

(** ** The four searches

    [fn] is a predicate on node ids.  The closure variable of the visitor is
    [res]. *)

(** The visitor of [findAncestor] and [findDescendant]. *)
Definition findFirst_visitor (fn : NodeId -> bool)
    : @GraphVisitor TNode (option NodeId) unit :=
  VisitFunction (fun nodeId _ w =>
    if fn nodeId
    then mkVisitResult None false true (w.1, Some nodeId)
    else mkVisitResult None false false w).

(** The visitor of [findAncestors] and [findDescendants]. *)
Definition findAll_visitor (fn : NodeId -> bool)
    : @GraphVisitor TNode (list NodeId) unit :=
  VisitFunction (fun nodeId _ w =>
    if fn nodeId
    then mkVisitResult None true false (w.1, w.2 ++ [nodeId])
    else mkVisitResult None false false w).

(** [return res] after a traversal that returned. *)
Definition resultOf {S C} (run : outcome (option C) * @DfsState TNode S C) : outcome S :=
  match run with
  | (Ok _, st) => Ok (world st).2
  | (Throw e, _) => Throw e
  | (OutOfFuel, _) => OutOfFuel
  end.

(** [findAncestor(nodeId, fn)] *)
Definition findAncestor (fuel : nat) (g : Graph.t TNode) (nodeId : NodeId)
    (fn : NodeId -> bool) : outcome (option NodeId) :=
  resultOf (traverseAncestors_run fuel (Some nodeId) (findFirst_visitor fn)
              (OneType 1) (g, None)).

(** [findAncestors(nodeId, fn)] *)
Definition findAncestors (fuel : nat) (g : Graph.t TNode) (nodeId : NodeId)
    (fn : NodeId -> bool) : outcome (list NodeId) :=
  resultOf (traverseAncestors_run fuel (Some nodeId) (findAll_visitor fn)
              (OneType 1) (g, [])).

(** [findDescendant(nodeId, fn)] *)
Definition findDescendant (fuel : nat) (g : Graph.t TNode) (nodeId : NodeId)
    (fn : NodeId -> bool) : outcome (option NodeId) :=
  resultOf (traverse_run fuel (findFirst_visitor fn) (Some nodeId) (OneType 1) (g, None)).

(** [findDescendants(nodeId, fn)] *)
Definition findDescendants (fuel : nat) (g : Graph.t TNode) (nodeId : NodeId)
    (fn : NodeId -> bool) : outcome (list NodeId) :=
  resultOf (traverse_run fuel (findAll_visitor fn) (Some nodeId) (OneType 1) (g, [])).

End WithNode.
End GraphMethods.

(** ** More vocabulary for graphs and traversals *)

Section GraphVocabulary.
Import Graph.
Context {TNode : Type}.

(** An edge [n -> m] of a type the neighbour query accepts. *)
Definition edgeBetween (g : Graph.t TNode) (type : TypeSpec) (n m : nat) : Prop :=
  exists t, matchesType type t = true /\ mkEdge n m t ∈ adjacencyList g.

(** [m] is [n] or can be reached from it along such edges. *)
Definition descendantOf (g : Graph.t TNode) (type : TypeSpec) (n m : nat) : Prop :=
  rtc (edgeBetween g type) n m.

(** [m] is [n] or [n] can be reached from it. *)
Definition ancestorOf (g : Graph.t TNode) (type : TypeSpec) (n m : nat) : Prop :=
  rtc (flip (edgeBetween g type)) n m.

(** A removal took place between [g] and [g']: nodes and edges of [g'] are
    nodes and edges of [g], in the same order, and the root and the node
    counter are the same. *)
Definition onlyRemoved (g g' : Graph.t TNode) : Prop :=
  nodes g' ⊆ nodes g
  /\ adjacencyList g' `sublist_of` adjacencyList g
  /\ rootNodeId g' = rootNodeId g
  /\ nextNodeId g' = nextNodeId g.

Context {S C : Type}.

(** The nodes a trace entered, and the nodes it exited, in order. *)
Definition entered (evs : list (@Event TNode S C)) : list nat :=
  ev_node <$> List.filter (fun e => match ev_kind e with Enter => true | Exit => false end) evs.

Definition exited (evs : list (@Event TNode S C)) : list nat :=
  ev_node <$> List.filter (fun e => match ev_kind e with Enter => false | Exit => true end) evs.

(** No callback of the visitor changes the graph. *)
Definition leavesGraphAlone (visit : @GraphVisitor TNode S C) : Prop :=
  forall cb, enterOf visit = Some cb \/ exitOf visit = Some cb ->
    forall n ctx w, (worldAfter (cb n ctx w)).1 = w.1.

(** *** Reading the progress of a traversal

    Between two states of a [dfs] call: the callbacks invoked in between are
    on nodes that were not visited before and are visited now, no node was
    entered twice and none exited twice. *)
Definition fresh (st st' : @DfsState TNode S C) : Prop :=
  exists evs,
    trace st' = trace st ++ evs
    /\ visited st ⊆ visited st'
    /\ NoDup (entered evs) /\ NoDup (exited evs)
    /\ Forall (fun e => ev_node e ∈ visited st' /\ ev_node e ∉ visited st) evs.

(** The same for one call [walk(n)], whose own callbacks are on [n]. *)
Definition walked (n : nat) (st st' : @DfsState TNode S C) : Prop :=
  exists evs,
    trace st' = trace st ++ evs
    /\ visited st ⊆ visited st'
    /\ NoDup (entered evs) /\ NoDup (exited evs)
    /\ Forall (fun e => ev_node e ∈ visited st'
                        /\ (ev_node e = n \/ ev_node e ∉ visited st)) evs.

(** A run of events leads from the world [w] to the world [w']: each
    callback was invoked in the world the one before left. *)
Fixpoint chained (w : Graph.t TNode * S) (evs : list (@Event TNode S C))
    (w' : Graph.t TNode * S) : Prop :=
  match evs with
  | [] => w' = w
  | e :: evs => ev_world e = w /\ chained (worldAfter (ev_result e)) evs w'
  end.

(** The event records what the visitor's callback of that kind did. *)
Definition genuine (visit : @GraphVisitor TNode S C) (e : @Event TNode S C) : Prop :=
  exists cb,
    match ev_kind e with Enter => enterOf visit | Exit => exitOf visit end = Some cb
    /\ ev_result e = cb (ev_node e) (ev_context e) (ev_world e).

(** The trace is a faithful log of what happened to the world. *)
Definition logged (visit : @GraphVisitor TNode S C) (st st' : @DfsState TNode S C) : Prop :=
  exists evs,
    trace st' = trace st ++ evs
    /\ chained (world st) evs (world st')
    /\ Forall (genuine visit) evs.

(** [m] is one of the children [getChildren] answers for [n] in the graph
    [g]. *)
Definition childVia (gc : Graph.t TNode -> nat -> outcome (list nat)) (g : Graph.t TNode)
    (n m : nat) : Prop :=
  exists l, gc g n = Ok l /\ m ∈ l.

(** Among [evs] there is an [enter] of [a] that did not call
    [skipChildren()] (nothing is asked of a visitor without [enter]). *)
Definition unskipped (visit : @GraphVisitor TNode S C) (evs : list (@Event TNode S C))
    (a : nat) : Prop :=
  match enterOf visit with
  | Some _ =>
      exists e, e ∈ evs /\ ev_kind e = Enter /\ ev_node e = a
                /\ calledSkipChildren (ev_result e) = false
  | None => True
  end.

(** A step of the traversal: from a node whose children were not skipped to
    one of its children. *)
Definition stepVia (visit : @GraphVisitor TNode S C)
    (gc : Graph.t TNode -> nat -> outcome (list nat)) (g : Graph.t TNode)
    (evs : list (@Event TNode S C)) (a b : nat) : Prop :=
  childVia gc g a b /\ unskipped visit evs a.

(** The graph is still [g], it was [g] whenever a callback was invoked in
    between, and each of these callbacks was on a node that such steps lead
    to from one of [starts]. *)
Definition reachedFrom (visit : @GraphVisitor TNode S C)
    (gc : Graph.t TNode -> nat -> outcome (list nat)) (g : Graph.t TNode)
    (starts : list nat) (st st' : @DfsState TNode S C) : Prop :=
  (world st').1 = g
  /\ exists evs,
       trace st' = trace st ++ evs
       /\ Forall (fun e => (ev_world e).1 = g
                           /\ exists c, c ∈ starts
                                        /\ rtc (stepVia visit gc g evs) c (ev_node e)) evs.

(** The node a traversal starts from: [startNodeId ?? this.rootNodeId]. *)
Definition traversalStart (g : Graph.t TNode) (startNodeId : option nat) : option nat :=
  match startNodeId with
  | Some n => Some n
  | None => rootNodeId g
  end.

(** The node ids in use. *)
Definition present (g : Graph.t TNode) : list nat := (map_to_list (nodes g)).*1.

(** How many nodes of the graph are not in [visited]. *)
Definition unvisited (g : Graph.t TNode) (visited : list nat) : nat :=
  length (filter (fun k => k ∉ visited) (present g)).

(** An edge [n -> m] out of a node of the graph, and an edge [m -> n] into
    one. *)
Definition linkFrom (g : Graph.t TNode) (type : TypeSpec) (n m : nat) : Prop :=
  hasNode g n = true /\ edgeBetween g type n m.

Definition linkTo (g : Graph.t TNode) (type : TypeSpec) (n m : nat) : Prop :=
  hasNode g n = true /\ edgeBetween g type m n.

(** What a piece of a traversal that was not stopped has explored: every
    node of the graph it visited was entered (when the visitor has an
    [enter]), and unless that [enter] called [skipChildren()], each of the
    node's children is visited. *)
Definition explored (visit : @GraphVisitor TNode S C)
    (gc : Graph.t TNode -> nat -> outcome (list nat)) (g : Graph.t TNode)
    (evs : list (@Event TNode S C)) (visitedAfter : list nat) (a : nat) : Prop :=
  match enterOf visit with
  | Some _ =>
      exists e, e ∈ evs /\ ev_kind e = Enter /\ ev_node e = a
                /\ (calledSkipChildren (ev_result e) = false ->
                    forall b, childVia gc g a b -> b ∈ visitedAfter)
  | None => forall b, childVia gc g a b -> b ∈ visitedAfter
  end.

(** Every callback of the traversal that ended in [st] ran while the graph
    was [g], on a node of [g] that can be reached from the start node along
    [link], through nodes that were entered without [skipChildren()]. *)
Definition withinReach (visit : @GraphVisitor TNode S C) (g : Graph.t TNode)
    (link : relation nat) (startNodeId : option nat) (st : @DfsState TNode S C) : Prop :=
  (world st).1 = g
  /\ Forall (fun e =>
               (ev_world e).1 = g
               /\ hasNode g (ev_node e) = true
               /\ exists start,
                    traversalStart g startNodeId = Some start
                    /\ rtc (fun a b => link a b /\ unskipped visit (trace st) a)
                           start (ev_node e))
            (trace st).

(** The traversal that ended in [st] has visited, and entered, every node of
    [g] that can be reached from [start] along [link] through nodes whose
    [enter] did not call [skipChildren()]. *)
Definition coversReach (visit : @GraphVisitor TNode S C) (g : Graph.t TNode)
    (link : relation nat) (start : nat) (st : @DfsState TNode S C) : Prop :=
  forall m,
    hasNode g m = true ->
    rtc (fun a b =>
           link a b
           /\ forall e, e ∈ trace st -> ev_kind e = Enter -> ev_node e = a ->
                        calledSkipChildren (ev_result e) = false) start m ->
    m ∈ visited st /\ (is_Some (enterOf visit) -> m ∈ entered (trace st)).

(** How a traversal ends, by its start node: without one it throws, with
    one that is not in the graph it throws, and otherwise it returns. *)
Definition endsAsExpected (g : Graph.t TNode) (startNodeId : option nat)
    (r : outcome (option C)) : Prop :=
  match traversalStart g startNodeId with
  | None => r = Throw "A start node is required to traverse"
  | Some start =>
      if hasNode g start then exists ctx, r = Ok ctx
      else r = Throw "Does not have node"
  end.

End GraphVocabulary.

(** ** More concrete graphs *)

Module GraphExamples.
Import Graph.

(** A cycle [0 -> 1 -> 0] rooted at [0]. *)
Definition cycle : Graph.t unit :=
  mkGraph (list_to_map [(0, tt); (1, tt)]) [mkEdge 0 1 1; mkEdge 1 0 1] (Some 0) 2.

(** The root [0] with the children [1] and [2], and a node [3] that nothing
    leads to. *)
Definition fan : Graph.t unit :=
  mkGraph (list_to_map [(0, tt); (1, tt); (2, tt); (3, tt)])
          [mkEdge 0 1 1; mkEdge 0 2 1] (Some 0) 4.

(** A visitor that does nothing. *)
Definition idle : @GraphVisitor unit unit unit :=
  VisitFunction (fun _ _ w => mkVisitResult None false false w).

End GraphExamples.

(** * Properties *)

(** ** Asset flags *)

Section AssetFlagFacts.
Import AssetFlagBits.
Local Open Scope Z_scope.

Lemma to_int32_mod (z : Z) : to_int32 z mod 2 ^ 32 = z mod 2 ^ 32.
Proof.
  unfold to_int32. rewrite Zminus_mod_idemp_l. f_equal. lia.
Qed.

Lemma to_int32_range (z : Z) : - 2 ^ 31 <= to_int32 z < 2 ^ 31.
Proof.
  unfold to_int32.
  pose proof (Z.mod_pos_bound (z + 2 ^ 31) (2 ^ 32) ltac:(lia)). lia.
Qed.

Lemma to_int32_zero_iff (z : Z) : to_int32 z = 0 <-> z mod 2 ^ 32 = 0.
Proof.
  split; intros H.
  - rewrite <- to_int32_mod, H. reflexivity.
  - pose proof (to_int32_range z) as Hr.
    rewrite <- to_int32_mod in H.
    apply Z.mod_divide in H; [|lia].
    destruct H as [k Hk].
    assert (k = 0) by lia. lia.
Qed.

Lemma land_lor_absorb (a b : Z) : Z.land (Z.lor a b) b = b.
Proof.
  apply Z.bits_inj'. intros n Hn.
  rewrite Z.land_spec, Z.lor_spec.
  destruct (Z.testbit a n), (Z.testbit b n); reflexivity.
Qed.

Lemma land_mod_pow2 (a b n : Z) :
  0 <= n -> Z.land a b mod 2 ^ n = Z.land (a mod 2 ^ n) b mod 2 ^ n.
Proof.
  intros Hn. rewrite <- !Z.land_ones by lia.
  apply Z.bits_inj'. intros i Hi.
  rewrite !Z.land_spec.
  destruct (Z.testbit a i), (Z.testbit b i), (Z.testbit (Z.ones n) i); reflexivity.
Qed.

(** Reading a bit back after or-ing it in never gives zero. *)
Lemma js_and_or_nonzero (flags bit : Z) :
  to_int32 bit <> 0 -> js_and (js_or flags bit) bit <> 0.
Proof.
  intros Hbit Hz. apply Hbit.
  unfold js_and, js_or in Hz.
  apply to_int32_zero_iff in Hz.
  rewrite land_mod_pow2 in Hz by lia.
  rewrite !to_int32_mod in Hz.
  rewrite <- land_mod_pow2 in Hz by lia.
  rewrite land_lor_absorb in Hz.
  rewrite to_int32_mod in Hz.
  apply to_int32_zero_iff. exact Hz.
Qed.

(** C7: the [sideEffects] and [isBundleSplittable] setters of [MutableAsset]
    only OR the flag bit into [flags], whatever boolean is assigned (also
    [false]) and whatever the flags were; the getter therefore answers [true]
    after any assignment.  The two constants are flag bits, that is, not zero
    as 32-bit integers. *)
Theorem setters_only_or_in_the_flag_bit (AssetFlags : AssetFlagsT) (flags : Z) (value : bool) :
  to_int32 (SIDE_EFFECTS AssetFlags) <> 0 ->
  to_int32 (IS_BUNDLE_SPLITTABLE AssetFlags) <> 0 ->
  set_sideEffects AssetFlags flags value = js_or flags (SIDE_EFFECTS AssetFlags)
  /\ get_sideEffects AssetFlags (set_sideEffects AssetFlags flags value) = true
  /\ set_isBundleSplittable AssetFlags flags value
     = js_or flags (IS_BUNDLE_SPLITTABLE AssetFlags)
  /\ get_isBundleSplittable AssetFlags (set_isBundleSplittable AssetFlags flags value) = true.
Proof.
  intros Hs Hb.
  unfold set_sideEffects, get_sideEffects, set_isBundleSplittable,
    get_isBundleSplittable, js_Boolean.
  repeat split.
  - apply negb_true_iff, Z.eqb_neq, js_and_or_nonzero, Hs.
  - apply negb_true_iff, Z.eqb_neq, js_and_or_nonzero, Hb.
Qed.

(** Assigning [false] to an asset whose flags are all clear, with the bits
    [1 << 1] and [1 << 2]. *)
Lemma setters_only_or_in_the_flag_bit_witness :
  let AssetFlags := {| IS_BUNDLE_SPLITTABLE := 2; SIDE_EFFECTS := 4 |} in
  set_sideEffects AssetFlags 0 false = js_or 0 (SIDE_EFFECTS AssetFlags)
  /\ get_sideEffects AssetFlags (set_sideEffects AssetFlags 0 false) = true
  /\ set_isBundleSplittable AssetFlags 0 false
     = js_or 0 (IS_BUNDLE_SPLITTABLE AssetFlags)
  /\ get_isBundleSplittable AssetFlags (set_isBundleSplittable AssetFlags 0 false) = true.
Proof.
  apply (setters_only_or_in_the_flag_bit {| IS_BUNDLE_SPLITTABLE := 2; SIDE_EFFECTS := 4 |} 0 false);
    vm_compute; discriminate.
Defined.

End AssetFlagFacts.

(** ** Graph.bfs *)

Section BfsFacts.
Import Graph.
Context {TNode S : Type}.
Variable visit : nat -> Graph.t TNode * S -> option bool * (Graph.t TNode * S).

(** Whatever the queue holds, the visitor is only ever handed the root. *)
Lemma bfs_loop_calls (fuel root : nat) :
  forall queue visited st r st',
    bfs_loop visit fuel root queue visited st = (r, st') ->
    exists k, bfs_calls st' = bfs_calls st ++ replicate k root.
Proof.
  induction fuel as [|fuel IH]; intros queue visited st r st' H; simpl in H.
  - inversion H; subst. exists 0. simpl. by rewrite app_nil_r.
  - destruct queue as [|node queue].
    + inversion H; subst. exists 0. simpl. by rewrite app_nil_r.
    + unfold bind in H. simpl in H.
      destruct (visit root (bfs_world st)) as [stop w] eqn:Hv.
      simpl in H.
      destruct (bool_decide (stop = Some true)).
      * inversion H; subst. exists 1. reflexivity.
      * simpl in H.
        destruct (getNodeIdsConnectedFrom w.1 node (OneType 1)) as [children|e|] eqn:Hc.
        -- destruct (foldl _ (queue, visited) children) as [queue' visited'].
           apply IH in H. destruct H as [k Hk]. simpl in Hk.
           exists (Datatypes.S k). rewrite Hk, <- app_assoc. reflexivity.
        -- inversion H; subst. exists 1. reflexivity.
        -- inversion H; subst. exists 1. reflexivity.
Qed.

Lemma bfs_calls_only_root (fuel : nat) (w : Graph.t TNode * S) :
  forall n, n ∈ bfs_calls (bfs_run visit fuel w).2 -> rootNodeId w.1 = Some n.
Proof.
  intros n. unfold bfs_run.
  destruct (rootNodeId w.1) as [root|] eqn:Hroot; simpl.
  - destruct (bfs_loop visit fuel root [root] [root] (mkBfsState w [])) as [r st'] eqn:H.
    apply bfs_loop_calls in H. destruct H as [k Hk]. simpl in *.
    rewrite Hk. intros Hin. apply elem_of_replicate in Hin. by destruct Hin as [-> _].
  - intros Hin. apply elem_of_nil in Hin. done.
Qed.
End BfsFacts.

(** C1: on the chain [0 -> 1 -> 2] rooted at [0], with a visitor that
    answers [true] exactly at node [1], [bfs] dequeues [0], [1] and [2] but
    calls the visitor with the root all three times and returns [null],
    where a visitor invoked on each dequeued node would have made it return
    node [1]. *)
Theorem bfs_hands_the_root_to_every_visit :
  let run := Graph.bfs_run Examples.stopAtOne 10 (Examples.chain, tt) in
  run.1 = Ok None /\ Graph.bfs_calls run.2 = [0; 0; 0].
Proof. vm_compute. split; reflexivity. Qed.

(** ** Graph.dfs *)

Section DfsFacts.
Import Graph.
Context {TNode S C : Type}.
Variable visit : @GraphVisitor TNode S C.
Variable getChildren : Graph.t TNode * S -> nat -> outcome (list nat).

Abbreviation St := (@DfsState TNode S C).

Lemma invoke_inv kind cb n ctx (st : St) :
  exists e st',
    invoke kind cb n ctx st = (Ok (contextAfter e), st')
    /\ trace st' = trace st ++ [e]
    /\ ev_kind e = kind /\ ev_node e = n /\ ev_world e = world st
    /\ stopped st' = stopped st || stopsAt e
    /\ skipped st' = skipped st || calledSkipChildren (ev_result e)
    /\ visited st' = visited st.
Proof.
  eexists (mkEvent kind n ctx (world st) (cb n ctx (world st))), _.
  unfold invoke. split; [reflexivity|]. simpl. repeat split; reflexivity.
Qed.

Lemma traversed_refl {X} (ret : option C -> X) (st st' : St) r :
  trace st' = trace st -> stopped st' = false -> traversed ret st r st'.
Proof.
  intros Ht Hs. exists []. rewrite app_nil_r, Hs. simpl.
  repeat split; auto. intros; discriminate.
Qed.

Lemma traversed_step {X} (ret : option C -> X) (st st1 st' : St) r evs1 :
  trace st1 = trace st ++ evs1 ->
  Forall invokedOnPresentNode evs1 ->
  Forall (fun e => stopsAt e = false) evs1 ->
  traversed ret st1 r st' ->
  traversed ret st r st'.
Proof.
  intros Ht Hp Hn (evs & Ht' & Hp' & Hs' & Hr).
  exists (evs1 ++ evs). rewrite Ht', Ht, app_assoc. split; [done|].
  split; [by apply Forall_app|].
  split.
  - unfold stopOnlyAtEnd in *. destruct (stopped st').
    + destruct Hs' as (evs0 & e & -> & Hn0 & He).
      exists (evs1 ++ evs0), e. rewrite app_assoc. repeat split; auto.
      by apply Forall_app.
    + by apply Forall_app.
  - intros Hst. destruct (Hr Hst) as (e & Hl & -> & Hk).
    exists e. split; [|done].
    unfold stopOnlyAtEnd in Hs'. rewrite Hst in Hs'.
    destruct Hs' as (evs0 & e' & -> & _ & _).
    rewrite app_assoc, last_snoc. rewrite last_snoc in Hl. done.
Qed.

(** A callback that ends the traversal: it is the last event. *)
Lemma traversed_stop {X} (ret : option C -> X) (st st' : St) e r :
  trace st' = trace st ++ [e] ->
  invokedOnPresentNode e ->
  stopped st' = true -> stopsAt e = true ->
  r = Ok (ret (if skipped st' then None else contextAfter e)) ->
  (ev_kind e = Enter -> skipped st' = calledSkipChildren (ev_result e)) ->
  traversed ret st r st'.
Proof.
  intros Ht Hp Hs He -> Hk. exists [e]. split; [done|]. split; [by constructor|].
  rewrite Hs. simpl. split.
  - exists [], e. by repeat split.
  - intros _. exists e. by split.
Qed.

Lemma walkChildren_traversed (walk : nat -> option C -> M St (option C)) :
  walk_ok walk ->
  forall children ctx (st : St) r (st' : St),
    stopped st = false ->
    walkChildren walk children ctx st = (r, st') ->
    traversed Some st r st' /\ (stopped st' = false -> forall x, r <> Ok (Some x)).
Proof.
  intros Hw children. induction children as [|child rest IH]; intros ctx st r st' Hst H.
  - simpl in H. inversion H; subst. split; [by apply traversed_refl|]. intros; discriminate.
  - simpl in H. unfold bind, get in H. simpl in H.
    destruct (set_has (visited st) child).
    + by apply IH in H.
    + unfold modify in H. simpl in H.
      set (st1 := mkDfsState _ _ _ _ _) in H.
      destruct (walk child ctx st1) as [[result| |] st2] eqn:Hwalk.
      * apply Hw in Hwalk; [|done].
        destruct (stopped st2) eqn:Hs2.
        -- inversion H; subst. split; [|congruence].
           destruct Hwalk as (evs & Ht & Hp & Hs & Hr).
           exists evs. rewrite Hs2 in *. repeat split; auto.
           intros _. destruct (Hr eq_refl) as (e & Hl & Hres & Hk).
           exists e. split; [done|]. simpl in Hres. split; [congruence|done].
        -- apply IH in H; [|done]. destruct H as [H Hno]. split; [|done].
           destruct Hwalk as (evs & Ht & Hp & Hs & _). rewrite Hs2 in Hs.
           eapply traversed_step; [exact Ht|done|done|done].
      * inversion H; subst. apply Hw in Hwalk; [|done].
        split; [|congruence].
        destruct Hwalk as (evs & Ht & Hp & Hs & Hr).
        exists evs. repeat split; auto.
        intros Hs'. destruct (Hr Hs') as (e & _ & ? & _). discriminate.
      * inversion H; subst. apply Hw in Hwalk; [|done].
        split; [|congruence].
        destruct Hwalk as (evs & Ht & Hp & Hs & Hr).
        exists evs. repeat split; auto.
        intros Hs'. destruct (Hr Hs') as (e & _ & ? & _). discriminate.
Qed.

Lemma leave_traversed n ctx (st : St) r st' :
  stopped st = false ->
  leave visit n ctx st = (r, st') ->
  traversed id st r st'.
Proof.
  intros Hs1 H. unfold leave, bind, get in H. simpl in H.
  destruct (exitOf visit) as [exit|].
  - destruct (hasNode (world st).1 n) eqn:Hn.
    + destruct (invoke_inv Exit exit n ctx st)
        as (e & s1 & Hi & Ht & Hkind & Hnode & Hw & Hstop & _).
      rewrite Hi in H. rewrite Hs1 in Hstop. simpl in Hstop.
      assert (Hp : invokedOnPresentNode e).
      { unfold invokedOnPresentNode. by rewrite Hnode, Hw. }
      destruct (skipped s1) eqn:Hsk, (stopped s1) eqn:Hst;
        inversion H; subst.
      * eapply (traversed_stop id _ _ e);
          [exact Ht|exact Hp|done|congruence|by rewrite Hsk|congruence].
      * eapply traversed_step; [exact Ht|by constructor| |].
        { constructor; [congruence|constructor]. }
        by apply traversed_refl.
      * eapply (traversed_stop id _ _ e);
          [exact Ht|exact Hp|done|congruence|by rewrite Hsk|congruence].
      * eapply traversed_step; [exact Ht|by constructor| |].
        { constructor; [congruence|constructor]. }
        by apply traversed_refl.
    + unfold ret in H. rewrite Hs1 in H.
      destruct (skipped st); inversion H; subst; by apply traversed_refl.
  - unfold ret in H. rewrite Hs1 in H.
    destruct (skipped st); inversion H; subst; by apply traversed_refl.
Qed.

Lemma walk_traversed fuel : walk_ok (walk visit getChildren fuel).
Proof.
  induction fuel as [|fuel IH]; intros n ctx st r st' Hst H.
  - simpl in H. inversion H; subst. by apply traversed_refl.
  - simpl in H. unfold bind, get in H. simpl in H.
    destruct (hasNode (world st).1 n) eqn:Hn; simpl in H.
    2:{ inversion H; subst. by apply traversed_refl. }
    unfold modify in H. simpl in H.
    set (st0 := mkDfsState _ _ _ _ _) in H.
    assert (Hrest : forall ctx1 (st1 : St),
      stopped st1 = false ->
      (children <- (fun st => (getChildren (world st) n, st)) ;;
       r <- walkChildren (walk visit getChildren fuel) children ctx1 ;;
       match r with
       | Some result => ret result
       | None => leave visit n ctx1
       end)%js st1 = (r, st') ->
      traversed id st1 r st').
    { intros ctx1 st1 Hs1 H1. unfold bind in H1.
      destruct (getChildren (world st1) n) as [children| |].
      2,3: inversion H1; subst; by apply traversed_refl.
      destruct (walkChildren _ children ctx1 st1) as [r2 s2] eqn:Hc.
      apply walkChildren_traversed in Hc; [|exact IH|done].
      destruct Hc as [Hc Hno].
      destruct (stopped s2) eqn:Hs2.
      - destruct Hc as (evs & Ht & Hp & Hs & Hr).
        destruct (Hr Hs2) as (e & Hl & -> & Hk).
        inversion H1; subst.
        exists evs. repeat split; auto. intros _. exists e. by split.
      - specialize (Hno eq_refl).
        destruct Hc as (evs & Ht & Hp & Hs & _). rewrite Hs2 in Hs.
        destruct r2 as [[result|]| |].
        + by destruct (Hno result).
        + eapply traversed_step; [exact Ht|done|done|].
          eapply leave_traversed; eauto.
        + inversion H1; subst. eapply traversed_step; [exact Ht|done|done|].
          by apply traversed_refl.
        + inversion H1; subst. eapply traversed_step; [exact Ht|done|done|].
          by apply traversed_refl. }
    destruct (enterOf visit) as [enter|].
    + destruct (invoke_inv Enter enter n ctx st0)
        as (e & s1 & Hi & Ht & _ & Hnode & Hw & Hstop & Hskip & _).
      rewrite Hi in H. simpl in Hstop, Hskip, Hw. rewrite Hst in Hstop. simpl in Hstop.
      assert (Hp : invokedOnPresentNode e).
      { unfold invokedOnPresentNode. by rewrite Hnode, Hw. }
      destruct (skipped s1) eqn:Hsk, (stopped s1) eqn:Hs1.
      * inversion H; subst.
        eapply (traversed_stop id st _ e);
          [exact Ht|exact Hp|done|congruence|by rewrite Hsk|intros _; congruence].
      * inversion H; subst. eapply (traversed_step id st); [exact Ht|by constructor| |].
        { constructor; [congruence|constructor]. }
        by apply traversed_refl.
      * inversion H; subst.
        eapply (traversed_stop id st _ e);
          [exact Ht|exact Hp|done|congruence|by rewrite Hsk|intros _; congruence].
      * eapply (traversed_step id st); [exact Ht|by constructor| |].
        { constructor; [congruence|constructor]. }
        eapply Hrest; [done|]. exact H.
    + unfold ret in H. simpl in H. rewrite Hst in H.
      eapply (traversed_step id st st0 _ _ []); [by rewrite app_nil_r|constructor|constructor|].
      eapply Hrest; [done|]. exact H.
Qed.

(** The whole of a [dfs] call, from the empty trace. *)
Lemma dfs_run_traversed fuel start w r (st : St) :
  dfs_run visit getChildren fuel start w = (r, st) ->
  traversed id (mkDfsState [] false false w []) r st.
Proof.
  unfold dfs_run. intros H.
  destruct (match start with Some n => Some n | None => rootNodeId w.1 end) as [n|].
  - destruct (hasNode w.1 n).
    + by apply walk_traversed in H.
    + inversion H; subst. by apply traversed_refl.
  - inversion H; subst. by apply traversed_refl.
Qed.

(** Walking a node that is not in the graph does nothing at all. *)
Lemma walk_absent fuel n ctx (st : St) :
  hasNode (world st).1 n = false ->
  walk visit getChildren (Datatypes.S fuel) n ctx st = (Ok None, st).
Proof.
  intros Hn. simpl. unfold bind, get. simpl. by rewrite Hn.
Qed.

End DfsFacts.

(** C10: [dfs] never invokes a callback for a node that is not in the graph
    at that moment.  In particular the [exit] of a node removed after its
    [enter] is not invoked, and walking a node that is no longer present
    returns at once, without entering it and without touching the traversal
    state. *)
Theorem dfs_never_calls_back_for_an_absent_node {TNode S C : Type}
    (visit : @Graph.GraphVisitor TNode S C)
    (getChildren : Graph.t TNode * S -> nat -> outcome (list nat))
    (fuel : nat) (start : option nat) (w : Graph.t TNode * S) :
  (forall e, e ∈ Graph.trace (Graph.dfs_run visit getChildren fuel start w).2 ->
             Graph.hasNode (Graph.ev_world e).1 (Graph.ev_node e) = true)
  /\ (forall n ctx (st : @Graph.DfsState TNode S C),
        Graph.hasNode (Graph.world st).1 n = false ->
        Graph.walk visit getChildren (Datatypes.S fuel) n ctx st = (Ok None, st)).
Proof.
  split.
  - intros e He.
    destruct (Graph.dfs_run visit getChildren fuel start w) as [r st] eqn:Hrun.
    apply dfs_run_traversed in Hrun. destruct Hrun as (evs & Ht & Hp & _).
    simpl in *. subst evs. rewrite Forall_forall in Hp. by apply Hp.
  - intros n ctx st Hn. by apply walk_absent.
Qed.

(** On the chain, the [enter] of node [1] removes the start node [0]: the
    callbacks that run are the [enter] of [0], [1] and [2] and the [exit] of
    [2] and [1]; there is no [exit] for [0]. *)
Lemma dfs_never_calls_back_for_an_absent_node_witness :
  let run := Graph.dfs_run DfsExamples.removesStart DfsExamples.forward 5 None
               (Examples.chain, tt) in
  (fun e => (Graph.ev_kind e, Graph.ev_node e)) <$> Graph.trace run.2
    = [(Graph.Enter, 0); (Graph.Enter, 1); (Graph.Enter, 2); (Graph.Exit, 2); (Graph.Exit, 1)]
  /\ (forall e, e ∈ Graph.trace run.2 ->
                 Graph.hasNode (Graph.ev_world e).1 (Graph.ev_node e) = true)
  /\ Graph.walk DfsExamples.removesStart DfsExamples.forward 6 0 None run.2 = (Ok None, run.2).
Proof.
  intros run.
  destruct (dfs_never_calls_back_for_an_absent_node DfsExamples.removesStart
              DfsExamples.forward 5 None (Examples.chain, tt)) as [Hpresent Habsent].
  split; [vm_compute; reflexivity|].
  split; [exact Hpresent|].
  apply Habsent. vm_compute. reflexivity.
Defined.

(** ** Graph.removeEdge and orphan pruning *)

Section RemoveEdgeFacts.
Import Graph.
Context {TNode : Type}.

Lemma removeEdge_missing fuel (g : Graph.t TNode) from to type removeOrphans :
  hasEdge g from to type = false ->
  removeEdge (Datatypes.S fuel) from to type removeOrphans g = (Throw "Edge not found!", g).
Proof.
  intros H. unfold hasEdge in H. simpl. unfold bind, get. simpl. by rewrite H.
Qed.

(** Without orphan pruning the edge is unlinked and nothing else happens. *)
Lemma removeEdge_keep_orphans fuel (g : Graph.t TNode) from to type :
  hasEdge g from to type = true ->
  removeEdge (Datatypes.S fuel) from to type false g = (Ok tt, unlink g from to type).
Proof.
  intros H. unfold hasEdge in H. simpl. unfold bind, get. simpl. by rewrite H.
Qed.

(** A target that is not orphaned once the edge is gone stays. *)
Lemma removeEdge_not_orphaned fuel (g : Graph.t TNode) from to type :
  hasEdge g from to type = true ->
  isOrphanedNode fuel (unlink g from to type) to = Ok false ->
  removeEdge (Datatypes.S fuel) from to type true g = (Ok tt, unlink g from to type).
Proof.
  intros H Ho. unfold hasEdge in H. simpl. unfold bind, get, modify. simpl.
  rewrite H. simpl. unfold unlink in Ho. by rewrite Ho.
Qed.
End RemoveEdgeFacts.

(** Scenario 4 of the spec: on the chain [0 -> 1 -> 2] rooted at [0],
    removing the edge [0 -> 1] prunes [1] and then [2]. *)
Lemma removeEdge_prunes_a_chain :
  let run := Graph.removeEdge 20 0 1 1 true Examples.chain in
  run.1 = Ok tt
  /\ map_to_list (Graph.nodes run.2) = [(0, tt)]
  /\ Graph.adjacencyList run.2 = [].
Proof. vm_compute. repeat split; reflexivity. Qed.

(** C5: on the diamond [0 -> 1], [1 -> 2], [1 -> 3], [2 -> 3] rooted at [0],
    [removeEdge(0, 1)] unlinks the edge and finds [1] orphaned, but the
    removal of [1] walks a snapshot of its outgoing edges: pruning [2]
    already removed [3] together with the edge [1 -> 3], and the second
    [removeEdge] of the snapshot throws.  The call ends in that exception
    with [1] still in the graph, although no edge is left and
    [isOrphanedNode(1)] answers [true]. *)
Theorem removeEdge_throws_while_pruning_a_diamond :
  let run := Graph.removeEdge 20 0 1 1 true Examples.diamond in
  run.1 = Throw "Edge not found!"
  /\ Graph.hasNode run.2 1 = true
  /\ Graph.adjacencyList run.2 = []
  /\ Graph.isOrphanedNode 20 run.2 1 = Ok true.
Proof. vm_compute. repeat split; reflexivity. Qed.

(** ** Rules for the effect logic *)

Section LogicFacts.
Context {St : Type}.
Implicit Types s : St.

Lemma readonly_ret {A} (a : A) : readonly (@ret St A a).
Proof. by intros s. Qed.

Lemma readonly_throw {A} msg : readonly (@throw St A msg).
Proof. by intros s. Qed.

Lemma readonly_timeout {A} : readonly (@timeout St A).
Proof. by intros s. Qed.

Lemma readonly_get : readonly (@get St).
Proof. by intros s. Qed.

Lemma readonly_nullthrows {A} (x : option A) msg : readonly (@nullthrows St A x msg).
Proof. intros s. by destruct x. Qed.

Lemma readonly_invariant b : readonly (@invariant St b).
Proof. intros s. by destruct b. Qed.

Lemma readonly_bind {A B} (m : M St A) (k : A -> M St B) :
  readonly m -> (forall a, readonly (k a)) -> readonly (bind m k).
Proof.
  intros Hm Hk s. unfold bind. specialize (Hm s).
  destruct (m s) as [[a| |] s1]; simpl in *; subst; auto. apply Hk.
Qed.

Lemma readonly_mapM {A B} (f : A -> M St B) (xs : list A) :
  (forall x, readonly (f x)) -> readonly (mapM f xs).
Proof.
  intros Hf. induction xs as [|x xs IH]; simpl.
  - apply readonly_ret.
  - apply readonly_bind; [apply Hf|]. intros y.
    apply readonly_bind; [apply IH|]. intros ys. apply readonly_ret.
Qed.

Lemma readonly_foldM {A B} (f : B -> A -> M St B) (xs : list A) (b : B) :
  (forall b x, readonly (f b x)) -> readonly (SymbolPropagation.foldM f xs b).
Proof.
  intros Hf. revert b. induction xs as [|x xs IH]; intros b; simpl.
  - apply readonly_ret.
  - apply readonly_bind; [apply Hf|]. apply IH.
Qed.

Lemma readonly_setPop {A} (set : list A) : readonly (@SymbolPropagation.setPop St A set).
Proof. intros s. by destruct set. Qed.

Section Preserves.
Context (R : relation St) `{!PreOrder R}.

Lemma preserves_readonly {A} (m : M St A) : readonly m -> preserves R m.
Proof. intros H s. rewrite H. reflexivity. Qed.

Lemma preserves_bind {A B} (m : M St A) (k : A -> M St B) :
  preserves R m -> (forall a, preserves R (k a)) -> preserves R (bind m k).
Proof.
  intros Hm Hk s. unfold bind. specialize (Hm s).
  destruct (m s) as [[a| |] s1]; simpl in *; auto.
  etrans; [exact Hm|apply Hk].
Qed.

Lemma preserves_modify (f : St -> St) : (forall s, R s (f s)) -> preserves R (modify f).
Proof. intros H s. apply H. Qed.

Lemma preserves_forEach {A} (xs : list A) (body : A -> M St unit) :
  (forall x, preserves R (body x)) -> preserves R (forEach xs body).
Proof.
  intros Hb. induction xs as [|x xs IH]; simpl.
  - by apply preserves_readonly, readonly_ret.
  - apply preserves_bind; [apply Hb|]. intros _. apply IH.
Qed.

Lemma preserves_foldM {A B} (f : B -> A -> M St B) (xs : list A) (b : B) :
  (forall b x, preserves R (f b x)) -> preserves R (SymbolPropagation.foldM f xs b).
Proof.
  intros Hf. revert b. induction xs as [|x xs IH]; intros b; simpl.
  - by apply preserves_readonly, readonly_ret.
  - apply preserves_bind; [apply Hf|]. apply IH.
Qed.

Lemma preserves_mapM {A B} (f : A -> M St B) (xs : list A) :
  (forall x, preserves R (f x)) -> preserves R (mapM f xs).
Proof.
  intros Hf. induction xs as [|x xs IH]; simpl.
  - by apply preserves_readonly, readonly_ret.
  - apply preserves_bind; [apply Hf|]. intros y.
    apply preserves_bind; [apply IH|]. intros ys.
    by apply preserves_readonly, readonly_ret.
Qed.
End Preserves.

(** *** Weakest preconditions *)

Lemma wp_ret {A} (a : A) (Q : A -> St -> Prop) E s : Q a s -> wp (ret a) Q E s.
Proof. done. Qed.

Lemma wp_throw {A} msg (Q : A -> St -> Prop) (E : St -> Prop) s : E s -> wp (throw msg) Q E s.
Proof. done. Qed.

Lemma wp_timeout {A} (Q : A -> St -> Prop) (E : St -> Prop) s : E s -> wp timeout Q E s.
Proof. done. Qed.

Lemma wp_get (Q : St -> St -> Prop) E s : Q s s -> wp get Q E s.
Proof. done. Qed.

Lemma wp_modify (f : St -> St) (Q : unit -> St -> Prop) E s : Q tt (f s) -> wp (modify f) Q E s.
Proof. done. Qed.

Lemma wp_bind {A B} (m : M St A) (k : A -> M St B) (Q : B -> St -> Prop) E s :
  wp m (fun a s1 => wp (k a) Q E s1) E s -> wp (bind m k) Q E s.
Proof.
  unfold wp, bind. by destruct (m s) as [[a| |] s1].
Qed.

Lemma wp_mono {A} (m : M St A) (Q Q' : A -> St -> Prop) (E E' : St -> Prop) s :
  wp m Q E s -> (forall a s', Q a s' -> Q' a s') -> (forall s', E s' -> E' s') ->
  wp m Q' E' s.
Proof.
  unfold wp. destruct (m s) as [[a| |] s1]; auto.
Qed.

(** Nothing is known about the computation. *)
Lemma wp_any {A} (m : M St A) (Q : A -> St -> Prop) (E : St -> Prop) s :
  (forall a s', Q a s') -> (forall s', E s') -> wp m Q E s.
Proof. intros HQ HE. unfold wp. by destruct (m s) as [[a| |] s']. Qed.

(** A computation that only reads: its value is whatever it returns in the
    unchanged state. *)
Lemma wp_readonly {A} (m : M St A) (Q : A -> St -> Prop) (E : St -> Prop) s :
  readonly m -> (forall a, m s = (Ok a, s) -> Q a s) -> E s -> wp m Q E s.
Proof.
  intros Hr HQ HE. unfold wp. specialize (Hr s).
  destruct (m s) as [[a| |] s1] eqn:Hm; simpl in Hr; subst; auto.
Qed.

(** A computation known only through a relation it preserves. *)
Lemma wp_preserves {A} (R : relation St) (m : M St A) (Q : A -> St -> Prop)
    (E : St -> Prop) s :
  preserves R m -> (forall a s', R s s' -> Q a s') -> (forall s', R s s' -> E s') ->
  wp m Q E s.
Proof.
  intros Hp HQ HE. unfold wp. specialize (Hp s).
  destruct (m s) as [[a| |] s1]; simpl in Hp; auto.
Qed.

Lemma wp_forEach {A} (Inv : St -> Prop) (xs : list A) (body : A -> M St unit)
    (Q : unit -> St -> Prop) (E : St -> Prop) s :
  Inv s ->
  (forall x s1, x ∈ xs -> Inv s1 -> wp (body x) (fun _ => Inv) E s1) ->
  (forall s', Inv s' -> Q tt s') ->
  wp (forEach xs body) Q E s.
Proof.
  revert s. induction xs as [|x xs IH]; intros s HI Hb HQ; simpl.
  - apply wp_ret. by apply HQ.
  - apply wp_bind. eapply wp_mono; [apply Hb; [left|exact HI]| |auto].
    intros u s1 HI1. simpl in HI1.
    apply IH; [exact HI1|intros y s2 Hy; apply Hb; by right|exact HQ].
Qed.

Lemma wp_foldM {A B} (Inv : B -> St -> Prop) (f : B -> A -> M St B) (xs : list A) (b : B)
    (Q : B -> St -> Prop) (E : St -> Prop) s :
  Inv b s ->
  (forall b1 x s1, x ∈ xs -> Inv b1 s1 -> wp (f b1 x) Inv E s1) ->
  (forall b' s', Inv b' s' -> Q b' s') ->
  wp (SymbolPropagation.foldM f xs b) Q E s.
Proof.
  revert b s. induction xs as [|x xs IH]; intros b s HI Hb HQ; simpl.
  - apply wp_ret. by apply HQ.
  - apply wp_bind. eapply wp_mono; [apply Hb; [left|exact HI]| |auto].
    intros b1 s1 HI1.
    apply IH; [exact HI1|intros b2 y s2 Hy; apply Hb; by right|exact HQ].
Qed.

Lemma wp_elim {A} (m : M St A) (Q : A -> St -> Prop) (E : St -> Prop) s r s' :
  wp m Q E s -> m s = (r, s') ->
  match r with Ok a => Q a s' | _ => E s' end.
Proof. unfold wp. intros H Hm. rewrite Hm in H. by destruct r. Qed.

End LogicFacts.

(** Steps through the structure of a computation that only reads. *)
Ltac readonly_step :=
  lazymatch goal with
  | |- readonly (bind _ _) => apply readonly_bind; [|intros ?]
  | |- readonly (ret _) => apply readonly_ret
  | |- readonly (throw _) => apply readonly_throw
  | |- readonly timeout => apply readonly_timeout
  | |- readonly get => apply readonly_get
  | |- readonly (nullthrows _ _) => apply readonly_nullthrows
  | |- readonly (invariant _) => apply readonly_invariant
  | |- readonly (mapM _ _) => apply readonly_mapM; intros ?
  | |- readonly (SymbolPropagation.foldM _ _ _) => apply readonly_foldM; intros ? ?
  | |- readonly (SymbolPropagation.setPop _) => apply readonly_setPop
  | |- readonly (match ?x with _ => _ end) => destruct x
  end.

(** ** Symbol propagation: what is read and what is written *)

Section ReadOnlyFacts.
Import SymbolPropagation.

Lemma readonly_derefAsset id : readonly (derefAsset id).
Proof. intros s. unfold derefAsset. by repeat case_match. Qed.

Lemma readonly_derefDependency id : readonly (derefDependency id).
Proof. intros s. unfold derefDependency. by repeat case_match. Qed.

Lemma readonly_getNodeOrThrow id : readonly (getNodeOrThrow id).
Proof. intros s. unfold getNodeOrThrow. apply readonly_nullthrows. Qed.

Lemma readonly_getNodeIdsConnectedFrom id : readonly (getNodeIdsConnectedFrom id).
Proof. by intros s. Qed.

Lemma readonly_getNodeIdsConnectedTo id : readonly (getNodeIdsConnectedTo id).
Proof. by intros s. Qed.

Lemma readonly_getNodeIdByContentKey key : readonly (getNodeIdByContentKey key).
Proof. intros s. unfold getNodeIdByContentKey. apply readonly_nullthrows. Qed.

Lemma readonly_getDependencyByContentKey key : readonly (getDependencyByContentKey key).
Proof. intros s. unfold getDependencyByContentKey. by repeat case_match. Qed.

Lemma readonly_getDependencyById id : readonly (getDependencyById id).
Proof.
  unfold getDependencyById. repeat readonly_step.
  apply readonly_getNodeOrThrow.
Qed.

Lemma readonly_incomingDependencies gid value : readonly (incomingDependencies gid value).
Proof.
  unfold incomingDependencies. repeat readonly_step.
  apply readonly_getDependencyByContentKey.
Qed.

Lemma readonly_getDependencyResolution depId : readonly (getDependencyResolution depId).
Proof.
  unfold getDependencyResolution.
  repeat first [readonly_step
               | apply readonly_getNodeIdByContentKey
               | apply readonly_getNodeIdsConnectedFrom
               | apply readonly_getNodeOrThrow ].
Qed.
End ReadOnlyFacts.

Create HintDb readonly_db.

#[global] Hint Resolve readonly_derefAsset readonly_derefDependency readonly_getNodeOrThrow
  readonly_getNodeIdsConnectedFrom readonly_getNodeIdsConnectedTo
  readonly_getNodeIdByContentKey readonly_getDependencyByContentKey
  readonly_getDependencyById readonly_incomingDependencies
  readonly_getDependencyResolution readonly_ret readonly_throw readonly_timeout
  readonly_get readonly_nullthrows readonly_invariant readonly_setPop : readonly_db.

(** Classifies a field write. *)
Ltac write_kind :=
  let n := fresh "n" in
  intros n; destruct n; simpl; eauto 10.

Section PreservedByPropagation.
Import SymbolPropagation PropagationSpec.
Variable options : ParcelOptions.
Variable flagTables : FlagTables.
Variable getIncomingDependencies : AssetGraph -> nat -> list string.
Variable runFullPassHeuristic : AssetGraph -> nat -> bool.

(** Any preorder on states that admits the primitive writes is preserved
    by the visitors and by the passes. *)
Context (R : relation PState) `{!PreOrder R}.
Hypothesis R_flags : forall id f, writesFlags f -> preserves R (mutate id f).

Ltac pres_leaf tac :=
  first
    [ apply preserves_readonly; [typeclasses eauto|solve [auto with readonly_db]]
    | apply R_flags; solve [write_kind]
    | tac ].

Ltac pres_step tac :=
  lazymatch goal with
  | |- preserves _ (bind _ _) => apply preserves_bind; [typeclasses eauto| |intros ?]
  | |- preserves _ (forEach _ _) => apply preserves_forEach; [typeclasses eauto|intros ?]
  | |- preserves _ (foldM _ _ _) => apply preserves_foldM; [typeclasses eauto|intros ? ?]
  | |- preserves _ (mapM _ _) => apply preserves_mapM; [typeclasses eauto|intros ?]
  | |- preserves _ (let _ := _ in _) => cbv zeta
  | |- preserves _ (match ?x with _ => _ end) => destruct x
  | |- _ => pres_leaf tac
  end.

Section Visitors.
Hypothesis R_usedSymbols :
  forall id f, writesUsedSymbols f -> preserves R (mutate id f).
Hypothesis R_usedSymbolsDown :
  forall id f, writesUsedSymbolsDown f -> preserves R (mutate id f).
Hypothesis R_usedSymbolsUp :
  forall id f, writesUsedSymbolsUp f -> preserves R (mutate id f).
Hypothesis R_changedDeps : forall d, preserves R (addChangedDeps d).
Hypothesis R_changedDown : forall k, preserves R (addChangedDepsUsedSymbolsUpDirtyDown k).
Hypothesis R_warn : forall msg, preserves R (loggerWarn msg).

Ltac visitor_leaf :=
  first
    [ apply R_usedSymbols; solve [write_kind]
    | apply R_usedSymbolsDown; solve [write_kind]
    | apply R_usedSymbolsUp; solve [write_kind]
    | apply R_changedDeps
    | apply R_changedDown
    | apply R_warn ].

Ltac pres := repeat (pres_step visitor_leaf).

Lemma addUsedSymbol_preserves a sym : preserves R (addUsedSymbol a sym).
Proof. unfold addUsedSymbol. pres. Qed.

Lemma deleteUsedSymbol_preserves a sym : preserves R (deleteUsedSymbol a sym).
Proof. unfold deleteUsedSymbol. pres. Qed.

Lemma addUsedSymbolDown_preserves d sym : preserves R (addUsedSymbolDown d sym).
Proof. unfold addUsedSymbolDown. pres. Qed.

Lemma setUsedSymbolUp_preserves d sym v : preserves R (setUsedSymbolUp d sym v).
Proof. unfold setUsedSymbolUp. pres. Qed.

Ltac pres_step' :=
  lazymatch goal with
  | |- preserves _ (addUsedSymbol _ _) => apply addUsedSymbol_preserves
  | |- preserves _ (deleteUsedSymbol _ _) => apply deleteUsedSymbol_preserves
  | |- preserves _ (addUsedSymbolDown _ _) => apply addUsedSymbolDown_preserves
  | |- preserves _ (setUsedSymbolUp _ _ _) => apply setUsedSymbolUp_preserves
  | |- _ => pres_step visitor_leaf
  end.

Ltac pres' := repeat pres_step'.

Lemma requestSymbol_preserves a assetSymbols hasNs nrs sym :
  preserves R (requestSymbol options a assetSymbols hasNs nrs sym).
Proof. unfold requestSymbol. pres'. Qed.

Lemma determineRequested_preserves a assetSymbols hasNs incoming :
  preserves R (determineRequested options flagTables a assetSymbols hasNs incoming).
Proof.
  unfold determineRequested. pres'; apply requestSymbol_preserves.
Qed.

Lemma distributeSymbol_preserves a dep inverse sym :
  preserves R (distributeSymbol options flagTables a dep inverse sym).
Proof. unfold distributeSymbol. pres'. Qed.

Lemma distributeToDependency_preserves a asset inverse req dep :
  preserves R (distributeToDependency options flagTables a asset inverse req dep).
Proof.
  unfold distributeToDependency. pres'; apply distributeSymbol_preserves.
Qed.

Lemma downVisitor_preserves a incoming outgoing :
  preserves R (downVisitor options flagTables a incoming outgoing).
Proof.
  unfold downVisitor. pres'.
  - apply determineRequested_preserves.
  - apply distributeToDependency_preserves.
Qed.

Lemma readonly_missingExport incomingDep depNode sym :
  readonly (missingExport options incomingDep depNode sym).
Proof.
  unfold missingExport.
  repeat first [readonly_step | solve [auto with readonly_db]].
Qed.

Lemma logFallbackNamespaceInsertion_preserves a sym d1 d2 :
  preserves R (logFallbackNamespaceInsertion options a sym d1 d2).
Proof. unfold logFallbackNamespaceInsertion. pres'. Qed.

Lemma recordReexport_preserves a dep rx sym sResolved :
  preserves R (recordReexport options a dep rx sym sResolved).
Proof.
  unfold recordReexport. pres'. apply logFallbackNamespaceInsertion_preserves.
Qed.

Lemma collectReexports_preserves a inverse rx dep :
  preserves R (collectReexports options a inverse rx dep).
Proof.
  unfold collectReexports. pres'; apply recordReexport_preserves.
Qed.

Lemma usedSymbolsUpAmbiguous_preserves old dep sym value :
  preserves R (usedSymbolsUpAmbiguous old dep sym value).
Proof. unfold usedSymbolsUpAmbiguous. pres'. Qed.

Lemma resolveSymbol_preserves a asset rx dep depNode old hasNs errs sym :
  preserves R (resolveSymbol options flagTables a asset rx dep depNode old hasNs errs sym).
Proof.
  unfold resolveSymbol. pres';
    first [apply usedSymbolsUpAmbiguous_preserves
          | apply preserves_readonly; [typeclasses eauto|apply readonly_missingExport]].
Qed.

Lemma resolveIncoming_preserves a asset rx errs dep :
  preserves R (resolveIncoming options flagTables a asset rx errs dep).
Proof.
  unfold resolveIncoming. pres'; apply resolveSymbol_preserves.
Qed.

Lemma upVisitor_preserves a incoming outgoing :
  preserves R (upVisitor options flagTables a incoming outgoing).
Proof.
  unfold upVisitor. pres'.
  - apply collectReexports_preserves.
  - apply resolveIncoming_preserves.
Qed.

Lemma sortChangedDeps_preserves : preserves R sortChangedDeps.
Proof. unfold sortChangedDeps. pres'. Qed.
End Visitors.

(** *** The passes, for any visitor that preserves the relation *)

Ltac pass := repeat (pres_step fail).

Lemma markChild_preserves wasNodeDirty queue child :
  preserves R (markChild wasNodeDirty queue child).
Proof. unfold markChild. pass. Qed.

Lemma pullDirtyDown_preserves nodeId incoming :
  preserves R (pullDirtyDown nodeId incoming).
Proof. unfold pullDirtyDown. pass. Qed.

Lemma pullDirtyUp_preserves nodeId child :
  preserves R (pullDirtyUp nodeId child).
Proof. unfold pullDirtyUp. pass. Qed.

Section DownPass.
Variable visitDown : nat -> list nat -> list nat -> M PState unit.
Hypothesis visitDown_preserves : forall a i o, preserves R (visitDown a i o).
Hypothesis R_recordDown :
  forall a i o, preserves R (recordVisit (mkVisit Down a i o [])).

Lemma propagateSymbolsDown_loop_preserves fuel :
  forall queue unreached,
    preserves R (propagateSymbolsDown_loop getIncomingDependencies visitDown fuel
                   queue unreached).
Proof.
  induction fuel as [|fuel IH]; intros queue unreached; simpl.
  - pass.
  - pass; first [apply markChild_preserves | apply visitDown_preserves
                | apply R_recordDown | apply IH].
Qed.

Lemma propagateSymbolsDown_preserves fuel changedAssets groups :
  preserves R (propagateSymbolsDown getIncomingDependencies visitDown fuel
                 changedAssets groups).
Proof.
  unfold propagateSymbolsDown. pass; apply propagateSymbolsDown_loop_preserves.
Qed.
End DownPass.

Section UpPass.
Variable visitUp : nat -> list nat -> list nat -> M PState (list Diagnostic).
Hypothesis visitAndStore_preserves :
  forall nodeId incoming outgoing, preserves R (visitAndStore visitUp nodeId incoming outgoing).

Lemma walk_preserves fuel :
  forall nodeId locals,
    preserves R (walk getIncomingDependencies visitUp fuel nodeId locals).
Proof.
  induction fuel as [|fuel IH]; intros nodeId locals; simpl.
  - pass.
  - pass; first [apply IH | apply pullDirtyUp_preserves | apply pullDirtyDown_preserves
                | apply visitAndStore_preserves].
Qed.

Lemma propagateSymbolsUp_loop_preserves fuel :
  forall queue,
    preserves R (propagateSymbolsUp_loop getIncomingDependencies visitUp fuel queue).
Proof.
  induction fuel as [|fuel IH]; intros queue; simpl.
  - pass.
  - pass; first [apply IH | apply pullDirtyUp_preserves | apply pullDirtyDown_preserves
                | apply visitAndStore_preserves].
Qed.

Lemma propagateSymbolsUp_passes_preserves fuel g changedAssets changedDown :
  preserves R
    (propagateSymbolsUp_passes getIncomingDependencies runFullPassHeuristic visitUp
       fuel g changedAssets changedDown).
Proof.
  unfold propagateSymbolsUp_passes.
  pass; first [apply walk_preserves | apply propagateSymbolsUp_loop_preserves].
Qed.

Hypothesis R_errors : forall f, preserves R (writeErrors f).

Lemma propagateSymbolsUp_preserves fuel changedAssets changedDown previousErrors :
  preserves R (propagateSymbolsUp getIncomingDependencies runFullPassHeuristic visitUp
                 fuel changedAssets changedDown previousErrors).
Proof.
  unfold propagateSymbolsUp.
  pass; first [apply R_errors | apply propagateSymbolsUp_passes_preserves].
Qed.
End UpPass.

(** *** The whole propagation, for a relation every write preserves *)

Section Whole.
Hypothesis R_usedSymbols :
  forall id f, writesUsedSymbols f -> preserves R (mutate id f).
Hypothesis R_usedSymbolsDown :
  forall id f, writesUsedSymbolsDown f -> preserves R (mutate id f).
Hypothesis R_usedSymbolsUp :
  forall id f, writesUsedSymbolsUp f -> preserves R (mutate id f).
Hypothesis R_changedDeps : forall d, preserves R (addChangedDeps d).
Hypothesis R_changedDown : forall k, preserves R (addChangedDepsUsedSymbolsUpDirtyDown k).
Hypothesis R_warn : forall msg, preserves R (loggerWarn msg).
Hypothesis R_record : forall v, preserves R (recordVisit v).
Hypothesis R_errors : forall f, preserves R (writeErrors f).

Lemma visitAndStore_preserves
    (visitUp : nat -> list nat -> list nat -> M PState (list Diagnostic)) :
  (forall a i o, preserves R (visitUp a i o)) ->
  forall nodeId incoming outgoing,
    preserves R (visitAndStore visitUp nodeId incoming outgoing).
Proof.
  intros Hv nodeId incoming outgoing. unfold visitAndStore.
  pass; first [apply Hv | apply R_record | apply R_errors].
Qed.

Lemma propagateSymbols_body_preserves fuel changed groups previousErrors :
  preserves R (propagateSymbols_body options flagTables getIncomingDependencies
                 runFullPassHeuristic fuel changed groups previousErrors).
Proof.
  unfold propagateSymbols_body. pass.
  - apply propagateSymbolsDown_preserves; [by apply downVisitor_preserves|].
    intros. apply R_record.
  - apply propagateSymbolsUp_preserves; [|exact R_errors].
    apply visitAndStore_preserves. by apply upVisitor_preserves.
  - by apply sortChangedDeps_preserves.
Qed.
End Whole.

End PreservedByPropagation.

(** ** The frame of a propagation *)

Section FrameFacts.
Import SymbolPropagation PropagationSpec.

Lemma sameIdentity_refl n : sameIdentity n n.
Proof. destruct n; simpl; auto. Qed.

Lemma sameIdentity_trans n1 n2 n3 :
  sameIdentity n1 n2 -> sameIdentity n2 n3 -> sameIdentity n1 n3.
Proof.
  destruct n1, n2, n3; simpl; try tauto; intuition congruence.
Qed.

Lemma sameFrame_refl g : sameFrame g g.
Proof.
  split; try reflexivity. intros id.
  destruct (Graph.nodes (graph g) !! id); [apply sameIdentity_refl|done].
Qed.

Lemma sameFrame_trans g1 g2 g3 : sameFrame g1 g2 -> sameFrame g2 g3 -> sameFrame g1 g3.
Proof.
  intros [He1 Hr1 Hn1 Hk1 Hnodes1] [He2 Hr2 Hn2 Hk2 Hnodes2].
  split; try congruence. intros id.
  specialize (Hnodes1 id). specialize (Hnodes2 id).
  destruct (Graph.nodes (graph g1) !! id), (Graph.nodes (graph g2) !! id),
    (Graph.nodes (graph g3) !! id); try done.
  by eapply sameIdentity_trans.
Qed.

#[global] Instance frameOf_preorder : PreOrder frameOf.
Proof.
  split.
  - intros s. apply sameFrame_refl.
  - intros s1 s2 s3. apply sameFrame_trans.
Qed.

Lemma frameOf_mutate id f :
  (forall n, sameIdentity n (f n)) -> preserves frameOf (mutate id f).
Proof.
  intros Hf s. unfold mutate, modify, frameOf. simpl.
  split; try reflexivity. intros j. simpl.
  rewrite lookup_alter. case_decide.
  - subst j. destruct (Graph.nodes (graph (assetGraph s)) !! id); simpl; [apply Hf|done].
  - destruct (Graph.nodes (graph (assetGraph s)) !! j); [apply sameIdentity_refl|done].
Qed.

Lemma frameOf_sameGraph (f : PState -> PState) :
  (forall s, assetGraph (f s) = assetGraph s) -> preserves frameOf (modify f).
Proof.
  intros Hf s. unfold modify, frameOf. simpl. rewrite Hf. apply sameFrame_refl.
Qed.

(** The same node ids are in use on both sides of a frame. *)
Lemma sameFrame_hasNode g g' id :
  sameFrame g g' -> Graph.hasNode (graph g') id = Graph.hasNode (graph g) id.
Proof.
  intros H. pose proof (frame_nodes _ _ H id) as Hn. unfold Graph.hasNode.
  destruct (Graph.nodes (graph g) !! id), (Graph.nodes (graph g') !! id); try done.
Qed.

Variable options : ParcelOptions.
Variable flagTables : FlagTables.
Variable getIncomingDependencies : AssetGraph -> nat -> list string.
Variable runFullPassHeuristic : AssetGraph -> nat -> bool.

Lemma sameSymbols_sameIdentity n n' : sameSymbols n n' -> sameIdentity n n'.
Proof. destruct n, n'; simpl; tauto. Qed.

Lemma writesFlags_sameIdentity f : writesFlags f -> forall n, sameIdentity n (f n).
Proof. intros H n. apply sameSymbols_sameIdentity, H. Qed.

Lemma writesUsedSymbols_sameIdentity f :
  writesUsedSymbols f -> forall n, sameIdentity n (f n).
Proof.
  intros H n. specialize (H n). destruct n; try (rewrite H; apply sameIdentity_refl).
  destruct H as [v ->]. by simpl.
Qed.

Lemma writesUsedSymbolsDown_sameIdentity f :
  writesUsedSymbolsDown f -> forall n, sameIdentity n (f n).
Proof.
  intros H n. specialize (H n). destruct n; try (rewrite H; apply sameIdentity_refl).
  destruct H as [v ->]. by simpl.
Qed.

Lemma writesUsedSymbolsUp_sameIdentity f :
  writesUsedSymbolsUp f -> forall n, sameIdentity n (f n).
Proof.
  intros H n. specialize (H n). destruct n; try (rewrite H; apply sameIdentity_refl).
  destruct H as [v ->]. by simpl.
Qed.

Lemma propagateSymbols_body_frame fuel changed groups previousErrors :
  preserves frameOf
    (propagateSymbols_body options flagTables getIncomingDependencies
       runFullPassHeuristic fuel changed groups previousErrors).
Proof.
  apply propagateSymbols_body_preserves; try typeclasses eauto.
  - intros id f Hf. by apply frameOf_mutate, writesFlags_sameIdentity.
  - intros id f Hf. by apply frameOf_mutate, writesUsedSymbols_sameIdentity.
  - intros id f Hf. by apply frameOf_mutate, writesUsedSymbolsDown_sameIdentity.
  - intros id f Hf. by apply frameOf_mutate, writesUsedSymbolsUp_sameIdentity.
  - intros d. by apply frameOf_sameGraph.
  - intros k. by apply frameOf_sameGraph.
  - intros msg. by apply frameOf_sameGraph.
  - intros v. by apply frameOf_sameGraph.
  - intros f. by apply frameOf_sameGraph.
Qed.

End FrameFacts.

(** C8 (amended): whatever [propagateSymbols] does, returning, throwing or
    cut short, it leaves the frame of the asset graph alone: the edges, the
    root, the node id counter and the content-key index are identical, the
    same node ids are in use, and every node keeps its type, its content key
    and its payload.  What it writes are the dirty flags and symbol sets
    ([usedSymbols], [usedSymbolsDown], [usedSymbolsUp], [excluded]) of asset
    and dependency nodes and the [usedSymbolsDownDirty] flag of asset group
    nodes. *)
Theorem propagateSymbols_keeps_the_graph_frame
    (options : SymbolPropagation.ParcelOptions)
    (flagTables : SymbolPropagation.FlagTables)
    (getIncomingDependencies : SymbolPropagation.AssetGraph -> nat -> list string)
    (runFullPassHeuristic : SymbolPropagation.AssetGraph -> nat -> bool)
    (fuel : nat) (g : SymbolPropagation.AssetGraph) (changed : list string)
    (groups : list nat)
    (previousErrors : option (gmap nat (list SymbolPropagation.Diagnostic))) :
  PropagationSpec.sameFrame g
    (SymbolPropagation.assetGraph
       (SymbolPropagation.propagateSymbols options flagTables getIncomingDependencies
          runFullPassHeuristic fuel g changed groups previousErrors).2).
Proof.
  unfold SymbolPropagation.propagateSymbols.
  apply (propagateSymbols_body_frame options flagTables getIncomingDependencies
           runFullPassHeuristic fuel changed groups previousErrors
           (SymbolPropagation.mkPState g [] [] ∅ [] [])).
Qed.

(** C8 as stated fails: the down pass also writes a flag of asset group
    nodes.  With the dirty asset group [G] among
    [assetGroupsWithRemovedParents], the call returns and [G], which is
    neither an asset nor a dependency, has changed: its
    [usedSymbolsDownDirty] went from [true] to [false].  This holds
    whichever way the full-pass heuristic answers. *)
Lemma propagateSymbols_writes_asset_group_flag :
  PropagationExamples.eitherHeuristic (fun heuristic =>
    let run := PropagationExamples.propagate heuristic PropagationExamples.dirtyAssetGroup
                 [] [2] None in
    run.1 = Ok ∅
    /\ Graph.getNode (SymbolPropagation.graph PropagationExamples.dirtyAssetGroup) 2
       = Some (SymbolPropagation.NAssetGroup
                 (SymbolPropagation.mkAssetGroupNode "G"
                    (SymbolPropagation.mkAssetGroup "a.js" None) true))
    /\ Graph.getNode (SymbolPropagation.graph (SymbolPropagation.assetGraph run.2)) 2
       = Some (SymbolPropagation.NAssetGroup
                 (SymbolPropagation.mkAssetGroupNode "G"
                    (SymbolPropagation.mkAssetGroup "a.js" None) false))).
Proof.
  split; vm_compute; repeat split; reflexivity.
Qed.

(** ** The error map follows the visits of the up pass *)

Section ErrorFacts.
Import SymbolPropagation PropagationSpec.

Lemma replay_app vs1 vs2 errs : replay (vs1 ++ vs2) errs = replay vs2 (replay vs1 errs).
Proof. unfold replay. apply foldl_app. Qed.

Lemma replay_down vs errs : Forall (fun v => v_pass v = Down) vs -> replay vs errs = errs.
Proof.
  intros H. revert errs. induction H as [|v vs Hv _ IH]; intros errs; [done|].
  unfold replay in *. simpl.
  replace (applyVisit errs v) with errs; [apply IH|].
  unfold applyVisit. by rewrite Hv.
Qed.

Lemma lastUpVisit_snoc n vs v :
  lastUpVisit n (vs ++ [v])
  = match v_pass v with
    | Up => if bool_decide (v_asset v = n) then Some v else lastUpVisit n vs
    | Down => lastUpVisit n vs
    end.
Proof.
  unfold lastUpVisit. rewrite List.filter_app. simpl.
  destruct (v_pass v).
  - by rewrite app_nil_r.
  - destruct (bool_decide (v_asset v = n)).
    + by rewrite last_snoc.
    + by rewrite app_nil_r.
Qed.

(** The entry of [n] after a replay is decided by the last call of the up
    pass on [n]. *)
Lemma replay_lookup vs errs n :
  replay vs errs !! n
  = match lastUpVisit n vs with
    | Some v => match v_errors v with [] => None | e => Some e end
    | None => errs !! n
    end.
Proof.
  induction vs as [|v vs IH] using rev_ind; [done|].
  rewrite replay_app, lastUpVisit_snoc. simpl. unfold applyVisit.
  destruct (v_pass v); [exact IH|].
  destruct (v_errors v) as [|e es] eqn:He.
  - rewrite lookup_delete. case_decide as Hn.
    + by rewrite bool_decide_eq_true_2, He.
    + by rewrite bool_decide_eq_false_2.
  - rewrite lookup_insert. case_decide as Hn.
    + by rewrite bool_decide_eq_true_2, He.
    + by rewrite bool_decide_eq_false_2.
Qed.

Lemma lastUpVisit_in n vs v : lastUpVisit n vs = Some v -> v ∈ vs /\ v_asset v = n.
Proof.
  unfold lastUpVisit. intros H.
  assert (Hin : v ∈ List.filter (fun v => match v_pass v with
                                          | Up => bool_decide (v_asset v = n)
                                          | Down => false
                                          end) vs).
  { apply last_Some in H. destruct H as [l ->]. set_solver. }
  apply list_elem_of_In, List.filter_In in Hin. destruct Hin as [Hin Hp].
  split; [by apply list_elem_of_In|].
  destruct (v_pass v); [done|]. by apply bool_decide_eq_true_1 in Hp.
Qed.

Lemma lastUpVisit_down n vs :
  Forall (fun v => v_pass v = Down) vs -> lastUpVisit n vs = None.
Proof.
  intros H. unfold lastUpVisit.
  induction H as [|v vs Hv _ IH]; [done|]. simpl. by rewrite Hv.
Qed.

Lemma lastUpVisit_app_down n vs1 vs2 :
  Forall (fun v => v_pass v = Down) vs1 -> lastUpVisit n (vs1 ++ vs2) = lastUpVisit n vs2.
Proof.
  intros H. unfold lastUpVisit. rewrite List.filter_app.
  assert (Hnil : List.filter (fun v => match v_pass v with
                                       | Up => bool_decide (v_asset v = n)
                                       | Down => false
                                       end) vs1 = []).
  { induction H as [|v vs Hv _ IH]; [done|]. simpl. by rewrite Hv. }
  by rewrite Hnil.
Qed.

Lemma initialErrors_lookup g previousErrors n :
  initialErrors g previousErrors !! n
  = if Graph.hasNode (graph g) n then default ∅ previousErrors !! n else None.
Proof.
  unfold initialErrors. destruct previousErrors as [prev|]; simpl.
  - destruct (prev !! n) as [e|] eqn:He.
    + destruct (Graph.hasNode (graph g) n) eqn:Hn.
      * by apply map_lookup_filter_Some.
      * apply map_lookup_filter_None. right. intros e' He'. simpl. congruence.
    + rewrite (proj2 (map_lookup_filter_None _ _ _)); [by destruct (Graph.hasNode _ _)|].
      by left.
  - rewrite lookup_empty. by destruct (Graph.hasNode _ _).
Qed.

Lemma initialErrors_frame g g' previousErrors :
  sameFrame g g' -> initialErrors g' previousErrors = initialErrors g previousErrors.
Proof.
  intros H. apply map_eq. intros n. rewrite !initialErrors_lookup.
  by rewrite (sameFrame_hasNode _ _ n H).
Qed.

(** *** The three relations are preorders *)

#[global] Instance logUntouched_preorder : PreOrder logUntouched.
Proof.
  split.
  - intros s. split; [reflexivity|by split].
  - intros s1 s2 s3 (Hf1 & He1 & Hv1) (Hf2 & He2 & Hv2).
    split; [by etrans|]. split; congruence.
Qed.

#[global] Instance downLogged_preorder : PreOrder downLogged.
Proof.
  split.
  - intros s. split; [reflexivity|]. split; [done|]. exists []. by rewrite app_nil_r.
  - intros s1 s2 s3 (Hf1 & He1 & new1 & Hv1 & Hd1) (Hf2 & He2 & new2 & Hv2 & Hd2).
    split; [by etrans|]. split; [congruence|].
    exists (new1 ++ new2). rewrite Hv2, Hv1, app_assoc. split; [done|].
    by apply Forall_app.
Qed.

#[global] Instance errorsFollowVisits_preorder : PreOrder errorsFollowVisits.
Proof.
  split.
  - intros s. split; [reflexivity|]. exists []. by rewrite app_nil_r.
  - intros s1 s2 s3 (Hf1 & new1 & Hv1 & He1 & Hn1) (Hf2 & new2 & Hv2 & He2 & Hn2).
    split; [by etrans|].
    exists (new1 ++ new2). rewrite Hv2, Hv1, app_assoc. split; [done|].
    split; [by rewrite replay_app, <- He1|].
    apply Forall_app. split; [done|].
    eapply Forall_impl; [exact Hn2|]. intros v [Hp Hh]. split; [done|].
    by rewrite <- (sameFrame_hasNode _ _ (v_asset v) Hf1).
Qed.

(** *** Writes that leave the log and [errors] alone *)

Lemma logUntouched_mutate id f :
  (forall n, sameIdentity n (f n)) -> preserves logUntouched (mutate id f).
Proof.
  intros Hf s. split; [by apply frameOf_mutate|]. by split.
Qed.

Lemma logUntouched_modify (f : PState -> PState) :
  (forall s, assetGraph (f s) = assetGraph s) ->
  (forall s, errors (f s) = errors s) ->
  (forall s, visits (f s) = visits s) ->
  preserves logUntouched (modify f).
Proof.
  intros Hg He Hv s. split; [by apply frameOf_sameGraph|]. split; [apply He|apply Hv].
Qed.

Lemma logUntouched_downLogged s s' : logUntouched s s' -> downLogged s s'.
Proof.
  intros (Hf & He & Hv). split; [done|]. split; [done|].
  exists []. by rewrite app_nil_r.
Qed.

Lemma logUntouched_errorsFollowVisits s s' : logUntouched s s' -> errorsFollowVisits s s'.
Proof.
  intros (Hf & He & Hv). split; [done|]. exists []. by rewrite app_nil_r.
Qed.

Variable options : ParcelOptions.
Variable flagTables : FlagTables.
Variable getIncomingDependencies : AssetGraph -> nat -> list string.
Variable runFullPassHeuristic : AssetGraph -> nat -> bool.

Lemma downVisitor_logUntouched a i o :
  preserves logUntouched (downVisitor options flagTables a i o).
Proof.
  apply downVisitor_preserves; try typeclasses eauto.
  - intros id f Hf. by apply logUntouched_mutate, writesFlags_sameIdentity.
  - intros id f Hf. by apply logUntouched_mutate, writesUsedSymbols_sameIdentity.
  - intros id f Hf. by apply logUntouched_mutate, writesUsedSymbolsDown_sameIdentity.
  - intros k. by apply logUntouched_modify.
Qed.

Lemma upVisitor_logUntouched a i o :
  preserves logUntouched (upVisitor options flagTables a i o).
Proof.
  apply upVisitor_preserves; try typeclasses eauto.
  - intros id f Hf. by apply logUntouched_mutate, writesFlags_sameIdentity.
  - intros id f Hf. by apply logUntouched_mutate, writesUsedSymbols_sameIdentity.
  - intros id f Hf. by apply logUntouched_mutate, writesUsedSymbolsUp_sameIdentity.
  - intros d. by apply logUntouched_modify.
  - intros msg. by apply logUntouched_modify.
Qed.

(** The up visitor only returns when it was handed an asset of the graph. *)
Lemma upVisitor_returns_on_asset a i o s e s' :
  upVisitor options flagTables a i o s = (Ok e, s') ->
  Graph.hasNode (graph (assetGraph s)) a = true.
Proof.
  unfold upVisitor, bind, derefAsset, Graph.hasNode, Graph.getNode.
  destruct (Graph.nodes (graph (assetGraph s)) !! a) as [[]|] eqn:Hn; try discriminate.
  intros _. apply bool_decide_eq_true_2. by eexists.
Qed.

Lemma errorsFollowVisits_flags id f :
  writesFlags f -> preserves errorsFollowVisits (mutate id f).
Proof.
  intros Hf s. apply logUntouched_errorsFollowVisits.
  by apply logUntouched_mutate, writesFlags_sameIdentity.
Qed.

Lemma downLogged_flags id f : writesFlags f -> preserves downLogged (mutate id f).
Proof.
  intros Hf s. apply logUntouched_downLogged.
  by apply logUntouched_mutate, writesFlags_sameIdentity.
Qed.

(** One visit of the up pass and the bookkeeping around it. *)
Lemma visitAndStore_errorsFollowVisits n i o :
  preserves errorsFollowVisits
    (visitAndStore (upVisitor options flagTables) n i o).
Proof.
  intros s. unfold visitAndStore, bind.
  pose proof (upVisitor_logUntouched n i o s) as Hlog.
  destruct (upVisitor options flagTables n i o s) as [[e| |] s1] eqn:Hv; simpl in Hlog.
  2,3: by apply logUntouched_errorsFollowVisits.
  apply upVisitor_returns_on_asset in Hv.
  destruct Hlog as (Hf & He & Hvis).
  assert (Hflag : forall b, frameOf s
             (mutate n (onAsset (set_usedSymbolsUpDirty b))
                (recordVisit (mkVisit Up n i o e) s1).2).2).
  { intros b. etrans; [exact Hf|].
    etrans; [apply (frameOf_sameGraph (fun s => (recordVisit (mkVisit Up n i o e) s).2));
             by intros|].
    apply frameOf_mutate. intros [| | |]; simpl; auto. }
  destruct e as [|d ds]; simpl.
  - split; [apply Hflag|].
    exists [mkVisit Up n i o []]. simpl. rewrite Hvis, He. repeat split; auto.
  - split; [apply Hflag|].
    exists [mkVisit Up n i o (d :: ds)]. simpl. rewrite Hvis, He. repeat split; auto.
Qed.

Lemma propagateSymbolsUp_passes_errorsFollowVisits fuel g changedAssets changedDown :
  preserves errorsFollowVisits
    (propagateSymbolsUp_passes getIncomingDependencies runFullPassHeuristic
       (upVisitor options flagTables) fuel g changedAssets changedDown).
Proof.
  apply propagateSymbolsUp_passes_preserves; try typeclasses eauto.
  - apply errorsFollowVisits_flags.
  - apply visitAndStore_errorsFollowVisits.
Qed.

(** [propagateSymbolsUp] returns the error map it ends with, which is the
    replay of its visits on the pruned [previousErrors]. *)
Lemma propagateSymbolsUp_wp fuel changedAssets changedDown previousErrors
    (Q : gmap nat (list Diagnostic) -> PState -> Prop) s :
  (forall s',
     errorsFollowVisits (withErrors (initialErrors (assetGraph s) previousErrors) s) s' ->
     Q (errors s') s') ->
  wp (propagateSymbolsUp getIncomingDependencies runFullPassHeuristic
        (upVisitor options flagTables) fuel changedAssets changedDown previousErrors)
     Q (fun _ => True) s.
Proof.
  intros HQ. unfold propagateSymbolsUp.
  apply wp_bind, wp_get. apply wp_bind, wp_modify. apply wp_bind.
  eapply wp_preserves;
    [apply propagateSymbolsUp_passes_errorsFollowVisits| |done].
  intros _ s' Hs'. apply wp_bind, wp_get. apply wp_ret. by apply HQ.
Qed.

Lemma propagateSymbolsDown_downLogged fuel changedAssets groups :
  preserves downLogged
    (propagateSymbolsDown getIncomingDependencies (downVisitor options flagTables)
       fuel changedAssets groups).
Proof.
  apply propagateSymbolsDown_preserves; try typeclasses eauto.
  - apply downLogged_flags.
  - intros a i o s. apply logUntouched_downLogged, downVisitor_logUntouched.
  - intros a i o s. split; [by apply frameOf_sameGraph|]. split; [done|].
    exists [mkVisit Down a i o []]. split; [done|]. by constructor.
Qed.

Lemma sortChangedDeps_logUntouched : preserves logUntouched sortChangedDeps.
Proof.
  apply sortChangedDeps_preserves; try typeclasses eauto.
  intros id f Hf. by apply logUntouched_mutate, writesUsedSymbolsUp_sameIdentity.
Qed.

(** The log of a whole propagation: calls of the down pass, then calls of
    the up pass on nodes of the graph; the returned error map is the replay
    of the latter on the pruned [previousErrors]. *)
Lemma propagateSymbols_errors fuel g changed groups previousErrors errs s' :
  propagateSymbols options flagTables getIncomingDependencies runFullPassHeuristic
    fuel g changed groups previousErrors = (Ok errs, s') ->
  exists down up,
    visits s' = down ++ up
    /\ Forall (fun v => v_pass v = Down) down
    /\ Forall (fun v => v_pass v = Up /\ Graph.hasNode (graph g) (v_asset v) = true) up
    /\ errs = replay up (initialErrors g previousErrors).
Proof.
  intros Hrun. unfold propagateSymbols in Hrun.
  apply (wp_elim _
           (fun errs s' =>
              exists down up,
                visits s' = down ++ up
                /\ Forall (fun v => v_pass v = Down) down
                /\ Forall (fun v => v_pass v = Up
                                    /\ Graph.hasNode (graph g) (v_asset v) = true) up
                /\ errs = replay up (initialErrors g previousErrors))
           (fun _ => True) _ _ _) in Hrun; [exact Hrun|].
  unfold propagateSymbols_body.
  apply wp_bind, wp_readonly; [|intros ids _|done].
  { apply readonly_mapM. intros key. apply readonly_getNodeIdByContentKey. }
  apply wp_bind.
  eapply wp_preserves; [apply propagateSymbolsDown_downLogged| |done].
  intros _ s1 (Hf1 & He1 & down & Hv1 & Hdown). simpl in Hf1, He1, Hv1.
  apply wp_bind, wp_get. apply wp_bind.
  apply propagateSymbolsUp_wp.
  intros s2 (Hf2 & up & Hv2 & He2 & Hup). simpl in Hf2, Hv2, He2, Hup.
  apply wp_bind.
  eapply wp_preserves; [apply sortChangedDeps_logUntouched| |done].
  intros _ s3 (Hf3 & He3 & Hv3). apply wp_ret.
  exists down, up. rewrite Hv3, Hv2, Hv1. split; [done|]. split; [done|].
  split.
  - eapply Forall_impl; [exact Hup|]. intros v [Hp Hh]. split; [done|].
    pose proof (sameFrame_hasNode _ _ (v_asset v) Hf1) as Hx.
    simpl in *. congruence.
  - rewrite He2. f_equal. by apply initialErrors_frame.
Qed.

End ErrorFacts.

(** C9: when [propagateSymbols] returns, the entry of a node [n] in the
    returned map is decided as follows.  If the up pass visited [n], then [n]
    is a node of the graph and the diagnostics of its last visit replace
    whatever [previousErrors] held: they are the entry, and there is no entry
    when that visit produced none.  If the up pass did not visit [n], the
    entry of [previousErrors] is retained unchanged when [n] is in the graph
    and dropped when [n] has been removed. *)
Theorem previous_errors_are_pruned_kept_or_replaced
    (options : SymbolPropagation.ParcelOptions)
    (flagTables : SymbolPropagation.FlagTables)
    (getIncomingDependencies : SymbolPropagation.AssetGraph -> nat -> list string)
    (runFullPassHeuristic : SymbolPropagation.AssetGraph -> nat -> bool)
    (fuel : nat) (g : SymbolPropagation.AssetGraph) (changed : list string)
    (groups : list nat)
    (previousErrors : option (gmap nat (list SymbolPropagation.Diagnostic)))
    (errs : gmap nat (list SymbolPropagation.Diagnostic))
    (s' : SymbolPropagation.PState) (n : nat) :
  SymbolPropagation.propagateSymbols options flagTables getIncomingDependencies
    runFullPassHeuristic fuel g changed groups previousErrors = (Ok errs, s') ->
  match PropagationSpec.lastUpVisit n (SymbolPropagation.visits s') with
  | Some v =>
      Graph.hasNode (SymbolPropagation.graph g) n = true
      /\ errs !! n = match SymbolPropagation.v_errors v with
                     | [] => None
                     | e => Some e
                     end
  | None =>
      errs !! n = if Graph.hasNode (SymbolPropagation.graph g) n
                  then default ∅ previousErrors !! n
                  else None
  end.
Proof.
  intros Hrun. apply propagateSymbols_errors in Hrun.
  destruct Hrun as (down & up & Hv & Hdown & Hup & ->).
  rewrite Hv, lastUpVisit_app_down by done.
  rewrite replay_lookup.
  destruct (PropagationSpec.lastUpVisit n up) as [v|] eqn:Hlast.
  - split; [|done].
    apply lastUpVisit_in in Hlast. destruct Hlast as [Hin <-].
    rewrite Forall_forall in Hup. by apply Hup.
  - apply initialErrors_lookup.
Qed.

(** With stale entries for the removed node [7], the dependency [1] and the
    asset [2]: the up pass visits the assets [4] and [2]; [4] gets the
    diagnostic of its visit, the entry of [2] is deleted because its visit
    found nothing, the entry of [1] is retained and the entry of [7] is
    dropped. *)
Lemma previous_errors_are_pruned_kept_or_replaced_witness :
  let run := PropagationExamples.propagate false PropagationExamples.missingExportGraph
               ["A"] [] (Some PropagationExamples.staleErrors) in
  let errs := PropagationExamples.returned run in
  let entry (n : nat) :=
    match PropagationSpec.lastUpVisit n (SymbolPropagation.visits run.2) with
    | Some v =>
        Graph.hasNode (SymbolPropagation.graph PropagationExamples.missingExportGraph) n = true
        /\ errs !! n = match SymbolPropagation.v_errors v with
                       | [] => None
                       | e => Some e
                       end
    | None =>
        errs !! n
        = if Graph.hasNode (SymbolPropagation.graph PropagationExamples.missingExportGraph) n
          then default ∅ (Some PropagationExamples.staleErrors) !! n
          else None
    end in
  (entry 4 /\ entry 2 /\ entry 1 /\ entry 7)
  /\ map_to_list errs
     = [(4, [SymbolPropagation.mkDiagnostic "b.js does not export 'foo'" "@parcel/core" None]);
        (1, [PropagationExamples.staleDiagnostic])].
Proof.
  intros run errs entry.
  assert (Hrun : SymbolPropagation.propagateSymbols PropagationExamples.options
                   PropagationExamples.flagTables PropagationExamples.getIncomingDependencies
                   (fun _ _ => false) 30 PropagationExamples.missingExportGraph ["A"] []
                   (Some PropagationExamples.staleErrors) = (Ok errs, run.2))
    by (vm_compute; reflexivity).
  split; [|vm_compute; reflexivity].
  split; [|split; [|split]].
  - exact (previous_errors_are_pruned_kept_or_replaced _ _ _ _ _ _ _ _ _ _ _ 4 Hrun).
  - exact (previous_errors_are_pruned_kept_or_replaced _ _ _ _ _ _ _ _ _ _ _ 2 Hrun).
  - exact (previous_errors_are_pruned_kept_or_replaced _ _ _ _ _ _ _ _ _ _ _ 1 Hrun).
  - exact (previous_errors_are_pruned_kept_or_replaced _ _ _ _ _ _ _ _ _ _ _ 7 Hrun).
Defined.

(** ** The final sort of [changedDeps] *)

Section SortFacts.
Import SymbolPropagation PropagationSpec.

Lemma insertByKey_keys {V} (x : nat * V) l :
  forall k, k ∈ (insertByKey x l).*1 <-> k = x.1 \/ k ∈ l.*1.
Proof.
  induction l as [|y l IH]; intros k; simpl.
  - rewrite list_elem_of_singleton, elem_of_nil. tauto.
  - destruct (x.1 <=? y.1)%nat; simpl.
    + rewrite !elem_of_cons. tauto.
    + rewrite !elem_of_cons, IH. tauto.
Qed.

Lemma insertByKey_sorted {V} (x : nat * V) l :
  StronglySorted le l.*1 -> StronglySorted le (insertByKey x l).*1.
Proof.
  induction l as [|y l IH]; intros Hs; simpl.
  - repeat constructor.
  - inversion Hs as [|? ? Hs' Hall]; subst.
    destruct (x.1 <=? y.1)%nat eqn:Hle; simpl.
    + apply Nat.leb_le in Hle. constructor; [done|].
      constructor; [done|]. eapply Forall_impl; [exact Hall|]. intros; lia.
    + apply Nat.leb_gt in Hle. constructor; [by apply IH|].
      apply Forall_forall. intros k Hk. apply insertByKey_keys in Hk.
      destruct Hk as [->|Hk]; [lia|]. rewrite Forall_forall in Hall. by apply Hall.
Qed.

Lemma sortByKey_sorted {V} (l : list (nat * V)) : StronglySorted le (sortByKey l).*1.
Proof.
  induction l as [|x l IH]; simpl; [constructor|]. by apply insertByKey_sorted.
Qed.

Lemma sortByKey_keys {V} (l : list (nat * V)) k : k ∈ (sortByKey l).*1 <-> k ∈ l.*1.
Proof.
  revert k. induction l as [|x l IH]; intros k; simpl; [done|].
  rewrite insertByKey_keys, elem_of_cons, IH. tauto.
Qed.

Lemma getNode_mutate id f s j :
  Graph.getNode (graph (assetGraph (mutate id f s).2)) j
  = if decide (id = j) then f <$> Graph.getNode (graph (assetGraph s)) j
    else Graph.getNode (graph (assetGraph s)) j.
Proof.
  unfold mutate, modify, Graph.getNode. simpl. rewrite lookup_alter.
  case_decide; by subst.
Qed.

Lemma sort_loop l :
  forall s,
    let run := forEach l (fun dep => mutate dep (onDependency sortUp)) s in
    run.1 = Ok tt
    /\ changedDeps run.2 = changedDeps s
    /\ (forall d, d ∈ l -> usedSymbolsUpSorted (assetGraph run.2) d)
    /\ (forall d, usedSymbolsUpSorted (assetGraph s) d ->
                  usedSymbolsUpSorted (assetGraph run.2) d).
Proof.
  assert (Hone : forall dep s d,
            d = dep \/ usedSymbolsUpSorted (assetGraph s) d ->
            usedSymbolsUpSorted (assetGraph (mutate dep (onDependency sortUp) s).2) d).
  { intros dep s d Hd. unfold usedSymbolsUpSorted, dependencyAt in *.
    rewrite getNode_mutate. case_decide as Heq.
    - subst d. destruct (Graph.getNode (graph (assetGraph s)) dep) as [[]|]; simpl; try done.
      apply sortByKey_sorted.
    - destruct Hd as [->|Hd]; [done|exact Hd]. }
  induction l as [|dep l IH]; intros s; simpl.
  - repeat split; auto. intros d Hd. by apply elem_of_nil in Hd.
  - unfold bind. simpl.
    destruct (IH (mutate dep (onDependency sortUp) s).2) as (Hr & Hc & Hin & Hkeep).
    split; [exact Hr|]. split; [exact Hc|]. split.
    + intros d Hd. apply elem_of_cons in Hd. destruct Hd as [->|Hd].
      * apply Hkeep, Hone. by left.
      * by apply Hin.
    + intros d Hd. apply Hkeep, Hone. by right.
Qed.

Lemma sortChangedDeps_wp (Q : unit -> PState -> Prop) E s :
  (forall s', changedDeps s' = changedDeps s ->
              (forall d, d ∈ changedDeps s -> usedSymbolsUpSorted (assetGraph s') d) ->
              Q tt s') ->
  wp sortChangedDeps Q E s.
Proof.
  intros HQ. unfold sortChangedDeps. apply wp_bind, wp_get.
  destruct (sort_loop (changedDeps s) s) as (Hr & Hc & Hin & _).
  unfold wp.
  destruct (forEach (changedDeps s) _ s) as [r s'] eqn:Hrun.
  simpl in *. subst r. by apply HQ.
Qed.
End SortFacts.



(** C4: [propagateSymbols] returns with dependencies whose non-empty
    [usedSymbolsUp] has its keys out of ascending SymbolId order, against the
    claim and against the comment above the final loop (a consistent order
    across builds).  The final loop sorts only the members of [changedDeps].

    In the graph [root -> D1 -> A] the entry requests [bar] (5) before [a]
    (2).  The first build registers [D1] in [changedDeps] and leaves it with
    the keys [2, 5].  [A] then changes and is propagated again: the up visit
    of [A] rebuilds [usedSymbolsUp] of [D1] in the order of
    [usedSymbolsDown]; [equalMap] compares the entries of the old and the
    new map but not their order, so [D1] is not registered, nothing sorts
    it, and the second build returns with the keys [5, 2].

    In the graph [root -> entry -> A -> O], [O] requests [bar] and [a] of a
    module that resolves to nothing.  The up visit of [A] assumes both exist
    and fills [usedSymbolsUp] of [O] in the order of [usedSymbolsDown]; an
    outgoing dependency is never registered in [changedDeps], and the first
    build returns with the keys [5, 2].

    All of this holds whichever way the full-pass heuristic answers. *)
Theorem propagateSymbols_leaves_usedSymbolsUp_unsorted :
  PropagationExamples.eitherHeuristic (fun heuristic =>
    let keysOfUp (s : SymbolPropagation.PState) (id : nat) :=
      (fun d => (SymbolPropagation.usedSymbolsUp d).*1)
        <$> PropagationSpec.dependencyAt (SymbolPropagation.assetGraph s) id in
    let first := PropagationExamples.propagate heuristic PropagationExamples.unsortedRequest
                   ["A"] [] None in
    let again := PropagationExamples.propagate heuristic
                   (PropagationExamples.withRebuiltAsset (SymbolPropagation.assetGraph first.2))
                   ["A"] [] (Some (PropagationExamples.returned first)) in
    let unresolved := PropagationExamples.propagate heuristic
                        PropagationExamples.unresolvedImports ["A"] [] None in
    (first.1 = Ok ∅
     /\ SymbolPropagation.changedDeps first.2 = [1]
     /\ keysOfUp first.2 1 = Some [2; 5])
    /\ (again.1 = Ok ∅
        /\ SymbolPropagation.changedDeps again.2 = []
        /\ keysOfUp again.2 1 = Some [5; 2]
        /\ ~ PropagationSpec.usedSymbolsUpSorted (SymbolPropagation.assetGraph again.2) 1)
    /\ (unresolved.1 = Ok ∅
        /\ SymbolPropagation.changedDeps unresolved.2 = []
        /\ keysOfUp unresolved.2 3 = Some [5; 2]
        /\ ~ PropagationSpec.usedSymbolsUpSorted
               (SymbolPropagation.assetGraph unresolved.2) 3)).
Proof.
  assert (Hunsorted : ~ StronglySorted le [5; 2]).
  { intros H. inversion H as [|? ? _ Hall]; subst. inversion Hall; subst. lia. }
  split.
  - split; [vm_compute; repeat split; reflexivity|].
    split; (split; [vm_compute; reflexivity|]; split; [vm_compute; reflexivity|];
            split; [vm_compute; reflexivity|]; intros H; vm_compute in H; by apply Hunsorted).
  - split; [vm_compute; repeat split; reflexivity|].
    split; (split; [vm_compute; reflexivity|]; split; [vm_compute; reflexivity|];
            split; [vm_compute; reflexivity|]; intros H; vm_compute in H; by apply Hunsorted).
Qed.

(** ** [stop()] ends a traversal *)

Section DfsStop.
Import Graph.
Context {TNode S C : Type}.
Variable visit : @GraphVisitor TNode S C.
Variable getChildren : Graph.t TNode * S -> nat -> outcome (list nat).

Abbreviation St := (@DfsState TNode S C).

#[local] Instance skipRequested_preorder : PreOrder (@skipRequested TNode S C).
Proof.
  split.
  - intros st. exists []. rewrite app_nil_r. split; [done|]. by left.
  - intros st1 st2 st3 (evs1 & Ht1 & H1) (evs2 & Ht2 & H2).
    exists (evs1 ++ evs2). rewrite Ht2, Ht1, app_assoc. split; [done|].
    intros Hs. rewrite Exists_app.
    destruct (H2 Hs) as [Hs2|Hex]; [|by right; right].
    destruct (H1 Hs2) as [Hs1|Hex]; [by left|by right; left].
Qed.

Lemma invoke_skipRequested kind cb n ctx :
  preserves skipRequested (invoke (TNode := TNode) (S := S) (C := C) kind cb n ctx).
Proof.
  intros st. unfold invoke. simpl. eexists [_]. split; [reflexivity|]. simpl.
  intros Hs. apply orb_true_iff in Hs. destruct Hs as [Hs|Hs]; [by left|].
  right. by constructor.
Qed.

Lemma same_skipRequested (st st' : St) :
  trace st' = trace st -> (skipped st' = true -> skipped st = true) ->
  skipRequested st st'.
Proof.
  intros Ht Hs. exists []. rewrite app_nil_r. split; [done|]. intros H. left. by apply Hs.
Qed.

Lemma leave_skipRequested n ctx : preserves skipRequested (leave visit n ctx).
Proof.
  unfold leave.
  apply preserves_bind; [typeclasses eauto|apply preserves_readonly, readonly_get; typeclasses eauto|].
  intros st. apply preserves_bind; [typeclasses eauto| |].
  - destruct (exitOf visit) as [exit|].
    + destruct (hasNode (world st).1 n).
      * apply invoke_skipRequested.
      * apply preserves_readonly; [typeclasses eauto|apply readonly_ret].
    + apply preserves_readonly; [typeclasses eauto|apply readonly_ret].
  - intros ctx1. apply preserves_readonly; [typeclasses eauto|].
    apply readonly_bind; [apply readonly_get|]. intros st1.
    destruct (skipped st1); [|destruct (stopped st1)]; apply readonly_ret.
Qed.

Lemma walkChildren_skipRequested (walk : nat -> option C -> M St (option C)) :
  (forall n ctx, preserves skipRequested (walk n ctx)) ->
  forall children ctx, preserves skipRequested (walkChildren walk children ctx).
Proof.
  intros Hw children ctx. induction children as [|child rest IH]; simpl.
  - apply preserves_readonly; [typeclasses eauto|apply readonly_ret].
  - apply preserves_bind; [typeclasses eauto| |].
    { apply preserves_readonly; [typeclasses eauto|apply readonly_get]. }
    intros st. destruct (set_has (visited st) child); [exact IH|].
    apply preserves_bind; [typeclasses eauto| |].
    { apply preserves_modify. intros s. by apply same_skipRequested. }
    intros _. apply preserves_bind; [typeclasses eauto|apply Hw|].
    intros result. apply preserves_bind; [typeclasses eauto| |].
    { apply preserves_readonly; [typeclasses eauto|apply readonly_get]. }
    intros st1. destruct (stopped st1); [|exact IH].
    apply preserves_readonly; [typeclasses eauto|apply readonly_ret].
Qed.

Lemma walk_skipRequested fuel :
  forall n ctx, preserves skipRequested (walk visit getChildren fuel n ctx).
Proof.
  induction fuel as [|fuel IH]; intros n ctx; simpl.
  - apply preserves_readonly; [typeclasses eauto|apply readonly_timeout].
  - apply preserves_bind; [typeclasses eauto| |].
    { apply preserves_readonly; [typeclasses eauto|apply readonly_get]. }
    intros st. destruct (negb (hasNode (world st).1 n)).
    { apply preserves_readonly; [typeclasses eauto|apply readonly_ret]. }
    apply preserves_bind; [typeclasses eauto| |].
    { apply preserves_modify. intros s. apply same_skipRequested; [done|]. simpl. discriminate. }
    intros _. apply preserves_bind; [typeclasses eauto| |].
    { destruct (enterOf visit) as [enter|].
      - apply invoke_skipRequested.
      - apply preserves_readonly; [typeclasses eauto|apply readonly_ret]. }
    intros ctx1. apply preserves_bind; [typeclasses eauto| |].
    { apply preserves_readonly; [typeclasses eauto|apply readonly_get]. }
    intros st1. destruct (skipped st1).
    { apply preserves_readonly; [typeclasses eauto|apply readonly_ret]. }
    destruct (stopped st1).
    { apply preserves_readonly; [typeclasses eauto|apply readonly_ret]. }
    apply preserves_bind; [typeclasses eauto| |].
    { apply preserves_readonly; [typeclasses eauto|]. by intros s. }
    intros children. apply preserves_bind; [typeclasses eauto| |].
    { by apply walkChildren_skipRequested. }
    intros [result|].
    + apply preserves_readonly; [typeclasses eauto|apply readonly_ret].
    + apply leave_skipRequested.
Qed.

(** When a [dfs] call ends with [skipped] set, one of its callbacks called
    [skipChildren()]. *)
Lemma dfs_run_skipRequested fuel start w r (st : St) :
  dfs_run visit getChildren fuel start w = (r, st) ->
  skipped st = true -> Exists (fun e => skipsAt e = true) (trace st).
Proof.
  unfold dfs_run. intros H Hs.
  assert (Hrel : skipRequested (mkDfsState [] false false w []) st).
  { destruct (match start with Some n => Some n | None => rootNodeId w.1 end) as [n|].
    - destruct (hasNode w.1 n).
      + pose proof (walk_skipRequested fuel n None (mkDfsState [] false false w [])) as Hp.
        by rewrite H in Hp.
      + inversion H; subst. reflexivity.
    - inversion H; subst. reflexivity. }
  destruct Hrel as (evs & Ht & Hsk). simpl in Ht. rewrite Ht.
  destruct (Hsk Hs) as [Hf|Hex]; [discriminate|done].
Qed.

(** The callback that calls [stop()] is the last one, and fixes what [dfs]
    returns together with the [skipped] flag. *)
Lemma dfs_run_stop_is_last fuel start w r (st : St) before e after :
  dfs_run visit getChildren fuel start w = (r, st) ->
  trace st = before ++ e :: after ->
  stopsAt e = true ->
  after = []
  /\ Forall (fun e' => stopsAt e' = false) before
  /\ r = Ok (if skipped st then None else contextAfter e)
  /\ (ev_kind e = Enter -> skipped st = skipsAt e).
Proof.
  intros Hrun Htrace He.
  apply dfs_run_traversed in Hrun.
  destruct Hrun as (evs & Ht & _ & Hs & Hr). simpl in Ht. subst evs.
  unfold stopOnlyAtEnd in Hs.
  destruct (stopped st) eqn:Hst.
  - destruct Hs as (evs0 & e0 & Heq & Hno & He0).
    rewrite Htrace in Heq.
    assert (Hafter : after = []).
    { destruct after as [|a after _] using rev_ind; [done|].
      rewrite app_comm_cons, app_assoc in Heq.
      apply app_inj_tail in Heq. destruct Heq as [<- <-].
      apply Forall_app in Hno. destruct Hno as [_ Hno].
      inversion Hno; subst. congruence. }
    subst after. apply app_inj_tail in Heq. destruct Heq as [<- <-].
    destruct (Hr eq_refl) as (e' & Hl & -> & Hk).
    rewrite Htrace, last_snoc in Hl. inversion Hl; subst e'.
    by repeat split.
  - rewrite Htrace in Hs. apply Forall_app in Hs. destruct Hs as [_ Hs].
    inversion Hs; subst. congruence.
Qed.
End DfsStop.




(** What the amended claim leaves open: [walk] resets [skipped] before an
    [enter] but not before an [exit].  On the chain, the [enter] of node [2]
    calls [skipChildren()]; the [exit] of node [1] is the next callback and
    calls [stop()] with the current context [1]; [dfs] returns
    [undefined]. *)
Example dfs_exit_stop_after_a_skipped_child :
  let run := Graph.dfs_run DfsExamples.skipsTwoStopsLeavingOne DfsExamples.forward 5 None
               (Examples.chain, tt) in
  (fun e => (Graph.ev_kind e, Graph.ev_node e, skipsAt e, stopsAt e, contextAfter e))
    <$> Graph.trace run.2
  = [(Graph.Enter, 0, false, false, Some 0); (Graph.Enter, 1, false, false, Some 1);
     (Graph.Enter, 2, true, false, Some 2); (Graph.Exit, 1, false, true, Some 1)]
  /\ run.1 = Ok None.
Proof.
  vm_compute. split; reflexivity.
Qed.

(** ** Dirty flags and stale symbols after a propagation *)

(** C2: a second [propagateSymbols] with the same arguments returns the
    same error map, but dirty flags stay set on nodes that produce no
    error.

    In the graph [root -> D1 -> A] only the changed asset [A] is dirty.  The
    up visit of [A] fills [usedSymbolsUp] of the entry dependency [D1] and
    sets its [usedSymbolsUpDirtyUp].  Only the visit of an asset that has
    [D1] among its outgoing dependencies clears that flag, and [D1] hangs
    off the root.  Both calls return the empty error map, and after each of
    them [D1] has [usedSymbolsUpDirtyUp] set.

    In the graph [root -> entry -> A -> O] of a first build, the down visit
    of [A] sets [usedSymbolsUpDirtyDown] of [O]; only the visit of the asset
    [O] resolves to clears it, and [O] resolves to nothing.  [entry] keeps
    [usedSymbolsDownDirty], which it has since its creation: the down pass
    starts at the changed assets and never dequeues it; and it keeps
    [usedSymbolsUpDirtyUp], which only an asset above it would clear.  Both
    calls return the empty error map.

    All of this holds whichever way the full-pass heuristic answers. *)
Theorem second_propagation_leaves_dirty_flags :
  PropagationExamples.eitherHeuristic (fun heuristic =>
    let flagsAt (s : SymbolPropagation.PState) (id : nat) :=
      PropagationSpec.dirtyFlags
        <$> Graph.getNode (SymbolPropagation.graph (SymbolPropagation.assetGraph s)) id in
    let twice (g : SymbolPropagation.AssetGraph) :=
      let first := PropagationExamples.propagate heuristic g ["A"] [] None in
      (first,
       PropagationExamples.propagate heuristic (SymbolPropagation.assetGraph first.2)
         ["A"] [] None) in
    let settled := twice PropagationExamples.settledEntry in
    let unresolved := twice PropagationExamples.unresolvedImports in
    (settled.1.1 = Ok ∅ /\ settled.2.1 = Ok ∅
     /\ flagsAt settled.1.2 1 = Some ["usedSymbolsUpDirtyUp"]
     /\ flagsAt settled.2.2 1 = Some ["usedSymbolsUpDirtyUp"]
     /\ ~ PropagationSpec.flagsSettled (SymbolPropagation.assetGraph settled.2.2)
            (PropagationExamples.returned settled.2))
    /\ (unresolved.1.1 = Ok ∅ /\ unresolved.2.1 = Ok ∅
        /\ flagsAt unresolved.2.2 1 = Some ["usedSymbolsDownDirty"; "usedSymbolsUpDirtyUp"]
        /\ flagsAt unresolved.2.2 3 = Some ["usedSymbolsUpDirtyDown"]
        /\ ~ PropagationSpec.flagsSettled (SymbolPropagation.assetGraph unresolved.2.2)
               (PropagationExamples.returned unresolved.2))).
Proof.
  assert (Hflags : forall g errs id n,
            Graph.getNode (SymbolPropagation.graph g) id = Some n ->
            errs !! id = None -> PropagationSpec.dirtyFlags n <> [] ->
            ~ PropagationSpec.flagsSettled g errs).
  { intros g errs id n Hn He Hd H. exact (Hd (H id n Hn He)). }
  split; (split; (split; [vm_compute; reflexivity|]; split; [vm_compute; reflexivity|];
                  split; [vm_compute; reflexivity|]; split; [vm_compute; reflexivity|]));
    (eapply (Hflags _ _ 1); [vm_compute; reflexivity|vm_compute; reflexivity|discriminate]).
Qed.

(** C3: [propagateSymbols] returns with a dependency whose [usedSymbolsUp]
    has a key that is not in its [usedSymbolsDown], against the claim and
    against the comment in the outgoing loop of the up visitor
    (usedSymbolsDown is a superset of usedSymbolsUp).

    In the graph [root -> I -> A -> O] the inclusion holds for every
    dependency on entry: an earlier build saw [I] request [a] (2), which [A]
    reexports from [O], and [O] resolves to nothing, so [O] has
    [usedSymbolsDown = {a}] and [usedSymbolsUp = {a -> null}].  Now [I]
    requests nothing and [A] is propagated again.  The down visit of [A]
    replaces [usedSymbolsDown] of [O] by the empty set; the up visit of [A]
    only adds to [usedSymbolsUp] of [O] and skips the entry for [a], and
    nothing else writes it.  The call returns with [usedSymbolsDown = {}]
    and [usedSymbolsUp = {a -> null}] on [O], whichever way the full-pass
    heuristic answers. *)
Theorem stale_usedSymbolsUp_outlives_usedSymbolsDown :
  (forall id, PropagationSpec.upWithinDown PropagationExamples.droppedRequest id)
  /\ PropagationExamples.eitherHeuristic (fun heuristic =>
       let run := PropagationExamples.propagate heuristic PropagationExamples.droppedRequest
                    ["A"] [] None in
       let O := PropagationSpec.dependencyAt (SymbolPropagation.assetGraph run.2) 3 in
       run.1 = Ok ∅
       /\ SymbolPropagation.usedSymbolsDown <$> O = Some []
       /\ SymbolPropagation.usedSymbolsUp <$> O = Some [(2, None)]
       /\ ~ PropagationSpec.upWithinDown (SymbolPropagation.assetGraph run.2) 3).
Proof.
  split.
  - intros id. unfold PropagationSpec.upWithinDown.
    destruct (decide (id = 1)) as [->|H1]; [vm_compute; intros k Hk; by apply elem_of_nil in Hk|].
    destruct (decide (id = 3)) as [->|H3].
    { vm_compute. intros k Hk. apply list_elem_of_singleton in Hk. subst. by left. }
    assert (Hno : PropagationSpec.dependencyAt PropagationExamples.droppedRequest id = None).
    { unfold PropagationSpec.dependencyAt, Graph.getNode, PropagationExamples.droppedRequest,
        PropagationExamples.mkExample. simpl.
      destruct (decide (id = 0)) as [->|H0]; [reflexivity|].
      destruct (decide (id = 2)) as [->|H2]; [reflexivity|].
      rewrite !lookup_insert_ne by done. by rewrite lookup_empty. }
    by rewrite Hno.
  - split; (split; [vm_compute; reflexivity|]; split; [vm_compute; reflexivity|];
            split; [vm_compute; reflexivity|]; intros H; vm_compute in H;
            specialize (H 2 ltac:(left)); by apply elem_of_nil in H).
Qed.

(** ** Stale entries of [usedSymbolsUp] *)

Section StaleFacts.
Import SymbolPropagation PropagationSpec.

#[local] Instance upKept_preorder : PreOrder upKept.
Proof.
  split.
  - by intros s id.
  - intros s1 s2 s3 H1 H2 id. by rewrite H2, H1.
Qed.

#[local] Instance downKept_preorder : PreOrder downKept.
Proof.
  split.
  - intros s id. destruct (dependencyAt (assetGraph s) id); [|done].
    split; [done|]. intros k Hk. by right.
  - intros s1 s2 s3 H1 H2 id. specialize (H1 id). specialize (H2 id).
    destruct (dependencyAt (assetGraph s1) id) as [d1|],
             (dependencyAt (assetGraph s2) id) as [d2|],
             (dependencyAt (assetGraph s3) id) as [d3|]; try done.
    destruct H1 as [Hd1 Hk1], H2 as [Hd2 Hk2]. split; [congruence|].
    intros k Hk. destruct (Hk2 k Hk) as [Hin|Hin]; [left; congruence|by apply Hk1].
Qed.

Lemma upKept_downKept s0 s1 s2 : upKept s0 s1 -> downKept s1 s2 -> upRequestedOrStale s0 s2.
Proof.
  intros H1 H2 id. specialize (H1 id). specialize (H2 id).
  destruct (dependencyAt (assetGraph s0) id) as [d0|],
           (dependencyAt (assetGraph s1) id) as [d1|],
           (dependencyAt (assetGraph s2) id) as [d2|]; try done.
  simpl in H1. injection H1 as H1. destruct H2 as [Hd Hk].
  intros k Hin. rewrite Hd, <- H1. by apply Hk.
Qed.

Lemma upKept_upRequestedOrStale s0 s1 : upKept s0 s1 -> upRequestedOrStale s0 s1.
Proof. intros H. eapply upKept_downKept; [exact H|reflexivity]. Qed.

Lemma dependencyAt_mutate id f s j :
  dependencyAt (assetGraph (mutate id f s).2) j
  = if decide (id = j)
    then match f <$> Graph.getNode (graph (assetGraph s)) j with
         | Some (NDependency d) => Some d
         | _ => None
         end
    else dependencyAt (assetGraph s) j.
Proof.
  unfold dependencyAt. rewrite getNode_mutate. by case_decide.
Qed.

Lemma upKept_mutate id f : (forall n, keepsUp f n) -> preserves upKept (mutate id f).
Proof.
  intros Hf s j. rewrite dependencyAt_mutate. case_decide as Heq; [|done].
  unfold dependencyAt. destruct (Graph.getNode (graph (assetGraph s)) j) as [n|]; [|done].
  simpl. specialize (Hf n). unfold keepsUp in Hf.
  destruct n, (f _); simpl; try done. by rewrite Hf.
Qed.

Lemma downKept_mutate id f s :
  (forall n, Graph.getNode (graph (assetGraph s)) id = Some n -> keepsDown f n) ->
  downKept s (mutate id f s).2.
Proof.
  intros Hf j. rewrite dependencyAt_mutate. case_decide as Heq.
  - subst j. unfold dependencyAt.
    destruct (Graph.getNode (graph (assetGraph s)) id) as [n|]; [|done].
    simpl. specialize (Hf n eq_refl). unfold keepsDown in Hf.
    destruct n, (f _); simpl; try done.
  - destruct (dependencyAt (assetGraph s) j); [|done].
    split; [done|]. intros k Hk. by right.
Qed.

Lemma sameGraph_upKept (f : PState -> PState) :
  (forall s, assetGraph (f s) = assetGraph s) -> preserves upKept (modify f).
Proof. intros Hf s id. unfold modify. simpl. by rewrite Hf. Qed.

Lemma sameGraph_downKept (f : PState -> PState) :
  (forall s, assetGraph (f s) = assetGraph s) -> preserves downKept (modify f).
Proof.
  intros Hf s id. unfold modify. simpl. rewrite Hf.
  destruct (dependencyAt (assetGraph s) id); [|done].
  split; [done|]. intros k Hk. by right.
Qed.

Lemma writesFlags_keepsUp f : writesFlags f -> forall n, keepsUp f n.
Proof.
  intros Hf n. specialize (Hf n). unfold keepsUp.
  by destruct n, (f _); simpl in *; try done; destruct Hf as (_ & _ & _ & ->).
Qed.

Lemma writesFlags_keepsDown f : writesFlags f -> forall n, keepsDown f n.
Proof.
  intros Hf n. specialize (Hf n). unfold keepsDown.
  destruct n, (f _); simpl in *; try done. destruct Hf as (_ & _ & Hd & Hu).
  split; [done|]. intros k Hk. right. by rewrite Hu.
Qed.

Lemma writesUsedSymbols_keepsUp f : writesUsedSymbols f -> forall n, keepsUp f n.
Proof.
  intros Hf n. specialize (Hf n). unfold keepsUp.
  destruct n; simpl in *; try (by rewrite Hf). by destruct Hf as [v ->].
Qed.

Lemma writesUsedSymbols_keepsDown f : writesUsedSymbols f -> forall n, keepsDown f n.
Proof.
  intros Hf n. specialize (Hf n). unfold keepsDown.
  destruct n; simpl in *; try (by rewrite Hf).
  - by destruct Hf as [v ->].
  - rewrite Hf. split; [done|]. intros k Hk. by right.
Qed.

Lemma writesUsedSymbolsDown_keepsUp f : writesUsedSymbolsDown f -> forall n, keepsUp f n.
Proof.
  intros Hf n. specialize (Hf n). unfold keepsUp.
  destruct n; simpl in *; try (by rewrite Hf). by destruct Hf as [v ->].
Qed.

Variable options : ParcelOptions.
Variable flagTables : FlagTables.
Variable getIncomingDependencies : AssetGraph -> nat -> list string.
Variable runFullPassHeuristic : AssetGraph -> nat -> bool.

(** *** The down pass does not write [usedSymbolsUp] *)

Lemma propagateSymbolsDown_upKept fuel changedAssets groups :
  preserves upKept
    (propagateSymbolsDown getIncomingDependencies (downVisitor options flagTables) fuel
       changedAssets groups).
Proof.
  assert (Hflags : forall id f, writesFlags f -> preserves upKept (mutate id f)).
  { intros id f Hf. apply upKept_mutate. by apply writesFlags_keepsUp. }
  apply propagateSymbolsDown_preserves; [typeclasses eauto|exact Hflags| |].
  - apply downVisitor_preserves; [typeclasses eauto|exact Hflags| | |].
    + intros id f Hf. apply upKept_mutate. by apply writesUsedSymbols_keepsUp.
    + intros id f Hf. apply upKept_mutate. by apply writesUsedSymbolsDown_keepsUp.
    + intros k. by apply sameGraph_upKept.
  - intros a i o. by apply sameGraph_upKept.
Qed.

(** *** The up pass only adds requested keys *)

Lemma downKept_flags id f : writesFlags f -> preserves downKept (mutate id f).
Proof.
  intros Hf s. apply downKept_mutate. intros n _. by apply writesFlags_keepsDown.
Qed.

Lemma downKept_usedSymbols id f : writesUsedSymbols f -> preserves downKept (mutate id f).
Proof.
  intros Hf s. apply downKept_mutate. intros n _. by apply writesUsedSymbols_keepsDown.
Qed.

Lemma map_set_keys {V} (m : list (nat * V)) k v j :
  j ∈ (map_set m k v).*1 -> j = k \/ j ∈ m.*1.
Proof.
  induction m as [|[k' v'] m IH]; simpl.
  - intros H. apply list_elem_of_singleton in H. by left.
  - case_decide as Heq; simpl; rewrite !elem_of_cons.
    + subst k'. tauto.
    + intros [->|H]; [tauto|]. destruct (IH H); tauto.
Qed.

(** The symbol [sym] is requested through the dependency under [id]. *)
Lemma setUsedSymbolUp_downKept d sym v s :
  (forall dn, dependencyAt (assetGraph s) d = Some dn -> sym ∈ usedSymbolsDown dn) ->
  downKept s (setUsedSymbolUp d sym v s).2.
Proof.
  intros Hreq. apply downKept_mutate. intros n Hn. unfold keepsDown.
  destruct n as [a|dn|g|r]; simpl; try done.
  split; [done|]. intros k Hk. simpl in Hk. apply map_set_keys in Hk.
  destruct Hk as [->|Hk]; [|by right]. left. apply Hreq.
  unfold dependencyAt. by rewrite Hn.
Qed.

Lemma clearUsedSymbolsUp_downKept d s :
  downKept s (mutate d (onDependency (set_usedSymbolsUp [])) s).2.
Proof.
  apply downKept_mutate. intros n Hn. unfold keepsDown.
  destruct n as [a|dn|g|r]; simpl; try done.
  split; [done|]. intros k Hk. simpl in Hk. by apply elem_of_nil in Hk.
Qed.

Lemma sortUp_downKept d s :
  downKept s (mutate d (onDependency (fun n => set_usedSymbolsUp (sortByKey (usedSymbolsUp n)) n)) s).2.
Proof.
  apply downKept_mutate. intros n Hn. unfold keepsDown.
  destruct n as [a|dn|g|r]; simpl; try done.
  split; [done|]. intros k Hk. right.
  exact (proj1 (sortByKey_keys (usedSymbolsUp dn) k) Hk).
Qed.

Lemma sortChangedDeps_downKept : preserves downKept sortChangedDeps.
Proof.
  unfold sortChangedDeps.
  apply preserves_bind; [typeclasses eauto| |].
  { apply preserves_readonly; [typeclasses eauto|apply readonly_get]. }
  intros s. apply preserves_forEach; [typeclasses eauto|]. intros d s1. apply sortUp_downKept.
Qed.

(** A computation that keeps [downKept] whatever its outcome, seen from a
    state [s0] further back. *)
Lemma wp_downKept {A} (m : M PState A) s0 s :
  downKept s0 s -> preserves downKept m ->
  wp m (fun _ s' => downKept s0 s') (fun s' => downKept s0 s') s.
Proof.
  intros H0 Hm. apply (wp_preserves downKept); [exact Hm| |];
    intros; by transitivity s.
Qed.

Lemma wp_derefDependency id (Q : DependencyNode -> PState -> Prop) (E : PState -> Prop) s :
  (forall dn, dependencyAt (assetGraph s) id = Some dn -> Q dn s) -> E s ->
  wp (derefDependency id) Q E s.
Proof.
  intros HQ HE. unfold wp, derefDependency, dependencyAt in *.
  destruct (Graph.getNode (graph (assetGraph s)) id) as [[a|dn|g|r]|]; auto.
Qed.

(** What is requested through a dependency stays requested. *)
Lemma requested_downKept s s1 d dn dn1 sym :
  downKept s s1 ->
  dependencyAt (assetGraph s) d = Some dn -> sym ∈ usedSymbolsDown dn ->
  dependencyAt (assetGraph s1) d = Some dn1 -> sym ∈ usedSymbolsDown dn1.
Proof.
  intros H Hd Hin Hd1. specialize (H d). rewrite Hd, Hd1 in H.
  destruct H as [-> _]. done.
Qed.

Lemma wp_setUsedSymbolUp d sym v s0 s :
  downKept s0 s ->
  (forall dn, dependencyAt (assetGraph s) d = Some dn -> sym ∈ usedSymbolsDown dn) ->
  wp (setUsedSymbolUp d sym v) (fun _ s' => downKept s0 s') (fun s' => downKept s0 s') s.
Proof.
  intros H0 Hreq. unfold setUsedSymbolUp, mutate. apply wp_modify.
  transitivity s; [exact H0|]. by apply (setUsedSymbolUp_downKept d sym v s).
Qed.

Lemma wp_resolveSymbol a asset rx dep depNode old hasNs errs sym s0 s :
  downKept s0 s ->
  (forall dn, dependencyAt (assetGraph s) dep = Some dn -> sym ∈ usedSymbolsDown dn) ->
  wp (resolveSymbol options flagTables a asset rx dep depNode old hasNs errs sym)
     (fun _ s' => downKept s0 s') (fun s' => downKept s0 s') s.
Proof.
  intros H0 Hreq. unfold resolveSymbol.
  apply wp_bind, wp_readonly; [apply readonly_derefAsset| |done].
  intros assetNode _.
  assert (Hamb : forall value,
            wp (usedSymbolsUpAmbiguous old dep sym value ;;; ret errs)%js
               (fun _ s' => downKept s0 s') (fun s' => downKept s0 s') s).
  { intros value. apply wp_bind. unfold usedSymbolsUpAmbiguous.
    destruct (_ && _); (eapply wp_mono; [by apply wp_setUsedSymbolUp| |done]);
      intros u s' Hs'; by apply wp_ret. }
  destruct (_ || _); [apply Hamb|].
  destruct (map_has _ _); [apply Hamb|].
  destruct (negb hasNs); [|by apply wp_ret].
  apply wp_bind, wp_readonly; [apply readonly_missingExport| |done].
  intros e _. by apply wp_ret.
Qed.

Lemma preserves_wp {A} (R : relation PState) (m : M PState A) :
  (forall s, wp m (fun _ s' => R s s') (fun s' => R s s') s) -> preserves R m.
Proof.
  intros H s. specialize (H s). unfold wp in H. by destruct (m s) as [[a| |] s'].
Qed.

Ltac keep_step :=
  lazymatch goal with
  | |- preserves _ (bind _ _) => apply preserves_bind; [typeclasses eauto| |intros ?]
  | |- preserves _ (forEach _ _) => apply preserves_forEach; [typeclasses eauto|intros ?]
  | |- preserves _ (foldM _ _ _) => apply preserves_foldM; [typeclasses eauto|intros ? ?]
  | |- preserves _ (let _ := _ in _) => cbv zeta
  | |- preserves _ (match ?x with _ => _ end) => destruct x
  | |- preserves _ (addChangedDeps _) => by apply sameGraph_downKept
  | |- preserves _ (mutate _ _) => apply downKept_flags; solve [write_kind]
  | |- preserves _ (recordReexport _ _ _ _ _ _) =>
      apply recordReexport_preserves;
      [typeclasses eauto|apply downKept_usedSymbols|intros ?; by apply sameGraph_downKept]
  | |- _ => apply preserves_readonly; [typeclasses eauto|solve [auto with readonly_db]]
  end.

Lemma resolveIncoming_downKept a asset rx errs dep :
  preserves downKept (resolveIncoming options flagTables a asset rx errs dep).
Proof.
  apply preserves_wp. intros s. unfold resolveIncoming.
  apply wp_bind, wp_derefDependency; [|done]. intros depNode Hd. cbv zeta.
  apply wp_bind. unfold mutate at 1. apply wp_modify.
  pose proof (clearUsedSymbolsUp_downKept dep s) as H1.
  unfold mutate, modify in H1. simpl in H1.
  destruct (d_symbols _) as [syms|]; [|by apply wp_ret].
  apply wp_bind.
  apply (wp_foldM (fun _ s' => downKept s s')); [exact H1| |].
  - intros errs1 x s2 Hx H2. apply wp_resolveSymbol; [exact H2|].
    intros dn Hdn. by eapply requested_downKept.
  - intros errs1 s2 H2. apply wp_downKept; [exact H2|]. repeat keep_step.
Qed.

Lemma collectReexports_downKept a inverse rx dep :
  preserves downKept (collectReexports options a inverse rx dep).
Proof.
  apply preserves_wp. intros s. unfold collectReexports.
  apply wp_bind, wp_derefDependency; [|done]. intros depNode Hd.
  destruct (d_symbols _) as [syms|]; [|by apply wp_ret].
  apply wp_bind, wp_readonly; [apply readonly_getNodeIdByContentKey| |done].
  intros depNodeId _.
  apply wp_bind, wp_readonly; [apply readonly_getNodeIdsConnectedFrom| |done].
  intros connected _. cbv zeta.
  apply wp_bind.
  destruct (bool_decide _).
  - apply (wp_forEach (fun s' => downKept s s')); [reflexivity| |].
    + intros x s1 Hx H1. apply wp_setUsedSymbolUp; [exact H1|].
      intros dn Hdn. by eapply requested_downKept.
    + intros s1 H1. apply wp_downKept; [exact H1|]. repeat keep_step.
  - apply wp_ret. apply wp_downKept; [reflexivity|]. repeat keep_step.
Qed.

Lemma upVisitor_downKept a incoming outgoing :
  preserves downKept (upVisitor options flagTables a incoming outgoing).
Proof.
  unfold upVisitor. repeat keep_step.
  - apply collectReexports_downKept.
  - apply resolveIncoming_downKept.
Qed.

Lemma propagateSymbolsUp_downKept fuel changedAssets changedDown previousErrors :
  preserves downKept
    (propagateSymbolsUp getIncomingDependencies runFullPassHeuristic
       (upVisitor options flagTables) fuel changedAssets changedDown previousErrors).
Proof.
  apply propagateSymbolsUp_preserves; [typeclasses eauto|apply downKept_flags| |].
  - apply visitAndStore_preserves; [typeclasses eauto|apply downKept_flags| | |].
    + intros v. by apply sameGraph_downKept.
    + intros f. by apply sameGraph_downKept.
    + apply upVisitor_downKept.
  - intros f. by apply sameGraph_downKept.
Qed.

(** *** The whole propagation *)

Lemma propagateSymbols_body_upRequestedOrStale fuel changed groups previousErrors s :
  upRequestedOrStale s
    (propagateSymbols_body options flagTables getIncomingDependencies runFullPassHeuristic
       fuel changed groups previousErrors s).2.
Proof.
  assert (H : wp (propagateSymbols_body options flagTables getIncomingDependencies
                    runFullPassHeuristic fuel changed groups previousErrors)
                 (fun _ s' => upRequestedOrStale s s') (fun s' => upRequestedOrStale s s') s).
  { unfold propagateSymbols_body.
    assert (Hrefl : upRequestedOrStale s s) by (apply upKept_upRequestedOrStale; reflexivity).
    apply wp_bind, wp_readonly;
      [apply readonly_mapM; intros ?; apply readonly_getNodeIdByContentKey| |done].
    intros ids _. cbv zeta.
    apply wp_bind.
    apply (wp_preserves upKept); [apply propagateSymbolsDown_upKept| |];
      [|intros s1 H1; by apply upKept_upRequestedOrStale].
    intros u s1 H1. apply wp_bind, wp_get.
    apply wp_bind.
    apply (wp_preserves downKept); [apply propagateSymbolsUp_downKept| |];
      [|intros s2 H2; by eapply upKept_downKept].
    intros errs s2 H2. apply wp_bind.
    apply (wp_preserves downKept); [apply sortChangedDeps_downKept| |];
      [|intros s3 H3; eapply upKept_downKept; [exact H1|by transitivity s2]].
    intros u' s3 H3. apply wp_ret.
    eapply upKept_downKept; [exact H1|by transitivity s2]. }
  unfold wp in H. by destruct (propagateSymbols_body _ _ _ _ _ _ _ _ s) as [[errs| |] s'].
Qed.
End StaleFacts.



(** X22: for a dependency whose [usedSymbolsUp] is empty on entry, as it is
    for every dependency of a first build, [usedSymbolsDown] is a superset
    of the keys of [usedSymbolsUp] afterwards, whatever [propagateSymbols]
    does. *)
Theorem first_build_keeps_usedSymbolsUp_within_usedSymbolsDown
    (options : SymbolPropagation.ParcelOptions)
    (flagTables : SymbolPropagation.FlagTables)
    (getIncomingDependencies : SymbolPropagation.AssetGraph -> nat -> list string)
    (runFullPassHeuristic : SymbolPropagation.AssetGraph -> nat -> bool)
    (fuel : nat) (g : SymbolPropagation.AssetGraph) (changed : list string)
    (groups : list nat)
    (previousErrors : option (gmap nat (list SymbolPropagation.Diagnostic)))
    (id : nat) :
  (forall d, PropagationSpec.dependencyAt g id = Some d -> SymbolPropagation.usedSymbolsUp d = []) ->
  PropagationSpec.upWithinDown
    (SymbolPropagation.assetGraph
       (SymbolPropagation.propagateSymbols options flagTables getIncomingDependencies
          runFullPassHeuristic fuel g changed groups previousErrors).2) id.
Proof.
  intros Hempty.
  pose proof (propagateSymbols_body_upRequestedOrStale options flagTables
                getIncomingDependencies runFullPassHeuristic fuel changed groups previousErrors
                (SymbolPropagation.mkPState g [] [] ∅ [] []) id) as H.
  unfold PropagationSpec.upWithinDown, SymbolPropagation.propagateSymbols. simpl in H.
  set (s' := (SymbolPropagation.propagateSymbols_body _ _ _ _ _ _ _ _ _).2) in *.
  destruct (PropagationSpec.dependencyAt g id) as [before|] eqn:Hb;
    destruct (PropagationSpec.dependencyAt (SymbolPropagation.assetGraph s') id) as [after|];
    try done.
  intros k Hk. destruct (H k Hk) as [Hin|Hin]; [done|].
  rewrite (Hempty before eq_refl) in Hin. by apply elem_of_nil in Hin.
Qed.

(** The dependency [O] of the first build of [root -> entry -> A -> O]. *)
Lemma first_build_keeps_usedSymbolsUp_within_usedSymbolsDown_witness :
  PropagationSpec.upWithinDown
    (SymbolPropagation.assetGraph
       (PropagationExamples.propagate false PropagationExamples.unresolvedImports
          ["A"] [] None).2) 3.
Proof.
  apply (first_build_keeps_usedSymbolsUp_within_usedSymbolsDown PropagationExamples.options
           PropagationExamples.flagTables PropagationExamples.getIncomingDependencies
           (fun _ _ => false) 30 PropagationExamples.unresolvedImports ["A"] [] None 3).
  intros d Hd. vm_compute in Hd. by injection Hd as <-.
Defined.

(** ** The other accessors of the asset classes *)

Section AssetAccessorFacts.
Import AssetFlagBits AssetAccessors.
Local Open Scope Z_scope.

(** The 32-bit reading keeps the low 32 bits. *)
Lemma to_int32_testbit (z i : Z) : 0 <= i < 32 -> Z.testbit (to_int32 z) i = Z.testbit z i.
Proof.
  intros Hi.
  rewrite <- (Z.mod_pow2_bits_low (to_int32 z) 32 i) by lia.
  rewrite to_int32_mod. apply Z.mod_pow2_bits_low. lia.
Qed.

Lemma to_int32_ext (x y : Z) :
  (forall i, 0 <= i < 32 -> Z.testbit x i = Z.testbit y i) -> to_int32 x = to_int32 y.
Proof.
  intros H.
  assert (Hm : x mod 2 ^ 32 = y mod 2 ^ 32).
  { apply Z.bits_inj'. intros i Hi.
    destruct (Z.lt_ge_cases i 32).
    - rewrite !Z.mod_pow2_bits_low by lia. apply H. lia.
    - rewrite !Z.mod_pow2_bits_high by lia. reflexivity. }
  unfold to_int32. f_equal.
  rewrite <- (Zplus_mod_idemp_l x), <- (Zplus_mod_idemp_l y), Hm. reflexivity.
Qed.

Lemma to_int32_nonzero_bit (z : Z) :
  to_int32 z <> 0 -> exists i, 0 <= i < 32 /\ Z.testbit z i = true.
Proof.
  intros Hz.
  destruct (decide (Exists (fun i => Z.testbit z (Z.of_nat i) = true) (seq 0 32)))
    as [Hex|Hno].
  - apply Exists_exists in Hex. destruct Hex as (i & Hin & Hi).
    apply elem_of_seq in Hin. exists (Z.of_nat i). split; [lia|done].
  - exfalso. apply Hz. rewrite <- (to_int32_ext 0 z); [reflexivity|].
    intros i Hi. rewrite Z.bits_0. symmetry.
    destruct (Z.testbit z i) eqn:Hb; [|done].
    exfalso. apply Hno. apply Exists_exists. exists (Z.to_nat i).
    split; [apply elem_of_seq; lia|]. rewrite Z2Nat.id by lia. done.
Qed.

Lemma js_and_testbit a b i : 0 <= i < 32 ->
  Z.testbit (js_and a b) i = Z.testbit a i && Z.testbit b i.
Proof.
  intros Hi. unfold js_and. rewrite to_int32_testbit, Z.land_spec, !to_int32_testbit by lia.
  reflexivity.
Qed.

Lemma js_or_testbit a b i : 0 <= i < 32 ->
  Z.testbit (js_or a b) i = Z.testbit a i || Z.testbit b i.
Proof.
  intros Hi. unfold js_or. rewrite to_int32_testbit, Z.lor_spec, !to_int32_testbit by lia.
  reflexivity.
Qed.

Lemma js_not_testbit a i : 0 <= i < 32 -> Z.testbit (js_not a) i = negb (Z.testbit a i).
Proof.
  intros Hi. unfold js_not. rewrite to_int32_testbit, Z.lnot_spec, to_int32_testbit by lia.
  reflexivity.
Qed.

Lemma to_int32_idemp z : to_int32 (to_int32 z) = to_int32 z.
Proof. apply to_int32_ext. intros i Hi. by apply to_int32_testbit. Qed.

Lemma js_and_int32 a b : to_int32 (js_and a b) = js_and a b.
Proof. unfold js_and. apply to_int32_idemp. Qed.

Lemma js_int32_ext x y :
  to_int32 x = x -> to_int32 y = y ->
  (forall i, 0 <= i < 32 -> Z.testbit x i = Z.testbit y i) -> x = y.
Proof. intros Hx Hy H. rewrite <- Hx, <- Hy. by apply to_int32_ext. Qed.


Lemma js_and_clear flags flag : js_and (js_and flags (js_not flag)) flag = 0.
Proof.
  apply js_int32_ext; [apply js_and_int32|reflexivity|].
  intros i Hi. rewrite !js_and_testbit, js_not_testbit, Z.bits_0 by lia.
  destruct (Z.testbit flags i), (Z.testbit flag i); reflexivity.
Qed.

Lemma flagOf_meta_set (AssetFlags : MetaFlagsT) {Value} (truthy : Value -> bool)
    (a : ProxiedAsset) prop value flag :
  flagOf AssetFlags prop = Some flag ->
  pa_meta (meta_set AssetFlags truthy a prop value) = pa_meta a
  /\ pa_flags (meta_set AssetFlags truthy a prop value)
     = if truthy value then js_or (pa_flags a) flag else js_and (pa_flags a) (js_not flag).
Proof.
  intros Hf. unfold meta_set. rewrite Hf. by destruct (truthy value).
Qed.





(** X3: [bundleBehavior] reads back as assigned, except that the empty
    string and ['none'] read back as [null]; the getter never answers
    ['none']. *)
Theorem bundleBehavior_reads_back (bundleBehavior : option string) :
  (get_bundleBehavior (set_bundleBehavior bundleBehavior) = bundleBehavior
   <-> bundleBehavior <> Some "" /\ bundleBehavior <> Some "none")
  /\ get_bundleBehavior (set_bundleBehavior bundleBehavior) <> Some "none"
  /\ set_bundleBehavior bundleBehavior <> "".
Proof.
  unfold get_bundleBehavior, set_bundleBehavior.
  destruct bundleBehavior as [b|]; simpl.
  - destruct (bool_decide (b = "")) eqn:He.
    + apply bool_decide_eq_true in He. subst b. simpl.
      repeat split; try discriminate. intros [H _]. by destruct H.
    + apply bool_decide_eq_false in He.
      destruct (bool_decide (b = "none")) eqn:Hn.
      * apply bool_decide_eq_true in Hn. subst b.
        repeat split; try discriminate. intros [_ H]. by destruct H.
      * apply bool_decide_eq_false in Hn.
        repeat split; try congruence.
  - repeat split; try discriminate.
Qed.

Lemma assign_uniqueKeys_set keys k : assign_uniqueKeys keys (Some k) = Some k.
Proof. induction keys as [|k' keys IH]; simpl; auto. Qed.

(** X4: [uniqueKey] is written once: after any run of assignments the
    stored key is the one that was there, or else the first key assigned
    that is not [null]; every later assignment throws and changes nothing. *)
Theorem uniqueKey_is_written_once (keys : list (option string)) (stored : option string) :
  assign_uniqueKeys keys stored
  = match stored with
    | Some k => Some k
    | None => head (omap id keys)
    end
  /\ forall k key, set_uniqueKey key (Some k)
                   = (Throw "Cannot change an asset's uniqueKey after it has been set.", Some k).
Proof.
  split; [|reflexivity].
  destruct stored as [k|]; [apply assign_uniqueKeys_set|].
  induction keys as [|[k|] keys IH]; simpl; auto.
  apply assign_uniqueKeys_set.
Qed.

(** X5: the [sideEffects] and [isBundleSplittable] setters never clear a
    flag: whatever mask a getter tests, if it answered [true] before the
    assignment it answers [true] after it; and assigning twice is assigning
    once. *)
Theorem flag_setters_never_clear_a_flag (AssetFlags : AssetFlagsT) (flags mask : Z)
    (value value' : bool) :
  js_Boolean (js_and flags mask) = true ->
  js_Boolean (js_and (set_sideEffects AssetFlags flags value) mask) = true
  /\ js_Boolean (js_and (set_isBundleSplittable AssetFlags flags value) mask) = true
  /\ set_sideEffects AssetFlags (set_sideEffects AssetFlags flags value) value'
     = set_sideEffects AssetFlags flags value
  /\ set_isBundleSplittable AssetFlags (set_isBundleSplittable AssetFlags flags value) value'
     = set_isBundleSplittable AssetFlags flags value.
Proof.
  intros Hset. unfold js_Boolean in *.
  apply negb_true_iff, Z.eqb_neq in Hset.
  rewrite <- js_and_int32 in Hset.
  apply to_int32_nonzero_bit in Hset. destruct Hset as (i & Hi & Hbit).
  rewrite js_and_testbit in Hbit by lia. apply andb_true_iff in Hbit. destruct Hbit as [Hf Hm].
  assert (Hor : forall bit, js_and (js_or flags bit) mask <> 0).
  { intros bit Hz. assert (Hb : Z.testbit (js_and (js_or flags bit) mask) i = false)
      by (rewrite Hz; apply Z.bits_0).
    rewrite js_and_testbit, js_or_testbit, Hf, Hm in Hb by lia. discriminate. }
  assert (Hidem : forall bit, js_or (js_or flags bit) bit = js_or flags bit).
  { intros bit. apply js_int32_ext; [apply to_int32_idemp|apply to_int32_idemp|].
    intros j Hj. rewrite !js_or_testbit by lia.
    destruct (Z.testbit flags j), (Z.testbit bit j); reflexivity. }
  unfold set_sideEffects, set_isBundleSplittable.
  repeat split; try apply Hidem; apply negb_true_iff, Z.eqb_neq, Hor.
Qed.

Lemma flag_setters_never_clear_a_flag_witness :
  let AssetFlags := {| IS_BUNDLE_SPLITTABLE := 2; SIDE_EFFECTS := 4 |} in
  js_Boolean (js_and (set_sideEffects AssetFlags 1 false) 1) = true
  /\ js_Boolean (js_and (set_isBundleSplittable AssetFlags 1 false) 1) = true
  /\ set_sideEffects AssetFlags (set_sideEffects AssetFlags 1 false) true
     = set_sideEffects AssetFlags 1 false
  /\ set_isBundleSplittable AssetFlags (set_isBundleSplittable AssetFlags 1 false) true
     = set_isBundleSplittable AssetFlags 1 false.
Proof.
  apply (flag_setters_never_clear_a_flag {| IS_BUNDLE_SPLITTABLE := 2; SIDE_EFFECTS := 4 |}
           1 1 false true).
  reflexivity.
Defined.

End AssetAccessorFacts.

(** ** Graph: what the removals remove *)

Section RemovalFacts.
Import Graph GraphMethods.
Context {TNode : Type}.
Implicit Types g : Graph.t TNode.

#[global] Instance onlyRemoved_preorder : PreOrder (@onlyRemoved TNode).
Proof.
  split.
  - intros g. by repeat split.
  - intros g1 g2 g3 (Hn1 & He1 & Hr1 & Hc1) (Hn2 & He2 & Hr2 & Hc2).
    repeat split; try congruence; by etrans.
Qed.

Lemma readonly_assertHasNodeId {St} g n : readonly (@_assertHasNodeId TNode St g n).
Proof. intros s. unfold _assertHasNodeId. by destruct (hasNode g n). Qed.

Lemma onlyRemoved_unlink g from to type : onlyRemoved g (unlink g from to type).
Proof.
  repeat split; simpl; try reflexivity. apply sublist_filter.
Qed.

Lemma onlyRemoved_delete g nodeId :
  onlyRemoved g (mkGraph (delete nodeId (nodes g)) (adjacencyList g) (rootNodeId g)
                   (nextNodeId g)).
Proof. repeat split; simpl; try reflexivity. apply delete_subseteq. Qed.

Ltac removal_step :=
  lazymatch goal with
  | |- preserves _ (bind _ _) => apply preserves_bind; [typeclasses eauto| |intros ?]
  | |- preserves _ (forEach _ _) => apply preserves_forEach; [typeclasses eauto|intros [? ?]]
  | |- preserves _ (modify _) => apply preserves_modify; intros ?
  | |- preserves _ get => apply preserves_readonly; [typeclasses eauto|apply readonly_get]
  | |- preserves _ (ret _) => apply preserves_readonly; [typeclasses eauto|apply readonly_ret]
  | |- preserves _ (throw _) => apply preserves_readonly; [typeclasses eauto|apply readonly_throw]
  | |- preserves _ timeout => apply preserves_readonly; [typeclasses eauto|apply readonly_timeout]
  | |- preserves _ (invariant _) =>
      apply preserves_readonly; [typeclasses eauto|apply readonly_invariant]
  | |- preserves _ (_assertHasNodeId _ _) =>
      apply preserves_readonly; [typeclasses eauto|apply readonly_assertHasNodeId]
  | |- preserves _ (if ?b then _ else _) => destruct b
  end.

Lemma removeNode_with_onlyRemoved
    (removeEdge : nat -> nat -> nat -> bool -> M (Graph.t TNode) unit) nodeId :
  (forall from to type removeOrphans,
      preserves onlyRemoved (removeEdge from to type removeOrphans)) ->
  preserves onlyRemoved (removeNode_with removeEdge nodeId).
Proof.
  intros Hre. unfold removeNode_with.
  repeat first [removal_step | apply Hre | apply onlyRemoved_delete].
Qed.

Lemma removeEdge_onlyRemoved fuel :
  forall from to type removeOrphans,
    preserves onlyRemoved (@removeEdge TNode fuel from to type removeOrphans).
Proof.
  induction fuel as [|fuel IH]; intros from to type removeOrphans; simpl.
  - removal_step.
  - repeat first [removal_step | apply onlyRemoved_unlink].
    + apply preserves_readonly; [typeclasses eauto|]. by intros s.
    + by apply removeNode_with_onlyRemoved.
Qed.

(** The root is found by the first callback of the backwards traversal. *)
Lemma isOrphanedNode_root fuel g root :
  rootNodeId g = Some root -> hasNode g root = true ->
  isOrphanedNode (Datatypes.S fuel) g root = Ok false.
Proof.
  intros Hroot Hhas. unfold isOrphanedNode. rewrite Hhas, Hroot. simpl.
  unfold traverseAncestors_run, dfs_run. simpl. rewrite Hhas.
  simpl. unfold bind, get, modify, invoke. simpl. rewrite Hhas. simpl.
  rewrite Hroot. rewrite bool_decide_eq_true_2 by done. simpl. reflexivity.
Qed.

Lemma hasNode_unlink g from to type n : hasNode (unlink g from to type) n = hasNode g n.
Proof. reflexivity. Qed.

Lemma onlyRemoved_hasEdge g g' from to type :
  onlyRemoved g g' -> hasEdge g from to type = false -> hasEdge g' from to type = false.
Proof.
  intros (_ & He & _) H. unfold hasEdge, AdjacencyList.hasEdge in *.
  apply bool_decide_eq_false in H. apply bool_decide_eq_false. intros Hin.
  apply H. by eapply elem_of_sublist.
Qed.

Lemma onlyRemoved_hasNode g g' n :
  onlyRemoved g g' -> hasNode g' n = true -> hasNode g n = true.
Proof.
  intros (Hn & _) H. unfold hasNode in *.
  apply bool_decide_eq_true in H. apply bool_decide_eq_true.
  by eapply lookup_weaken_is_Some.
Qed.

Lemma hasEdge_unlink g from to type : hasEdge (unlink g from to type) from to type = false.
Proof.
  unfold hasEdge, AdjacencyList.hasEdge, unlink, AdjacencyList.removeEdge. simpl.
  apply bool_decide_eq_false. rewrite list_elem_of_filter. intros [H _]. by apply H.
Qed.

(** What is known of a state reached under a preserved relation. *)
Lemma preserves_run {St A} (R : relation St) (m : M St A) s r s' :
  preserves R m -> m s = (r, s') -> R s s'.
Proof. intros H Hm. specialize (H s). by rewrite Hm in H. Qed.

(** A [removeEdge] that returns has unlinked its edge for good. *)
Lemma removeEdge_unlinked fuel g from to type removeOrphans g' :
  removeEdge fuel from to type removeOrphans g = (Ok tt, g') ->
  hasEdge g from to type = true /\ hasEdge g' from to type = false.
Proof.
  destruct fuel as [|fuel]; [discriminate|].
  intros H.
  pose (rest := (if removeOrphans
                 then g <- get ;;
                      orphaned <- (fun s => (isOrphanedNode fuel g to, s)) ;;
                      if orphaned : bool then removeNode_with (removeEdge fuel) to
                      else ret tt
                 else ret tt)%js : M (Graph.t TNode) unit).
  assert (Hstep : removeEdge (Datatypes.S fuel) from to type removeOrphans g
                  = if negb (hasEdge g from to type) then (Throw "Edge not found!", g)
                    else rest (unlink g from to type)).
  { unfold rest, hasEdge. simpl. unfold bind, get, modify. simpl.
    by destruct (AdjacencyList.hasEdge (adjacencyList g) from to type). }
  rewrite Hstep in H. destruct (hasEdge g from to type); [|discriminate].
  split; [done|]. simpl in H.
  eapply onlyRemoved_hasEdge; [|apply hasEdge_unlink].
  eapply (preserves_run onlyRemoved rest); [|exact H].
  unfold rest. destruct removeOrphans.
  - apply preserves_bind; [typeclasses eauto| |].
    { apply preserves_readonly; [typeclasses eauto|apply readonly_get]. }
    intros g0. apply preserves_bind; [typeclasses eauto| |].
    + apply preserves_readonly; [typeclasses eauto|]. by intros s.
    + intros [|].
      * apply removeNode_with_onlyRemoved. apply removeEdge_onlyRemoved.
      * apply preserves_readonly; [typeclasses eauto|apply readonly_ret].
  - apply preserves_readonly; [typeclasses eauto|apply readonly_ret].
Qed.

Lemma forEach_removeEdge fuel from type (children : list nat) :
  forall g g',
    forEach children (fun child => removeEdge fuel from child type true) g = (Ok tt, g') ->
    onlyRemoved g g' /\ forall child, child ∈ children -> hasEdge g' from child type = false.
Proof.
  induction children as [|c children IH]; intros g g' H; simpl in H.
  - inversion H; subst. split; [reflexivity|]. intros child Hin. by apply elem_of_nil in Hin.
  - unfold bind in H.
    destruct (removeEdge fuel from c type true g) as [[[]| |] g1] eqn:Hc; try discriminate.
    apply IH in H. destruct H as [Hrem Habs].
    pose proof (preserves_run _ _ _ _ _ (removeEdge_onlyRemoved fuel from c type true) Hc)
      as Hrem1.
    split; [by etrans|].
    intros child Hin. apply elem_of_cons in Hin. destruct Hin as [->|Hin]; [|by apply Habs].
    eapply onlyRemoved_hasEdge; [exact Hrem|].
    apply removeEdge_unlinked in Hc. by destruct Hc.
Qed.

Lemma elem_of_dedup seen l x : x ∈ dedup seen l <-> x ∈ l /\ x ∉ seen.
Proof.
  revert seen. induction l as [|y l IH]; intros seen; simpl.
  - split; [intros H; by apply elem_of_nil in H|intros [H _]; by apply elem_of_nil in H].
  - case_bool_decide as Hy.
    + rewrite IH, elem_of_cons. split; [tauto|].
      intros [[->|Hin] Hn]; [done|tauto].
    + rewrite !elem_of_cons, IH, elem_of_cons. split.
      * intros [->|[Hin Hn]]; [tauto|]. split; [tauto|]. tauto.
      * intros [[->|Hin] Hn]; [tauto|].
        destruct (decide (x = y)); [tauto|]. right. tauto.
Qed.

Lemma elem_of_getNodesConnectedFrom (adj : AdjacencyList.t) n type m :
  m ∈ AdjacencyList.getNodesConnectedFrom adj n type
  <-> exists t, matchesType type t = true /\ mkEdge n m t ∈ adj.
Proof.
  unfold AdjacencyList.getNodesConnectedFrom.
  rewrite elem_of_dedup, list_elem_of_fmap. split.
  - intros [(e & -> & He) _]. apply list_elem_of_filter in He. destruct He as [[Hf Ht] He].
    exists (e_type e). split; [done|]. destruct e; simpl in *. by subst.
  - intros (t & Ht & He). split; [|apply not_elem_of_nil].
    exists (mkEdge n m t). split; [done|]. apply list_elem_of_filter. by split.
Qed.

Lemma elem_of_getNodesConnectedTo (adj : AdjacencyList.t) n type m :
  m ∈ AdjacencyList.getNodesConnectedTo adj n type
  <-> exists t, matchesType type t = true /\ mkEdge m n t ∈ adj.
Proof.
  unfold AdjacencyList.getNodesConnectedTo.
  rewrite elem_of_dedup, list_elem_of_fmap. split.
  - intros [(e & -> & He) _]. apply list_elem_of_filter in He. destruct He as [[Hf Ht] He].
    exists (e_type e). split; [done|]. destruct e; simpl in *. by subst.
  - intros (t & Ht & He). split; [|apply not_elem_of_nil].
    exists (mkEdge m n t). split; [done|]. apply list_elem_of_filter. by split.
Qed.

Lemma matchesType_one type t : matchesType (OneType type) t = true <-> t = type.
Proof. simpl. by rewrite bool_decide_eq_true. Qed.

Lemma hasEdge_connectedFrom g n type m :
  hasEdge g n m type = true
  <-> m ∈ AdjacencyList.getNodesConnectedFrom (adjacencyList g) n (OneType type).
Proof.
  rewrite elem_of_getNodesConnectedFrom. unfold hasEdge, AdjacencyList.hasEdge.
  rewrite bool_decide_eq_true. split.
  - intros H. exists type. split; [by apply matchesType_one|done].
  - intros (t & Ht & H). apply matchesType_one in Ht. by subst.
Qed.

End RemovalFacts.

(** X6: [removeEdge] and [removeNode] only remove, whatever they return:
    the nodes and edges left are nodes and edges that were there, in the
    same order; nothing is added, and [rootNodeId] stays as it was, also when
    the node it names is removed or the call throws half way. *)
Theorem removals_only_remove {TNode : Type} (fuel : nat) (g : Graph.t TNode)
    (from to type nodeId : nat) (removeOrphans : bool) :
  onlyRemoved g (Graph.removeEdge fuel from to type removeOrphans g).2
  /\ onlyRemoved g (Graph.removeNode fuel nodeId g).2.
Proof.
  split.
  - apply removeEdge_onlyRemoved.
  - apply removeNode_with_onlyRemoved. apply removeEdge_onlyRemoved.
Qed.

(** X7: the root is never pruned: [isOrphanedNode] answers [false] for the
    root node, so removing an edge into the root unlinks the edge and
    nothing else. *)
Theorem removeEdge_never_prunes_the_root {TNode : Type} (fuel : nat) (g : Graph.t TNode)
    (from root type : nat) :
  Graph.rootNodeId g = Some root ->
  Graph.hasNode g root = true ->
  Graph.hasEdge g from root type = true ->
  Graph.isOrphanedNode (S fuel) g root = Ok false
  /\ Graph.removeEdge (S (S fuel)) from root type true g = (Ok tt, unlink g from root type).
Proof.
  intros Hroot Hhas Hedge. split; [by apply isOrphanedNode_root|].
  apply removeEdge_not_orphaned; [done|].
  by apply isOrphanedNode_root.
Qed.

(** X8: when [removeEdges] returns, no edge of the given type leaves the
    node any more, and nothing was added to the graph. *)
Theorem removeEdges_leaves_no_edge {TNode : Type} (fuel : nat) (g g' : Graph.t TNode)
    (nodeId type : nat) :
  GraphMethods.removeEdges fuel nodeId type g = (Ok tt, g') ->
  onlyRemoved g g' /\ forall to, Graph.hasEdge g' nodeId to type = false.
Proof.
  unfold GraphMethods.removeEdges, bind, get, Graph._assertHasNodeId,
    Graph.getNodeIdsConnectedFrom. simpl.
  destruct (Graph.hasNode g nodeId); simpl; [|discriminate].
  intros H. apply forEach_removeEdge in H. destruct H as [Hrem Habs].
  split; [done|]. intros to.
  destruct (Graph.hasEdge g nodeId to type) eqn:He.
  - apply Habs. by apply hasEdge_connectedFrom.
  - by eapply onlyRemoved_hasEdge.
Qed.

Section EditFacts.
Import Graph GraphMethods.
Context {TNode : Type}.
Implicit Types g : Graph.t TNode.

Lemma elem_of_set_add {K} `{EqDecision K} (s : list K) k x :
  x ∈ set_add s k <-> x ∈ s \/ x = k.
Proof.
  unfold set_add, set_has. case_bool_decide as Hk.
  - split; [tauto|]. intros [H| ->]; done.
  - rewrite elem_of_app, list_elem_of_singleton. tauto.
Qed.

Lemma elem_of_set_of_list_from {K} `{EqDecision K} (l acc : list K) x :
  x ∈ foldl set_add acc l <-> x ∈ acc \/ x ∈ l.
Proof.
  revert acc. induction l as [|y l IH]; intros acc; simpl.
  - rewrite elem_of_nil. tauto.
  - rewrite IH, elem_of_set_add, elem_of_cons. tauto.
Qed.

Lemma elem_of_set_of_list {K} `{EqDecision K} (l : list K) x : x ∈ set_of_list l <-> x ∈ l.
Proof.
  unfold set_of_list. rewrite elem_of_set_of_list_from, elem_of_nil. tauto.
Qed.

Lemma elem_of_set_delete {K} `{EqDecision K} (s : list K) k x :
  x ∈ set_delete s k <-> x ∈ s /\ x <> k.
Proof. unfold set_delete. rewrite list_elem_of_filter. tauto. Qed.

(** What a successful or failed [addEdge] leaves. *)
Lemma addEdge_inv from to type g r g' :
  addEdge from to type g = (r, g') ->
  nodes g' = nodes g /\ rootNodeId g' = rootNodeId g /\ nextNodeId g' = nextNodeId g
  /\ (forall e, e ∈ adjacencyList g' <->
                e ∈ adjacencyList g \/ (e = mkEdge from to type /\ exists b, r = Ok b)).
Proof.
  assert (Hfail : forall e msg,
            e ∈ adjacencyList g <->
            e ∈ adjacencyList g \/ (e = mkEdge from to type /\ exists b : bool, Throw msg = Ok b)).
  { intros e msg. split; [tauto|]. intros [H|[_ [b Hb]]]; [done|discriminate]. }
  unfold addEdge. intros H.
  destruct (type =? 0)%nat;
    [injection H as Hr Hg; subst r g'; repeat split; auto; apply Hfail|].
  destruct (negb (hasNode g from));
    [injection H as Hr Hg; subst r g'; repeat split; auto; apply Hfail|].
  destruct (negb (hasNode g to));
    [injection H as Hr Hg; subst r g'; repeat split; auto; apply Hfail|].
  unfold AdjacencyList.addEdge in H.
  destruct (AdjacencyList.hasEdge (adjacencyList g) from to type) eqn:He;
    injection H as Hr Hg; subst r g'; simpl; repeat split; auto.
  - intros [Hin|[-> _]]; [done|].
    unfold AdjacencyList.hasEdge in He. by apply bool_decide_eq_true in He.
  - rewrite elem_of_app, list_elem_of_singleton. intros [Hin| ->]; [by left|].
    right. split; [done|by exists true].
  - rewrite elem_of_app, list_elem_of_singleton. intros [Hin|[-> _]]; tauto.
Qed.

Lemma addEdge_grows from to type (tos : list nat) g b g1 :
  addEdge from to type g = (b, g1) -> to ∈ tos ->
  nodes g1 = nodes g /\ rootNodeId g1 = rootNodeId g /\ nextNodeId g1 = nextNodeId g
  /\ forall e, e ∈ adjacencyList g1 ->
       e ∈ adjacencyList g \/ exists to', to' ∈ tos /\ e = mkEdge from to' type.
Proof.
  intros Hadd Hto. apply addEdge_inv in Hadd. destruct Hadd as (Hn1 & Hr1 & Hc1 & He1).
  split; [done|]. split; [done|]. split; [done|].
  intros e Hin. apply He1 in Hin. destruct Hin as [Hin|[-> _]]; [by left|].
  right. by exists to.
Qed.

(** The first loop of [replaceNodeIdsConnectedTo]: edges from [from] to the
    new children are added and the new children leave [childrenToRemove]. *)
Lemma replace_adds from type (toNodeIds : list nat) :
  forall (childrenToRemove : list nat) g r g',
    SymbolPropagation.foldM
      (fun childrenToRemove toNodeId =>
         g <- get ;;
         (if negb (hasEdge g from toNodeId type)
          then addEdge from toNodeId type ;;; ret tt
          else ret tt) ;;;
         ret (set_delete childrenToRemove toNodeId))%js
      toNodeIds childrenToRemove g = (r, g') ->
    nodes g' = nodes g /\ rootNodeId g' = rootNodeId g /\ nextNodeId g' = nextNodeId g
    /\ (forall e, e ∈ adjacencyList g' ->
                  e ∈ adjacencyList g \/ exists to, to ∈ toNodeIds /\ e = mkEdge from to type)
    /\ (forall rest, r = Ok rest ->
          forall c, c ∈ rest <-> c ∈ childrenToRemove /\ c ∉ toNodeIds).
Proof.
  induction toNodeIds as [|to toNodeIds IH]; intros ctr g r g' H; simpl in H.
  - injection H as <- <-. split; [done|]. split; [done|]. split; [done|]. split.
    + intros e Hin. by left.
    + intros rest [= <-] c. rewrite elem_of_nil. tauto.
  - unfold bind at 1 in H. unfold bind at 1 in H. unfold get at 1 in H. simpl in H.
    unfold bind at 1 in H.
    assert (Hnext : forall g1 r',
              nodes g1 = nodes g /\ rootNodeId g1 = rootNodeId g /\ nextNodeId g1 = nextNodeId g
              /\ (forall e, e ∈ adjacencyList g1 ->
                   e ∈ adjacencyList g
                   \/ exists to', to' ∈ to :: toNodeIds /\ e = mkEdge from to' type) ->
              SymbolPropagation.foldM
                (fun childrenToRemove toNodeId =>
                   g <- get ;;
                   (if negb (hasEdge g from toNodeId type)
                    then addEdge from toNodeId type ;;; ret tt
                    else ret tt) ;;;
                   ret (set_delete childrenToRemove toNodeId))%js
                toNodeIds (set_delete ctr to) g1 = (r', g') ->
              nodes g' = nodes g /\ rootNodeId g' = rootNodeId g /\ nextNodeId g' = nextNodeId g
              /\ (forall e, e ∈ adjacencyList g' ->
                   e ∈ adjacencyList g
                   \/ exists to', to' ∈ to :: toNodeIds /\ e = mkEdge from to' type)
              /\ (forall rest, r' = Ok rest ->
                    forall c, c ∈ rest <-> c ∈ ctr /\ c ∉ to :: toNodeIds)).
    { intros g1 r' (Hn1 & Hr1 & Hc1 & He1) Hrun.
      apply IH in Hrun. destruct Hrun as (Hn & Hr & Hc & He & Hrest).
      split; [congruence|]. split; [congruence|]. split; [congruence|]. split.
      - intros e Hin. apply He in Hin. destruct Hin as [Hin|(to' & Hto & ->)].
        + by apply He1.
        + right. exists to'. split; [by right|done].
      - intros rest Hok c.
        rewrite (Hrest rest Hok c), elem_of_set_delete, not_elem_of_cons. tauto. }
    destruct (negb (hasEdge g from to type)).
    + unfold bind at 1 in H.
      destruct (addEdge from to type g) as [[b| |] g1] eqn:Hadd; simpl in H.
      * eapply Hnext; [|exact H]. eapply addEdge_grows; [exact Hadd|left].
      * injection H as <- <-.
        apply (addEdge_grows _ _ _ (to :: toNodeIds)) in Hadd; [|left].
        destruct Hadd as (Hn1 & Hr1 & Hc1 & He1).
        split; [done|]. split; [done|]. split; [done|]. split; [done|].
        intros rest; discriminate.
      * injection H as <- <-.
        apply (addEdge_grows _ _ _ (to :: toNodeIds)) in Hadd; [|left].
        destruct Hadd as (Hn1 & Hr1 & Hc1 & He1).
        split; [done|]. split; [done|]. split; [done|]. split; [done|].
        intros rest; discriminate.
    + simpl in H. eapply Hnext; [|exact H].
      split; [done|]. split; [done|]. split; [done|]. intros e Hin. by left.
Qed.

End EditFacts.

(** X9: when [replaceNodeIdsConnectedTo] returns, every former child of the
    node that is not among the new children (and that [replaceFilter], when
    given, accepts) is no longer linked to it.  No node is created, and the
    only edges that can be new lead from the node to the new children. *)
Theorem replaceNodeIdsConnectedTo_unlinks_the_rest {TNode : Type} (fuel : nat)
    (g g' : Graph.t TNode) (fromNodeId : nat) (toNodeIds : list nat)
    (replaceFilter : option (nat -> bool)) (type : nat) :
  GraphMethods.replaceNodeIdsConnectedTo fuel fromNodeId toNodeIds replaceFilter type g
  = (Ok tt, g') ->
  (forall child,
      Graph.hasEdge g fromNodeId child type = true ->
      child ∉ toNodeIds ->
      (forall f, replaceFilter = Some f -> f child = true) ->
      Graph.hasEdge g' fromNodeId child type = false)
  /\ Graph.nodes g' ⊆ Graph.nodes g
  /\ (forall e, e ∈ Graph.adjacencyList g' ->
        e ∈ Graph.adjacencyList g
        \/ exists to, to ∈ toNodeIds /\ e = Graph.mkEdge fromNodeId to type).
Proof.
  unfold GraphMethods.replaceNodeIdsConnectedTo.
  unfold bind at 1. unfold get at 1. simpl.
  unfold bind at 1. unfold Graph._assertHasNodeId.
  destruct (Graph.hasNode g fromNodeId); simpl; [|discriminate].
  unfold bind at 1. unfold Graph.getNodeIdsConnectedFrom.
  destruct (Graph.hasNode g fromNodeId); simpl; [|discriminate].
  unfold bind at 1.
  match goal with
  | |- context [SymbolPropagation.foldM ?f toNodeIds ?ctr g] =>
      destruct (SymbolPropagation.foldM f toNodeIds ctr g) as [[rest| |] g1] eqn:Hadd
  end; try discriminate.
  intros Hrm.
  apply replace_adds in Hadd. destruct Hadd as (Hn & Hr & Hc & He & Hrest).
  specialize (Hrest rest eq_refl).
  apply forEach_removeEdge in Hrm. destruct Hrm as [Hrem Habs].
  split; [|split].
  - intros child Hedge Hnew Hfilter. apply Habs, Hrest. split; [|done].
    apply elem_of_set_of_list.
    apply hasEdge_connectedFrom in Hedge.
    destruct replaceFilter as [f|]; [|done].
    apply list_elem_of_In, filter_In. split; [by apply list_elem_of_In|]. by apply Hfilter.
  - destruct Hrem as (Hsub & _). by rewrite <- Hn.
  - intros e Hin. apply He. destruct Hrem as (_ & Hsub & _). by eapply elem_of_sublist.
Qed.

(** X10: [updateNode] replaces the payload of a node that is in the graph
    and throws otherwise; either way the same node ids are in use
    afterwards and the edges and the root are untouched: it never creates a
    node. *)
Theorem updateNode_replaces_one_payload {TNode : Type} (g : Graph.t TNode) (nodeId : nat)
    (node : TNode) :
  let run := GraphMethods.updateNode nodeId node g in
  (forall id, Graph.hasNode run.2 id = Graph.hasNode g id)
  /\ Graph.adjacencyList run.2 = Graph.adjacencyList g
  /\ Graph.rootNodeId run.2 = Graph.rootNodeId g
  /\ (if Graph.hasNode g nodeId
      then run.1 = Ok tt
           /\ Graph.getNode run.2 nodeId = Some node
           /\ forall id, id <> nodeId -> Graph.getNode run.2 id = Graph.getNode g id
      else run = (Throw "Does not have node", g)).
Proof.
  unfold GraphMethods.updateNode, bind, get, modify, Graph._assertHasNodeId. simpl.
  destruct (Graph.hasNode g nodeId) eqn:Hhas; simpl; [|by repeat split].
  unfold Graph.hasNode, Graph.getNode in *. simpl.
  apply bool_decide_eq_true in Hhas.
  repeat split.
  - intros id. destruct (decide (id = nodeId)) as [->|Hne].
    + rewrite lookup_insert_eq. rewrite !bool_decide_eq_true_2; [done|done|by eexists].
    + by rewrite lookup_insert_ne.
  - by rewrite lookup_insert_eq.
  - intros id Hne. by rewrite lookup_insert_ne.
Qed.

(** X11: [addEdge] returns exactly when the type is not [0] and both ends
    are nodes of the graph; the edge is there afterwards, the answer tells
    whether it is new, and every other edge is as before.  Otherwise it
    throws and the graph is as it was.  It never touches the nodes, and
    adding the same edge again answers [false] and changes nothing. *)
Theorem addEdge_links_two_present_nodes {TNode : Type} (g : Graph.t TNode)
    (from to type : nat) :
  let run := Graph.addEdge from to type g in
  Graph.nodes run.2 = Graph.nodes g
  /\ Graph.rootNodeId run.2 = Graph.rootNodeId g
  /\ (if negb (type =? 0)%nat && Graph.hasNode g from && Graph.hasNode g to
      then run.1 = Ok (negb (Graph.hasEdge g from to type))
           /\ Graph.hasEdge run.2 from to type = true
           /\ (forall e, e ∈ Graph.adjacencyList run.2 <->
                         e ∈ Graph.adjacencyList g \/ e = Graph.mkEdge from to type)
           /\ Graph.addEdge from to type run.2 = (Ok false, run.2)
      else (exists msg, run.1 = Throw msg) /\ run.2 = g).
Proof.
  intros run.
  assert (Hrun : run = Graph.addEdge from to type g) by reflexivity.
  clearbody run. unfold Graph.addEdge in Hrun.
  destruct (type =? 0)%nat eqn:Ht; simpl in *; [subst run; simpl; repeat split; eauto|].
  destruct (Graph.hasNode g from) eqn:Hf; simpl in *; [|subst run; simpl; repeat split; eauto].
  destruct (Graph.hasNode g to) eqn:Hto; simpl in *; [|subst run; simpl; repeat split; eauto].
  unfold Graph.hasEdge, Graph.AdjacencyList.addEdge in *.
  destruct (Graph.AdjacencyList.hasEdge (Graph.adjacencyList g) from to type) eqn:He;
    subst run; simpl.
  - split; [done|]. split; [done|]. split; [done|]. split; [done|]. split.
    + intros e. split; [tauto|]. intros [H| ->]; [done|].
      unfold Graph.AdjacencyList.hasEdge in He. by apply bool_decide_eq_true in He.
    + unfold Graph.addEdge. rewrite Ht. unfold Graph.hasNode in *. simpl.
      rewrite Hf, Hto. simpl. unfold Graph.AdjacencyList.addEdge. by rewrite He.
  - assert (Hnew : Graph.AdjacencyList.hasEdge
                     (Graph.adjacencyList g ++ [Graph.mkEdge from to type]) from to type = true).
    { unfold Graph.AdjacencyList.hasEdge. apply bool_decide_eq_true.
      apply elem_of_app. right. apply list_elem_of_singleton. reflexivity. }
    split; [done|]. split; [done|]. split; [done|]. split; [done|]. split.
    + intros e. rewrite elem_of_app, list_elem_of_singleton. tauto.
    + unfold Graph.addEdge. rewrite Ht. unfold Graph.hasNode in *. simpl.
      rewrite Hf, Hto. simpl. unfold Graph.AdjacencyList.addEdge. simpl. by rewrite Hnew.
Qed.

(** On the cycle [0 -> 1 -> 0] rooted at [0], removing the edge [1 -> 0]. *)
Lemma removeEdge_never_prunes_the_root_witness :
  Graph.isOrphanedNode 1 GraphExamples.cycle 0 = Ok false
  /\ Graph.removeEdge 2 1 0 1 true GraphExamples.cycle
     = (Ok tt, unlink GraphExamples.cycle 1 0 1).
Proof.
  apply (removeEdge_never_prunes_the_root 0 GraphExamples.cycle 1 0 1); reflexivity.
Defined.

(** On the chain [0 -> 1 -> 2], removing the edges out of [0]. *)
Lemma removeEdges_leaves_no_edge_witness :
  let g' := (GraphMethods.removeEdges 20 0 1 Examples.chain).2 in
  onlyRemoved Examples.chain g' /\ forall to, Graph.hasEdge g' 0 to 1 = false.
Proof.
  apply (removeEdges_leaves_no_edge 20 Examples.chain
           (GraphMethods.removeEdges 20 0 1 Examples.chain).2 0 1).
  vm_compute. reflexivity.
Defined.

(** On the fan [0 -> 1], [0 -> 2], replacing the children of [0] by [2] and
    [3]. *)
Lemma replaceNodeIdsConnectedTo_unlinks_the_rest_witness :
  let g := GraphExamples.fan in
  let g' := (GraphMethods.replaceNodeIdsConnectedTo 20 0 [2; 3] None 1 g).2 in
  (forall child,
      Graph.hasEdge g 0 child 1 = true ->
      child ∉ [2; 3] ->
      (forall f, @None (nat -> bool) = Some f -> f child = true) ->
      Graph.hasEdge g' 0 child 1 = false)
  /\ Graph.nodes g' ⊆ Graph.nodes g
  /\ (forall e, e ∈ Graph.adjacencyList g' ->
        e ∈ Graph.adjacencyList g
        \/ exists to, to ∈ [2; 3] /\ e = Graph.mkEdge 0 to 1).
Proof.
  apply (replaceNodeIdsConnectedTo_unlinks_the_rest 20 GraphExamples.fan
           (GraphMethods.replaceNodeIdsConnectedTo 20 0 [2; 3] None 1 GraphExamples.fan).2
           0 [2; 3] None 1).
  vm_compute. reflexivity.
Defined.

(** ** Graph.dfs: how often and where the callbacks run *)

Section DfsOnce.
Import Graph.
Context {TNode S C : Type}.
Variable visit : @GraphVisitor TNode S C.
Variable getChildren : Graph.t TNode * S -> nat -> outcome (list nat).

Abbreviation St := (@DfsState TNode S C).
Implicit Types st : St.
Implicit Types evs : list (@Event TNode S C).

Lemma entered_app evs1 evs2 : entered (evs1 ++ evs2) = entered evs1 ++ entered evs2.
Proof. unfold entered. by rewrite List.filter_app, fmap_app. Qed.

Lemma exited_app evs1 evs2 : exited (evs1 ++ evs2) = exited evs1 ++ exited evs2.
Proof. unfold exited. by rewrite List.filter_app, fmap_app. Qed.

Lemma elem_of_entered evs n : n ∈ entered evs -> exists e, e ∈ evs /\ ev_node e = n.
Proof.
  unfold entered. rewrite list_elem_of_fmap. intros (e & -> & He).
  apply list_elem_of_In, filter_In in He. exists e. split; [|done].
  apply list_elem_of_In. tauto.
Qed.

Lemma elem_of_exited evs n : n ∈ exited evs -> exists e, e ∈ evs /\ ev_node e = n.
Proof.
  unfold exited. rewrite list_elem_of_fmap. intros (e & -> & He).
  apply list_elem_of_In, filter_In in He. exists e. split; [|done].
  apply list_elem_of_In. tauto.
Qed.

Lemma fresh_refl st st' :
  trace st' = trace st -> visited st ⊆ visited st' -> fresh st st'.
Proof.
  intros Ht Hv. exists []. rewrite app_nil_r. repeat split; auto; constructor.
Qed.

Lemma fresh_trans st1 st2 st3 : fresh st1 st2 -> fresh st2 st3 -> fresh st1 st3.
Proof.
  intros (evs1 & Ht1 & Hv1 & Hn1 & Hx1 & Hf1) (evs2 & Ht2 & Hv2 & Hn2 & Hx2 & Hf2).
  exists (evs1 ++ evs2). rewrite Ht2, Ht1, app_assoc. split; [done|].
  split; [by etrans|].
  rewrite Forall_forall in Hf1, Hf2.
  split; [|split].
  - rewrite entered_app. apply NoDup_app. split; [done|]. split; [|done].
    intros n H1 H2. apply elem_of_entered in H1, H2.
    destruct H1 as (e1 & He1 & <-). destruct H2 as (e2 & He2 & Heq).
    apply Hf1 in He1. apply Hf2 in He2. rewrite Heq in He2. tauto.
  - rewrite exited_app. apply NoDup_app. split; [done|]. split; [|done].
    intros n H1 H2. apply elem_of_exited in H1, H2.
    destruct H1 as (e1 & He1 & <-). destruct H2 as (e2 & He2 & Heq).
    apply Hf1 in He1. apply Hf2 in He2. rewrite Heq in He2. tauto.
  - apply Forall_app. split; apply Forall_forall; intros e He.
    + apply Hf1 in He. split; [apply Hv2|]; tauto.
    + apply Hf2 in He. split; [tauto|]. intros Hin. apply Hv1 in Hin. tauto.
Qed.

#[global] Instance fresh_preorder : PreOrder (@fresh TNode S C).
Proof.
  split.
  - intros st. by apply fresh_refl.
  - intros st1 st2 st3. apply fresh_trans.
Qed.

(** A walk of a child that was not visited before counts as fresh. *)
Lemma walked_fresh child st st1 st2 :
  child ∉ visited st ->
  trace st1 = trace st -> visited st1 = set_add (visited st) child ->
  walked child st1 st2 -> fresh st st2.
Proof.
  intros Hc Ht Hv (evs & Ht2 & Hv2 & Hn & Hx & Hf).
  assert (Hsub : visited st ⊆ visited st1).
  { intros x Hx'. rewrite Hv. unfold set_add. destruct (set_has _ _); [done|].
    apply elem_of_app. by left. }
  exists evs. rewrite Ht2, Ht. split; [done|]. split; [by etrans|].
  split; [done|]. split; [done|].
  eapply Forall_impl; [exact Hf|]. intros e [Hin [Heq|Hnot]]; simpl.
  - rewrite Heq in *. tauto.
  - split; [done|]. intros Hin'. apply Hnot. by apply Hsub.
Qed.

(** One call of [walk]: what is before the loop over the children, the
    loop, and what is after it. *)
Lemma walked_parts n st st1 st2 st3 st' (before after : list (@Event TNode S C)) :
  trace st1 = trace st -> visited st1 = set_add (visited st) n ->
  trace st2 = trace st1 ++ before -> visited st2 = visited st1 ->
  (before = [] \/ exists e, before = [e] /\ ev_kind e = Enter /\ ev_node e = n) ->
  fresh st2 st3 ->
  trace st' = trace st3 ++ after -> visited st' = visited st3 ->
  (after = [] \/ exists e, after = [e] /\ ev_kind e = Exit /\ ev_node e = n) ->
  walked n st st'.
Proof.
  intros Ht1 Hv1 Ht2 Hv2 Hbefore (evs & Ht3 & Hv3 & Hn & Hx & Hf) Ht' Hv' Hafter.
  assert (Hn1 : n ∈ visited st1).
  { rewrite Hv1. unfold set_add, set_has. case_bool_decide; [done|].
    apply elem_of_app. right. apply list_elem_of_singleton. reflexivity. }
  assert (Hsub : visited st ⊆ visited st1).
  { intros x Hx'. rewrite Hv1. unfold set_add. destruct (set_has _ _); [done|].
    apply elem_of_app. by left. }
  assert (Hn' : n ∈ visited st') by (rewrite Hv'; apply Hv3; by rewrite Hv2).
  assert (Hnot : forall e, e ∈ evs -> ev_node e <> n).
  { intros e He Heq. rewrite Forall_forall in Hf. apply Hf in He.
    rewrite Heq, Hv2 in He. tauto. }
  exists (before ++ evs ++ after).
  split; [by rewrite Ht', Ht3, Ht2, Ht1, !app_assoc|].
  split; [rewrite Hv'; etrans; [exact Hsub|]; by rewrite <- Hv2|].
  split; [|split].
  - rewrite !entered_app.
    assert (entered after = []) as ->
      by (destruct Hafter as [->|(e & -> & Hk & _)]; [done|unfold entered; simpl; by rewrite Hk]).
    rewrite app_nil_r.
    destruct Hbefore as [->|(e & -> & Hk & Hnode)]; [done|].
    unfold entered at 1. simpl. rewrite Hk. simpl. apply NoDup_cons. split; [|done].
    rewrite Hnode. intros Hin. apply elem_of_entered in Hin.
    destruct Hin as (e' & He' & Heq). by apply (Hnot e').
  - rewrite !exited_app.
    assert (exited before = []) as ->
      by (destruct Hbefore as [->|(e & -> & Hk & _)]; [done|unfold exited; simpl; by rewrite Hk]).
    simpl.
    destruct Hafter as [->|(e & -> & Hk & Hnode)]; [by rewrite app_nil_r|].
    unfold exited at 2. simpl. rewrite Hk. simpl.
    apply NoDup_app. split; [done|]. split; [|apply NoDup_singleton].
    intros x Hin Hx'. apply list_elem_of_singleton in Hx'. subst x.
    apply elem_of_exited in Hin. destruct Hin as (e' & He' & Heq).
    apply (Hnot e' He'). by rewrite Heq.
  - rewrite !Forall_app. split; [|split].
    + destruct Hbefore as [->|(e & -> & _ & Hnode)]; [constructor|].
      constructor; [|constructor]. rewrite Hnode. tauto.
    + eapply Forall_impl; [exact Hf|]. intros e [Hin Hout]. simpl.
      split; [by rewrite Hv'|]. right. intros Hin'. apply Hout. rewrite Hv2. by apply Hsub.
    + destruct Hafter as [->|(e & -> & _ & Hnode)]; [constructor|].
      constructor; [|constructor]. rewrite Hnode. tauto.
Qed.

Lemma wp_invoke kind cb n ctx (Q : option C -> St -> Prop) (E : St -> Prop) st :
  (forall e st', trace st' = trace st ++ [e] -> ev_kind e = kind -> ev_node e = n ->
                 visited st' = visited st -> Q (contextAfter e) st') ->
  wp (invoke kind cb n ctx) Q E st.
Proof.
  intros H. unfold wp.
  destruct (invoke_inv kind cb n ctx st) as (e & st' & Hi & Ht & Hk & Hn & _ & _ & _ & Hv).
  rewrite Hi. by apply H.
Qed.

Lemma walkChildren_fresh (walk : nat -> option C -> M St (option C)) :
  (forall n ctx st, wp (walk n ctx) (fun _ st' => walked n st st') (walked n st) st) ->
  forall children ctx st,
    wp (walkChildren walk children ctx) (fun _ st' => fresh st st') (fresh st) st.
Proof.
  intros Hw children. induction children as [|child rest IH]; intros ctx st; simpl.
  - apply wp_ret. reflexivity.
  - apply wp_bind, wp_get.
    destruct (set_has (visited st) child) eqn:Hhas; [apply IH|].
    apply bool_decide_eq_false in Hhas.
    apply wp_bind, wp_modify.
    set (st1 := mkDfsState _ _ _ _ _).
    apply wp_bind.
    eapply wp_mono; [apply Hw| |].
    + intros result st2 Hwalked. simpl in Hwalked.
      assert (Hf : fresh st st2).
      { by apply (walked_fresh child st st1 st2). }
      apply wp_bind, wp_get.
      destruct (stopped st2); [by apply wp_ret|].
      eapply wp_mono; [apply IH| |]; intros; simpl in *; by etrans.
    + intros st2 Hwalked. by apply (walked_fresh child st st1 st2).
Qed.

Lemma wp_leave n ctx (Q : option C -> St -> Prop) (E : St -> Prop) st :
  (forall r st' after,
      trace st' = trace st ++ after -> visited st' = visited st ->
      (after = [] \/ exists e, after = [e] /\ ev_kind e = Exit /\ ev_node e = n) ->
      Q r st') ->
  wp (leave visit n ctx) Q E st.
Proof.
  intros H. unfold leave. apply wp_bind, wp_get. apply wp_bind.
  assert (Hend : forall ctx' st' after,
            trace st' = trace st ++ after -> visited st' = visited st ->
            (after = [] \/ exists e, after = [e] /\ ev_kind e = Exit /\ ev_node e = n) ->
            wp (st <- get ;;
                if skipped st then ret None
                else if stopped st then ret ctx' else ret None)%js Q E st').
  { intros ctx' st' after Ht Hv Ha. apply wp_bind, wp_get.
    destruct (skipped st'), (stopped st'); apply wp_ret; by eapply H. }
  destruct (exitOf visit) as [exit|].
  - destruct (hasNode (world st).1 n).
    + apply wp_invoke. intros e st' Ht Hk Hn Hv.
      eapply Hend; [exact Ht|exact Hv|]. right. by exists e.
    + apply wp_ret. eapply (Hend _ _ []); [by rewrite app_nil_r|done|by left].
  - apply wp_ret. eapply (Hend _ _ []); [by rewrite app_nil_r|done|by left].
Qed.

Lemma walk_walked fuel :
  forall n ctx st,
    wp (walk visit getChildren fuel n ctx) (fun _ st' => walked n st st') (walked n st) st.
Proof.
  induction fuel as [|fuel IH]; intros n ctx st.
  - simpl. apply wp_timeout.
    exists []. rewrite app_nil_r. repeat split; auto; constructor.
  - simpl. apply wp_bind, wp_get.
    destruct (hasNode (world st).1 n); simpl.
    2:{ apply wp_ret. exists []. rewrite app_nil_r. repeat split; auto; constructor. }
    apply wp_bind, wp_modify.
    set (st1 := mkDfsState _ _ _ _ _).
    assert (Hdone : forall st2 before,
              trace st2 = trace st1 ++ before -> visited st2 = visited st1 ->
              (before = [] \/ exists e, before = [e] /\ ev_kind e = Enter /\ ev_node e = n) ->
              walked n st st2).
    { intros st2 before Ht Hv Hb.
      eapply (walked_parts n st st1 st2 st2 st2 before []);
        [reflexivity|reflexivity|exact Ht|exact Hv|exact Hb|reflexivity
        |by rewrite app_nil_r|reflexivity|by left]. }
    assert (Hrest : forall ctx1 st2 before,
              trace st2 = trace st1 ++ before -> visited st2 = visited st1 ->
              (before = [] \/ exists e, before = [e] /\ ev_kind e = Enter /\ ev_node e = n) ->
              wp (st <- get ;;
                  if skipped st then ret None
                  else if stopped st then ret ctx1
                  else
                    children <- (fun st => (getChildren (world st) n, st)) ;;
                    r <- walkChildren (walk visit getChildren fuel) children ctx1 ;;
                    match r with
                    | Some result => ret result
                    | None => leave visit n ctx1
                    end)%js
                 (fun _ st' => walked n st st') (walked n st) st2).
    { intros ctx1 st2 before Ht Hv Hb. apply wp_bind, wp_get.
      destruct (skipped st2); [apply wp_ret; by eapply Hdone|].
      destruct (stopped st2); [apply wp_ret; by eapply Hdone|].
      apply wp_bind. unfold wp at 1.
      destruct (getChildren (world st2) n) as [children| |]; [|by eapply Hdone..].
      apply wp_bind.
      eapply wp_mono; [apply walkChildren_fresh, IH| |].
      - intros r st3 Hfresh. simpl in Hfresh.
        destruct r as [result|].
        + apply wp_ret.
          eapply (walked_parts n st st1 st2 st3 st3 before []);
            [reflexivity|reflexivity|exact Ht|exact Hv|exact Hb|exact Hfresh
            |by rewrite app_nil_r|reflexivity|by left].
        + apply wp_leave. intros r st' after Ht' Hv' Ha.
          by eapply (walked_parts n st st1 st2 st3 st' before after).
      - intros st3 Hfresh. simpl in Hfresh.
        eapply (walked_parts n st st1 st2 st3 st3 before []);
          [reflexivity|reflexivity|exact Ht|exact Hv|exact Hb|exact Hfresh
          |by rewrite app_nil_r|reflexivity|by left]. }
    apply wp_bind.
    destruct (enterOf visit) as [enter|].
    + apply wp_invoke. intros e st2 Ht Hk Hn Hv.
      eapply Hrest; [exact Ht|exact Hv|]. right. by exists e.
    + apply wp_ret. eapply (Hrest _ _ []); [by rewrite app_nil_r|done|by left].
Qed.

End DfsOnce.

(** A [dfs] call that ended in [st] entered no node twice. *)
Lemma dfs_run_once {TNode S C : Type}
    (visit : @Graph.GraphVisitor TNode S C)
    (getChildren : Graph.t TNode * S -> nat -> outcome (list nat))
    (fuel : nat) (startNodeId : option nat) (w : Graph.t TNode * S)
    (r : outcome (option C)) (st : @Graph.DfsState TNode S C) :
  Graph.dfs_run visit getChildren fuel startNodeId w = (r, st) ->
  NoDup (entered (Graph.trace st)).
Proof.
  unfold Graph.dfs_run.
  destruct (match startNodeId with
            | Some n => Some n
            | None => Graph.rootNodeId w.1
            end) as [n|]; [|intros [= <- <-]; constructor].
  destruct (Graph.hasNode w.1 n); [|intros [= <- <-]; constructor].
  pose proof (walk_walked visit getChildren fuel n None
                (Graph.mkDfsState [] false false w [])) as H.
  unfold wp in H. intros Hrun. rewrite Hrun in H.
  destruct r as [r| |]; destruct H as (evs & Ht & _ & Hn & _); simpl in *; by rewrite Ht.
Qed.

(** X12: in one [dfs] traversal no node is entered twice and none is
    exited twice, whatever the visitor does, to the graph as well, and
    however the traversal ends. *)
Theorem dfs_enters_and_exits_a_node_at_most_once {TNode S C : Type}
    (visit : @Graph.GraphVisitor TNode S C)
    (getChildren : Graph.t TNode * S -> nat -> outcome (list nat))
    (fuel : nat) (startNodeId : option nat) (w : Graph.t TNode * S) :
  let run := Graph.dfs_run visit getChildren fuel startNodeId w in
  NoDup (entered (Graph.trace run.2)) /\ NoDup (exited (Graph.trace run.2)).
Proof.
  intros run. unfold run, Graph.dfs_run.
  destruct (match startNodeId with
            | Some n => Some n
            | None => Graph.rootNodeId w.1
            end) as [n|]; [|split; constructor].
  destruct (Graph.hasNode w.1 n); [|split; constructor].
  pose proof (walk_walked visit getChildren fuel n None
                (Graph.mkDfsState [] false false w [])) as H.
  unfold wp in H.
  destruct (Graph.walk visit getChildren fuel n None _) as [[r| |] st'];
    destruct H as (evs & Ht & _ & Hn & Hx & _); simpl in *; rewrite Ht; by split.
Qed.

(** ** Graph.dfs: the trace as a log, and where a traversal can get to *)

Section DfsLog.
Import Graph.
Context {TNode S C : Type}.
Variable visit : @GraphVisitor TNode S C.

Abbreviation St := (@DfsState TNode S C).
Implicit Types st : St.
Implicit Types evs : list (@Event TNode S C).

(** Everything one callback invocation does to the state of the traversal. *)
Lemma wp_invoke_all kind cb n ctx (Q : option C -> St -> Prop) (E : St -> Prop) st :
  (forall e st',
      trace st' = trace st ++ [e] -> ev_kind e = kind -> ev_node e = n ->
      ev_world e = world st -> ev_result e = cb n ctx (world st) ->
      world st' = worldAfter (ev_result e) -> visited st' = visited st ->
      stopped st' = stopped st || calledStop (ev_result e) ->
      skipped st' = skipped st || calledSkipChildren (ev_result e) ->
      Q (contextAfter e) st') ->
  wp (invoke kind cb n ctx) Q E st.
Proof.
  intros H. unfold wp, invoke.
  by apply (H (mkEvent kind n ctx (world st) (cb n ctx (world st)))).
Qed.

Lemma chained_app w evs1 evs2 w'' :
  chained w (evs1 ++ evs2) w'' <-> exists w', chained w evs1 w' /\ chained w' evs2 w''.
Proof.
  revert w. induction evs1 as [|e evs1 IH]; intros w; simpl.
  - split.
    + intros H. by exists w.
    + intros (w' & -> & H). done.
  - rewrite IH. split.
    + intros (Hw & w' & H1 & H2). exists w'. tauto.
    + intros (w' & (Hw & H1) & H2). split; [done|]. by exists w'.
Qed.

#[global] Instance logged_preorder : PreOrder (logged visit).
Proof.
  split.
  - intros st. exists []. rewrite app_nil_r. repeat split; constructor.
  - intros st1 st2 st3 (evs1 & Ht1 & Hc1 & Hg1) (evs2 & Ht2 & Hc2 & Hg2).
    exists (evs1 ++ evs2). rewrite Ht2, Ht1, app_assoc. split; [done|].
    split; [|by apply Forall_app].
    apply chained_app. by exists (world st2).
Qed.

Lemma logged_same st st' : trace st' = trace st -> world st' = world st -> logged visit st st'.
Proof.
  intros Ht Hw. exists []. rewrite app_nil_r. repeat split; [done|by simpl|constructor].
Qed.

Lemma invoke_logged kind cb n ctx :
  match kind with Enter => enterOf visit | Exit => exitOf visit end = Some cb ->
  preserves (logged visit) (invoke kind cb n ctx).
Proof.
  intros Hcb st. unfold invoke. simpl.
  exists [mkEvent kind n ctx (world st) (cb n ctx (world st))]. simpl.
  repeat split; auto. constructor; [|constructor].
  exists cb. simpl. by split.
Qed.

Variable getChildren : Graph.t TNode * S -> nat -> outcome (list nat).

Ltac log_step :=
  lazymatch goal with
  | |- preserves _ (bind _ _) => apply preserves_bind; [typeclasses eauto| |intros ?]
  | |- preserves _ (modify _) => apply preserves_modify; intros ?; by apply logged_same
  | |- preserves _ get => apply preserves_readonly; [typeclasses eauto|apply readonly_get]
  | |- preserves _ (ret _) => apply preserves_readonly; [typeclasses eauto|apply readonly_ret]
  | |- preserves _ timeout => apply preserves_readonly; [typeclasses eauto|apply readonly_timeout]
  | |- preserves _ (invoke _ _ _ _) => by apply invoke_logged
  | |- preserves _ (fun st => (_, st)) =>
      apply preserves_readonly; [typeclasses eauto|by intros ?]
  | |- preserves _ (match ?x with _ => _ end) => destruct x eqn:?
  end.

Lemma leave_logged n ctx : preserves (logged visit) (leave visit n ctx).
Proof. unfold leave. repeat log_step. Qed.

Lemma walkChildren_logged (walk : nat -> option C -> M St (option C)) :
  (forall n ctx, preserves (logged visit) (walk n ctx)) ->
  forall children ctx, preserves (logged visit) (walkChildren walk children ctx).
Proof.
  intros Hw children. induction children as [|child rest IH]; intros ctx; simpl.
  - log_step.
  - repeat first [apply IH | apply Hw | log_step].
Qed.

Lemma walk_logged fuel :
  forall n ctx, preserves (logged visit) (walk visit getChildren fuel n ctx).
Proof.
  induction fuel as [|fuel IH]; intros n ctx; simpl.
  - log_step.
  - repeat first [apply leave_logged | by apply walkChildren_logged | log_step].
Qed.

(** The events of a whole [dfs] call lead from the world it started in to
    the world it ended in. *)
Lemma dfs_run_logged fuel start w r st :
  dfs_run visit getChildren fuel start w = (r, st) ->
  chained w (trace st) (world st) /\ Forall (genuine visit) (trace st).
Proof.
  unfold dfs_run. intros H.
  destruct (match start with Some n => Some n | None => rootNodeId w.1 end) as [n|].
  - destruct (hasNode w.1 n).
    + pose proof (walk_logged fuel n None (mkDfsState [] false false w [])) as Hl.
      rewrite H in Hl. destruct Hl as (evs & Ht & Hc & Hg). simpl in *. by rewrite Ht.
    + injection H as <- <-. simpl. split; [done|constructor].
  - injection H as <- <-. simpl. split; [done|constructor].
Qed.

End DfsLog.

Section DfsReach.
Import Graph.
Context {TNode S C : Type}.
Variable visit : @GraphVisitor TNode S C.
Variable gc : Graph.t TNode -> nat -> outcome (list nat).
Variable g : Graph.t TNode.
Hypothesis visit_leavesGraphAlone : leavesGraphAlone visit.

Abbreviation St := (@DfsState TNode S C).
Implicit Types st : St.
Implicit Types evs : list (@Event TNode S C).

Lemma unskipped_mono evs evs' a :
  (forall e, e ∈ evs -> e ∈ evs') -> unskipped visit evs a -> unskipped visit evs' a.
Proof.
  intros Hsub. unfold unskipped. destruct (enterOf visit); [|done].
  intros (e & He & H). exists e. split; [by apply Hsub|done].
Qed.

Lemma stepVia_mono evs evs' c m :
  (forall e, e ∈ evs -> e ∈ evs') ->
  rtc (stepVia visit gc g evs) c m -> rtc (stepVia visit gc g evs') c m.
Proof.
  intros Hsub. apply rtc_subrel. intros a b [Hc Hu]. split; [done|].
  by eapply unskipped_mono.
Qed.

Lemma reachedFrom_same starts st st' :
  (world st').1 = g -> trace st' = trace st -> reachedFrom visit gc g starts st st'.
Proof.
  intros Hw Ht. split; [done|]. exists []. rewrite app_nil_r. split; [done|constructor].
Qed.

Lemma reachedFrom_trans starts st1 st2 st3 :
  reachedFrom visit gc g starts st1 st2 -> reachedFrom visit gc g starts st2 st3 ->
  reachedFrom visit gc g starts st1 st3.
Proof.
  intros (_ & evs1 & Ht1 & Hf1) (Hw & evs2 & Ht2 & Hf2).
  split; [done|]. exists (evs1 ++ evs2). rewrite Ht2, Ht1, app_assoc.
  split; [done|]. apply Forall_app. split.
  - eapply Forall_impl; [exact Hf1|]. intros e (He & c & Hc & Hr). split; [done|].
    exists c. split; [done|]. eapply stepVia_mono; [|exact Hr].
    intros e' He'. apply elem_of_app. by left.
  - eapply Forall_impl; [exact Hf2|]. intros e (He & c & Hc & Hr). split; [done|].
    exists c. split; [done|]. eapply stepVia_mono; [|exact Hr].
    intros e' He'. apply elem_of_app. by right.
Qed.

Lemma reachedFrom_weaken starts starts' st st' :
  (forall c, c ∈ starts -> c ∈ starts') ->
  reachedFrom visit gc g starts st st' -> reachedFrom visit gc g starts' st st'.
Proof.
  intros Hsub (Hw & evs & Ht & Hf). split; [done|]. exists evs. split; [done|].
  eapply Forall_impl; [exact Hf|]. intros e (He & c & Hc & Hr). split; [done|].
  exists c. split; [by apply Hsub|done].
Qed.

(** A callback on the node itself. *)
Lemma reachedFrom_own n st st' e :
  (world st).1 = g -> (world st').1 = g ->
  trace st' = trace st ++ [e] -> ev_node e = n -> ev_world e = world st ->
  reachedFrom visit gc g [n] st st'.
Proof.
  intros Hw Hw' Ht Hn He. split; [done|]. exists [e]. split; [done|].
  constructor; [|constructor]. split; [by rewrite He|].
  exists n. split; [apply list_elem_of_singleton; reflexivity|by rewrite Hn].
Qed.

(** The [enter] of a node, if any, followed by the loop over its children. *)
Lemma reachedFrom_walk n children st st2 st3 before :
  (world st).1 = g -> (world st2).1 = g ->
  trace st2 = trace st ++ before ->
  match enterOf visit with
  | Some _ => exists e, before = [e] /\ ev_kind e = Enter /\ ev_node e = n
                        /\ ev_world e = world st
                        /\ calledSkipChildren (ev_result e) = false
  | None => before = []
  end ->
  gc g n = Ok children ->
  reachedFrom visit gc g children st2 st3 ->
  reachedFrom visit gc g [n] st st3.
Proof.
  intros Hw Hw2 Ht2 Hbefore Hgc (Hw3 & evs & Ht3 & Hf).
  split; [done|]. exists (before ++ evs). split; [by rewrite Ht3, Ht2, app_assoc|].
  assert (Hn : n ∈ [n]) by (apply list_elem_of_singleton; reflexivity).
  assert (Hun : unskipped visit (before ++ evs) n).
  { unfold unskipped. destruct (enterOf visit); [|done].
    destruct Hbefore as (e & -> & Hk & Hnode & _ & Hskip). exists e.
    split; [apply elem_of_app; left; apply list_elem_of_singleton; reflexivity|done]. }
  apply Forall_app. split.
  - destruct (enterOf visit).
    + destruct Hbefore as (e & -> & Hk & Hnode & He & Hskip).
      constructor; [|constructor]. split; [by rewrite He|].
      exists n. split; [done|by rewrite Hnode].
    + subst before. constructor.
  - eapply Forall_impl; [exact Hf|]. intros e (He & c & Hc & Hr). split; [done|].
    exists n. split; [done|].
    eapply rtc_l.
    + split; [by exists children|exact Hun].
    + eapply stepVia_mono; [|exact Hr]. intros e' He'. apply elem_of_app. by right.
Qed.

Lemma leave_reached n ctx st :
  (world st).1 = g ->
  wp (leave visit n ctx) (fun _ => reachedFrom visit gc g [n] st)
     (reachedFrom visit gc g [n] st) st.
Proof.
  intros Hw. unfold leave. apply wp_bind, wp_get. apply wp_bind.
  assert (Hend : forall ctx' st',
            reachedFrom visit gc g [n] st st' ->
            wp (st <- get ;;
                if skipped st then ret None
                else if stopped st then ret ctx' else ret None)%js
               (fun _ : option C => reachedFrom visit gc g [n] st)
               (reachedFrom visit gc g [n] st) st').
  { intros ctx' st' Hr. apply wp_bind, wp_get.
    destruct (skipped st'), (stopped st'); by apply wp_ret. }
  destruct (exitOf visit) as [exit|] eqn:Hexit.
  - destruct (hasNode (world st).1 n).
    + apply wp_invoke_all. intros e st' Ht _ Hn He Hres Hw' _ _ _.
      apply Hend. eapply reachedFrom_own; [done| |exact Ht|done|done].
      rewrite Hw', Hres. rewrite visit_leavesGraphAlone; [done|by right].
    + apply wp_ret. apply Hend. by apply reachedFrom_same.
  - apply wp_ret. apply Hend. by apply reachedFrom_same.
Qed.

Lemma walkChildren_reached (walk : nat -> option C -> M St (option C)) :
  (forall n ctx st, (world st).1 = g ->
     wp (walk n ctx) (fun _ => reachedFrom visit gc g [n] st)
        (reachedFrom visit gc g [n] st) st) ->
  forall children ctx st, (world st).1 = g ->
    wp (walkChildren walk children ctx) (fun _ => reachedFrom visit gc g children st)
       (reachedFrom visit gc g children st) st.
Proof.
  intros Hwalk children. induction children as [|child rest IH]; intros ctx st Hw; simpl.
  - apply wp_ret. by apply reachedFrom_same.
  - assert (Hrest : forall st0 st', reachedFrom visit gc g rest st0 st' ->
                                    reachedFrom visit gc g (child :: rest) st0 st').
    { intros st0 st'. apply reachedFrom_weaken. intros c Hc. by right. }
    apply wp_bind, wp_get.
    destruct (set_has (visited st) child).
    { eapply wp_mono; [by apply IH| |]; intros; by apply Hrest. }
    apply wp_bind, wp_modify.
    set (st1 := mkDfsState _ _ _ _ _).
    assert (Hchild : forall st2, reachedFrom visit gc g [child] st1 st2 ->
                                 reachedFrom visit gc g (child :: rest) st st2).
    { intros st2. apply (reachedFrom_weaken [child] (child :: rest) st1 st2).
      intros c Hc. apply list_elem_of_singleton in Hc. subst c. left. }
    apply wp_bind.
    eapply wp_mono; [by apply Hwalk| |].
    + intros result st2 Hr. simpl in Hr. pose proof Hr as [Hw2 _].
      apply wp_bind, wp_get.
      destruct (stopped st2); [apply wp_ret; by apply Hchild|].
      eapply wp_mono; [by apply IH| |]; intros; simpl in *;
        (eapply reachedFrom_trans; [by apply Hchild|by apply Hrest]).
    + intros st2 Hr. by apply Hchild.
Qed.

Lemma walk_reached fuel :
  forall n ctx st, (world st).1 = g ->
    wp (walk visit (fun w nodeId => gc w.1 nodeId) fuel n ctx)
       (fun _ => reachedFrom visit gc g [n] st) (reachedFrom visit gc g [n] st) st.
Proof.
  induction fuel as [|fuel IH]; intros n ctx st Hw.
  - simpl. apply wp_timeout. by apply reachedFrom_same.
  - simpl. apply wp_bind, wp_get.
    destruct (hasNode (world st).1 n); simpl.
    2:{ apply wp_ret. by apply reachedFrom_same. }
    apply wp_bind, wp_modify.
    set (st1 := mkDfsState _ _ _ _ _).
    assert (Hrest : forall ctx1 st2 before,
              (world st2).1 = g ->
              trace st2 = trace st ++ before ->
              match enterOf visit with
              | Some _ => exists e, before = [e] /\ ev_kind e = Enter /\ ev_node e = n
                                    /\ ev_world e = world st
                                    /\ skipped st2 = calledSkipChildren (ev_result e)
              | None => before = []
              end ->
              wp (st <- get ;;
                  if skipped st then ret None
                  else if stopped st then ret ctx1
                  else
                    children <- (fun st => (gc (world st).1 n, st)) ;;
                    r <- walkChildren (walk visit (fun w nodeId => gc w.1 nodeId) fuel)
                           children ctx1 ;;
                    match r with
                    | Some result => ret result
                    | None => leave visit n ctx1
                    end)%js
                 (fun _ : option C => reachedFrom visit gc g [n] st)
                 (reachedFrom visit gc g [n] st) st2).
    { intros ctx1 st2 before Hw2 Ht2 Hbefore.
      assert (Hsofar : reachedFrom visit gc g [n] st st2).
      { destruct (enterOf visit).
        - destruct Hbefore as (e & -> & _ & Hnode & He & _).
          by eapply reachedFrom_own.
        - subst before. rewrite app_nil_r in Ht2. by apply reachedFrom_same. }
      apply wp_bind, wp_get.
      destruct (skipped st2) eqn:Hsk; [by apply wp_ret|].
      destruct (stopped st2); [by apply wp_ret|].
      apply wp_bind. unfold wp at 1. rewrite Hw2.
      destruct (gc g n) as [children| |] eqn:Hgc; [|done..].
      apply wp_bind.
      assert (Hwalked : forall st3, reachedFrom visit gc g children st2 st3 ->
                                    reachedFrom visit gc g [n] st st3).
      { intros st3. eapply reachedFrom_walk; [done|done|exact Ht2| |done].
        destruct (enterOf visit); [|done].
        destruct Hbefore as (e & -> & Hk & Hnode & He & Hskip). exists e.
        repeat split; auto; congruence. }
      eapply wp_mono; [by apply walkChildren_reached| |].
      - intros r st3 Hc. simpl in Hc. apply Hwalked in Hc.
        pose proof Hc as [Hw3 _].
        destruct r as [result|]; [by apply wp_ret|].
        eapply wp_mono; [by apply leave_reached| |]; intros; simpl in *;
          by eapply reachedFrom_trans.
      - intros st3 Hc. by apply Hwalked. }
    apply wp_bind.
    destruct (enterOf visit) as [enter|] eqn:Henter.
    + apply wp_invoke_all. intros e st2 Ht Hk Hn He Hres Hw2 _ _ Hskip.
      apply (Hrest _ _ [e]); [|exact Ht|].
      * rewrite Hw2, Hres. rewrite visit_leavesGraphAlone; [done|by left].
      * exists e. repeat split; auto.
    + apply wp_ret. apply (Hrest _ _ []); [done|by rewrite app_nil_r|done].
Qed.

End DfsReach.

(** ** Graph.dfs: a traversal of a graph it does not change returns *)

Section DfsTotal.
Import Graph.
Context {TNode S C : Type}.
Variable visit : @GraphVisitor TNode S C.
Variable gc : Graph.t TNode -> nat -> outcome (list nat).
Variable g : Graph.t TNode.
Hypothesis visit_leavesGraphAlone : leavesGraphAlone visit.
Hypothesis gc_present : forall n, hasNode g n = true -> exists l, gc g n = Ok l.

Abbreviation St := (@DfsState TNode S C).
Implicit Types st : St.

Lemma elem_of_present n : n ∈ present g <-> hasNode g n = true.
Proof.
  unfold present, hasNode. rewrite bool_decide_eq_true, list_elem_of_fmap. split.
  - intros ([k v] & -> & Hin). apply elem_of_map_to_list in Hin. by exists v.
  - intros [v Hv]. exists (n, v). split; [done|]. by apply elem_of_map_to_list.
Qed.

Lemma length_filter_mono {A} (P Q : A -> Prop) `{!forall x, Decision (P x)}
    `{!forall x, Decision (Q x)} (l : list A) :
  (forall x, P x -> Q x) -> length (filter P l) <= length (filter Q l).
Proof.
  intros HPQ. induction l as [|x l IH]; [done|].
  rewrite !filter_cons. destruct (decide (P x)) as [HP|HP].
  - rewrite decide_True by auto. simpl. lia.
  - destruct (decide (Q x)); simpl; lia.
Qed.

Lemma length_filter_lt {A} (P Q : A -> Prop) `{!forall x, Decision (P x)}
    `{!forall x, Decision (Q x)} (l : list A) c :
  (forall x, P x -> Q x) -> c ∈ l -> Q c -> ~ P c ->
  length (filter P l) < length (filter Q l).
Proof.
  intros HPQ Hin HQ HP. induction l as [|x l IH]; [by apply elem_of_nil in Hin|].
  rewrite !filter_cons. apply elem_of_cons in Hin. destruct Hin as [<-|Hin].
  - rewrite decide_False by done. rewrite decide_True by done. simpl.
    pose proof (length_filter_mono P Q l HPQ). lia.
  - specialize (IH Hin).
    destruct (decide (P x)) as [HPx|HPx].
    + rewrite decide_True by auto. simpl. lia.
    + destruct (decide (Q x)); simpl; lia.
Qed.

Lemma unvisited_mono (vis vis' : list nat) :
  vis ⊆ vis' -> unvisited g vis' <= unvisited g vis.
Proof.
  intros Hsub. unfold unvisited. apply length_filter_mono.
  intros x Hx Hin. apply Hx. by apply Hsub.
Qed.

Lemma unvisited_add (vis : list nat) c :
  hasNode g c = true -> c ∉ vis -> unvisited g (set_add vis c) < unvisited g vis.
Proof.
  intros Hc Hn. unfold unvisited. apply (length_filter_lt _ _ _ c).
  - intros x Hx Hin. apply Hx. unfold set_add. destruct (set_has vis c); [done|].
    apply elem_of_app. by left.
  - by apply elem_of_present.
  - done.
  - intros H. apply H. unfold set_add, set_has. rewrite bool_decide_eq_false_2 by done.
    apply elem_of_app. right. apply list_elem_of_singleton. reflexivity.
Qed.

Lemma set_add_subseteq (vis : list nat) c : vis ⊆ set_add vis c.
Proof.
  intros x Hx. unfold set_add. destruct (set_has vis c); [done|]. apply elem_of_app. by left.
Qed.

Lemma set_add_present (vis : list nat) c : c ∈ vis -> set_add vis c = vis.
Proof. intros H. unfold set_add, set_has. by rewrite bool_decide_eq_true_2. Qed.

Lemma elem_of_set_add_new (vis : list nat) c : c ∈ set_add vis c.
Proof.
  unfold set_add, set_has. case_bool_decide; [done|].
  apply elem_of_app. right. apply list_elem_of_singleton. reflexivity.
Qed.

Lemma leave_total n ctx st :
  (world st).1 = g ->
  wp (leave visit n ctx)
     (fun _ st' => (world st').1 = g /\ visited st ⊆ visited st') (fun _ => False) st.
Proof.
  intros Hw. unfold leave. apply wp_bind, wp_get. apply wp_bind.
  assert (Hend : forall ctx' st',
            (world st').1 = g -> visited st' = visited st ->
            wp (st <- get ;;
                if skipped st then ret None
                else if stopped st then ret ctx' else ret None)%js
               (fun _ : option C => fun st' => (world st').1 = g /\ visited st ⊆ visited st')
               (fun _ => False) st').
  { intros ctx' st' Hw' Hv. apply wp_bind, wp_get.
    destruct (skipped st'), (stopped st'); apply wp_ret; by rewrite Hv. }
  destruct (exitOf visit) as [exit|] eqn:Hexit.
  - destruct (hasNode (world st).1 n).
    + apply wp_invoke_all. intros e st' _ _ _ _ Hres Hw' Hv _ _.
      apply Hend; [|done]. rewrite Hw', Hres.
      rewrite visit_leavesGraphAlone; [done|by right].
    + apply wp_ret. by apply Hend.
  - apply wp_ret. by apply Hend.
Qed.

Lemma walkChildren_total (walk : nat -> option C -> M St (option C)) fuel :
  (forall n ctx st,
     (world st).1 = g -> 1 <= fuel ->
     (hasNode g n = true -> unvisited g (set_add (visited st) n) + 2 <= fuel) ->
     wp (walk n ctx)
        (fun _ st' => (world st').1 = g /\ visited st ⊆ visited st') (fun _ => False) st) ->
  forall children ctx st,
    (world st).1 = g -> unvisited g (visited st) + 1 <= fuel ->
    wp (walkChildren walk children ctx)
       (fun _ st' => (world st').1 = g /\ visited st ⊆ visited st') (fun _ => False) st.
Proof.
  intros Hwalk children. induction children as [|child rest IH]; intros ctx st Hw Hfuel; simpl.
  - by apply wp_ret.
  - apply wp_bind, wp_get.
    destruct (set_has (visited st) child) eqn:Hhas; [by apply IH|].
    apply bool_decide_eq_false in Hhas.
    apply wp_bind, wp_modify.
    set (st1 := mkDfsState _ _ _ _ _).
    apply wp_bind.
    eapply wp_mono; [apply Hwalk; [done|lia|]| |done].
    + intros Hpresent. simpl.
      rewrite set_add_present by apply elem_of_set_add_new.
      pose proof (unvisited_add (visited st) child Hpresent Hhas). lia.
    + intros result st2 [Hw2 Hv2]. simpl in Hv2.
      assert (Hsub : visited st ⊆ visited st2).
      { etrans; [apply (set_add_subseteq _ child)|exact Hv2]. }
      apply wp_bind, wp_get.
      destruct (stopped st2); [by apply wp_ret|].
      eapply wp_mono; [apply IH; [done|]| |done].
      * pose proof (unvisited_mono _ _ Hsub). lia.
      * intros r st3 [Hw3 Hv3]. split; [done|]. by etrans.
Qed.

Lemma walk_total fuel :
  forall n ctx st,
    (world st).1 = g -> 1 <= fuel ->
    (hasNode g n = true -> unvisited g (set_add (visited st) n) + 2 <= fuel) ->
    wp (walk visit (fun w nodeId => gc w.1 nodeId) fuel n ctx)
       (fun _ st' => (world st').1 = g /\ visited st ⊆ visited st') (fun _ => False) st.
Proof.
  induction fuel as [|fuel IH]; intros n ctx st Hw Hone Hfuel; [lia|].
  simpl. apply wp_bind, wp_get. rewrite Hw.
  destruct (hasNode g n) eqn:Hn; simpl; [|by apply wp_ret].
  specialize (Hfuel eq_refl).
  apply wp_bind, wp_modify.
  set (st1 := mkDfsState _ _ _ _ _).
  assert (Hrest : forall ctx1 st2,
            (world st2).1 = g -> visited st2 = visited st1 ->
            wp (st <- get ;;
                if skipped st then ret None
                else if stopped st then ret ctx1
                else
                  children <- (fun st => (gc (world st).1 n, st)) ;;
                  r <- walkChildren (walk visit (fun w nodeId => gc w.1 nodeId) fuel)
                         children ctx1 ;;
                  match r with
                  | Some result => ret result
                  | None => leave visit n ctx1
                  end)%js
               (fun _ : option C => fun st' => (world st').1 = g /\ visited st ⊆ visited st')
               (fun _ => False) st2).
  { intros ctx1 st2 Hw2 Hv2.
    assert (Hsub : visited st ⊆ visited st2).
    { rewrite Hv2. apply set_add_subseteq. }
    apply wp_bind, wp_get.
    destruct (skipped st2); [by apply wp_ret|].
    destruct (stopped st2); [by apply wp_ret|].
    apply wp_bind. unfold wp at 1. rewrite Hw2.
    destruct (gc_present n Hn) as [children ->].
    apply wp_bind.
    eapply wp_mono; [apply (walkChildren_total _ fuel); [exact IH|done|]| |done].
    - rewrite Hv2. simpl. lia.
    - intros r st3 [Hw3 Hv3].
      destruct r as [result|]; [apply wp_ret; split; [done|by etrans]|].
      eapply wp_mono; [by apply leave_total| |done].
      intros r st4 [Hw4 Hv4]. split; [done|]. etrans; [exact Hsub|]. by etrans. }
  apply wp_bind.
  destruct (enterOf visit) as [enter|] eqn:Henter.
  - apply wp_invoke_all. intros e st2 _ _ _ _ Hres Hw2 Hv2 _ _.
    apply Hrest; [|done]. rewrite Hw2, Hres.
    rewrite visit_leavesGraphAlone; [done|by left].
  - apply wp_ret. by apply Hrest.
Qed.

End DfsTotal.

(** ** Graph.dfs: what a traversal that was not stopped has covered *)

Section DfsCovers.
Import Graph.
Context {TNode S C : Type}.
Variable visit : @GraphVisitor TNode S C.
Variable gc : Graph.t TNode -> nat -> outcome (list nat).
Variable g : Graph.t TNode.
Hypothesis visit_leavesGraphAlone : leavesGraphAlone visit.

Abbreviation St := (@DfsState TNode S C).
Implicit Types st : St.
Implicit Types evs : list (@Event TNode S C).

Lemma explored_mono evs evs' (vis vis' : list nat) a :
  (forall e, e ∈ evs -> e ∈ evs') -> vis ⊆ vis' ->
  explored visit gc g evs vis a -> explored visit gc g evs' vis' a.
Proof.
  intros Hevs Hvis. unfold explored. destruct (enterOf visit).
  - intros (e & He & Hk & Hn & Hc). exists e. split; [by apply Hevs|].
    split; [done|]. split; [done|]. intros Hs b Hb. by apply Hvis, Hc.
  - intros Hc b Hb. by apply Hvis, Hc.
Qed.

(** What the loop over the children has covered, and what a call of [walk]
    has. *)
Lemma walkChildren_covers (walk : nat -> option C -> M St (option C)) :
  (forall n ctx st,
     (world st).1 = g ->
     wp (walk n ctx)
        (fun _ st' =>
           (world st').1 = g /\ visited st ⊆ visited st'
           /\ exists evs, trace st' = trace st ++ evs
              /\ (stopped st' = false ->
                  forall a, a = n \/ (a ∈ visited st' /\ a ∉ visited st) ->
                            hasNode g a = true ->
                            a ∈ visited st' /\ explored visit gc g evs (visited st') a))
        (fun _ => True) st) ->
  forall children ctx st,
    (world st).1 = g ->
    wp (walkChildren walk children ctx)
       (fun r st' =>
          (world st').1 = g /\ visited st ⊆ visited st'
          /\ exists evs, trace st' = trace st ++ evs
             /\ (stopped st' = false ->
                 r = None
                 /\ (forall c, c ∈ children -> c ∈ visited st')
                 /\ forall a, a ∈ visited st' -> a ∉ visited st -> hasNode g a = true ->
                              explored visit gc g evs (visited st') a))
       (fun _ => True) st.
Proof.
  intros Hwalk children. induction children as [|child rest IH]; intros ctx st Hw; simpl.
  - apply wp_ret. split; [done|]. split; [done|]. exists []. rewrite app_nil_r.
    split; [done|]. intros _. split; [done|]. split.
    + intros c Hc. by apply elem_of_nil in Hc.
    + intros a Ha Hna. done.
  - apply wp_bind, wp_get.
    destruct (set_has (visited st) child) eqn:Hhas.
    { apply bool_decide_eq_true in Hhas.
      eapply wp_mono; [by apply IH| |done].
      intros r st' (Hw' & Hv' & evs & Ht & Hcov). split; [done|]. split; [done|].
      exists evs. split; [done|]. intros Hs. destruct (Hcov Hs) as (Hr & Hc & Ha).
      split; [done|]. split; [|done].
      intros c Hin. apply elem_of_cons in Hin. destruct Hin as [->|Hin]; [by apply Hv'|by apply Hc]. }
    apply bool_decide_eq_false in Hhas.
    apply wp_bind, wp_modify.
    set (st1 := mkDfsState _ _ _ _ _).
    apply wp_bind.
    eapply wp_mono; [by apply Hwalk| |done].
    intros result st2 (Hw2 & Hv2 & evs1 & Ht1 & Hcov1). simpl in Hv2, Ht1.
    assert (Hsub1 : visited st ⊆ visited st2).
    { etrans; [apply (set_add_subseteq _ child)|exact Hv2]. }
    assert (Hc2 : child ∈ visited st2) by apply Hv2, elem_of_set_add_new.
    apply wp_bind, wp_get.
    destruct (stopped st2) eqn:Hs2.
    { apply wp_ret. split; [done|]. split; [done|]. exists evs1. split; [done|].
      intros Hs. congruence. }
    specialize (Hcov1 eq_refl).
    eapply wp_mono; [by apply IH| |done].
    intros r st' (Hw' & Hv' & evs2 & Ht2 & Hcov2).
    split; [done|]. split; [by etrans|].
    exists (evs1 ++ evs2). split; [by rewrite Ht2, Ht1, app_assoc|].
    intros Hs. destruct (Hcov2 Hs) as (Hr & Hc & Ha).
    split; [done|]. split.
    + intros c Hin. apply elem_of_cons in Hin.
      destruct Hin as [->|Hin]; [by apply Hv'|by apply Hc].
    + intros a Hin Hnot Hpresent.
      destruct (decide (a ∈ visited st2)) as [Hin2|Hnot2].
      * assert (Hwhich : a = child \/ (a ∈ visited st2 /\ a ∉ visited st1)).
        { destruct (decide (a = child)) as [->|Hne]; [by left|]. right. split; [done|].
          simpl. rewrite elem_of_set_add. tauto. }
        destruct (Hcov1 a Hwhich Hpresent) as [_ He].
        eapply explored_mono; [| |exact He]; [|done].
        intros e He'. apply elem_of_app. by left.
      * eapply explored_mono; [| |by apply Ha]; [|done].
        intros e He'. apply elem_of_app. by right.
Qed.

Lemma walk_covers fuel :
  forall n ctx st,
    (world st).1 = g ->
    wp (walk visit (fun w nodeId => gc w.1 nodeId) fuel n ctx)
       (fun _ st' =>
          (world st').1 = g /\ visited st ⊆ visited st'
          /\ exists evs, trace st' = trace st ++ evs
             /\ (stopped st' = false ->
                 forall a, a = n \/ (a ∈ visited st' /\ a ∉ visited st) ->
                           hasNode g a = true ->
                           a ∈ visited st' /\ explored visit gc g evs (visited st') a))
       (fun _ => True) st.
Proof.
  induction fuel as [|fuel IH]; intros n ctx st Hw; [by apply wp_timeout|].
  simpl. apply wp_bind, wp_get. rewrite Hw.
  destruct (hasNode g n) eqn:Hn; simpl.
  2:{ apply wp_ret. split; [done|]. split; [done|]. exists []. rewrite app_nil_r.
      split; [done|]. intros _ a [->|[Hin Hnot]] Hpresent; [congruence|done]. }
  apply wp_bind, wp_modify.
  set (st1 := mkDfsState _ _ _ _ _).
  assert (Hsub1 : visited st ⊆ visited st1) by apply set_add_subseteq.
  assert (Hn1 : n ∈ visited st1) by apply elem_of_set_add_new.
  (* what remains once [enter] has run *)
  assert (Hrest : forall ctx1 st2 before,
            (world st2).1 = g -> visited st2 = visited st1 ->
            trace st2 = trace st ++ before ->
            match enterOf visit with
            | Some _ => exists e, before = [e] /\ ev_kind e = Enter /\ ev_node e = n
                                  /\ skipped st2 = calledSkipChildren (ev_result e)
            | None => before = [] /\ skipped st2 = false
            end ->
            wp (st <- get ;;
                if skipped st then ret None
                else if stopped st then ret ctx1
                else
                  children <- (fun st => (gc (world st).1 n, st)) ;;
                  r <- walkChildren (walk visit (fun w nodeId => gc w.1 nodeId) fuel)
                         children ctx1 ;;
                  match r with
                  | Some result => ret result
                  | None => leave visit n ctx1
                  end)%js
               (fun _ : option C => fun st' =>
                  (world st').1 = g /\ visited st ⊆ visited st'
                  /\ exists evs, trace st' = trace st ++ evs
                     /\ (stopped st' = false ->
                         forall a, a = n \/ (a ∈ visited st' /\ a ∉ visited st) ->
                                   hasNode g a = true ->
                                   a ∈ visited st'
                                   /\ explored visit gc g evs (visited st') a))
               (fun _ => True) st2).
  { intros ctx1 st2 before Hw2 Hv2 Ht2 Henter.
    apply wp_bind, wp_get.
    destruct (skipped st2) eqn:Hsk.
    { (* the children are skipped *)
      apply wp_ret. split; [done|]. split; [by rewrite Hv2|].
      exists before. split; [done|]. intros _ a Ha Hpresent.
      assert (a = n) as ->.
      { destruct Ha as [->|[Hin Hnot]]; [done|]. rewrite Hv2 in Hin. simpl in Hin.
        apply elem_of_set_add in Hin. tauto. }
      split; [by rewrite Hv2|]. unfold explored.
      destruct (enterOf visit).
      - destruct Henter as (e & -> & Hk & Hnode & Hskip). exists e.
        split; [apply list_elem_of_singleton; reflexivity|]. split; [done|]. split; [done|].
        intros Hno. congruence.
      - destruct Henter as [_ Hskip]. congruence. }
    destruct (stopped st2) eqn:Hst2.
    { apply wp_ret. split; [done|]. split; [by rewrite Hv2|].
      exists before. split; [done|]. intros Hs. congruence. }
    apply wp_bind. unfold wp at 1. rewrite Hw2.
    destruct (gc g n) as [children| |] eqn:Hgc; [|done..].
    apply wp_bind.
    eapply wp_mono; [apply walkChildren_covers; [exact IH|done]| |done].
    intros r st3 (Hw3 & Hv3 & evs & Ht3 & Hcov).
    (* the node itself, once its loop is over *)
    assert (Hself : forall st' after,
              visited st' = visited st3 -> stopped st3 = false ->
              explored visit gc g (before ++ evs ++ after) (visited st') n).
    { intros st' after Hv' Hs3. destruct (Hcov Hs3) as (_ & Hc & _).
      unfold explored. destruct (enterOf visit).
      - destruct Henter as (e & -> & Hk & Hnode & Hskip). exists e.
        split; [apply elem_of_app; left; apply list_elem_of_singleton; reflexivity|].
        split; [done|]. split; [done|].
        intros _ b (l & Hl & Hb). rewrite Hv'. apply Hc. congruence.
      - intros b (l & Hl & Hb). rewrite Hv'. apply Hc. congruence. }
    assert (Hall : forall st' after,
              visited st' = visited st3 -> stopped st3 = false ->
              forall a, a = n \/ (a ∈ visited st' /\ a ∉ visited st) ->
                        hasNode g a = true ->
                        a ∈ visited st'
                        /\ explored visit gc g (before ++ evs ++ after) (visited st') a).
    { intros st' after Hv' Hs3 a Ha Hpresent.
      destruct (decide (a = n)) as [->|Hne].
      - split; [rewrite Hv'; apply Hv3; by rewrite Hv2|by apply Hself].
      - destruct Ha as [->|[Hin Hnot]]; [done|]. split; [done|].
        destruct (Hcov Hs3) as (_ & _ & Ha).
        eapply (explored_mono evs); [| |apply Ha]; [| |by rewrite <- Hv'| |done].
        + intros e He. apply elem_of_app. right. apply elem_of_app. by left.
        + by rewrite Hv'.
        + rewrite Hv2. simpl. intros Hin2. apply elem_of_set_add in Hin2. tauto. }
    destruct r as [result|].
    { apply wp_ret. split; [done|]. split; [etrans; [exact Hsub1|]; by rewrite <- Hv2|].
      exists (before ++ evs). split; [by rewrite Ht3, Ht2, app_assoc|].
      intros Hs3. destruct (Hcov Hs3) as (Hr & _). discriminate. }
    unfold leave. apply wp_bind, wp_get. apply wp_bind.
    assert (Hend : forall ctx' st' after,
              (world st').1 = g -> visited st' = visited st3 ->
              trace st' = trace st3 ++ after ->
              (stopped st' = false -> stopped st3 = false) ->
              wp (st <- get ;;
                  if skipped st then ret None
                  else if stopped st then ret ctx' else ret None)%js
                 (fun _ : option C => fun st' =>
                    (world st').1 = g /\ visited st ⊆ visited st'
                    /\ exists evs, trace st' = trace st ++ evs
                       /\ (stopped st' = false ->
                           forall a, a = n \/ (a ∈ visited st' /\ a ∉ visited st) ->
                                     hasNode g a = true ->
                                     a ∈ visited st'
                                     /\ explored visit gc g evs (visited st') a))
                 (fun _ => True) st').
    { intros ctx' st' after Hw' Hv' Ht' Hs'. apply wp_bind, wp_get.
      assert (Hgoal : (world st').1 = g /\ visited st ⊆ visited st'
                /\ exists evs0, trace st' = trace st ++ evs0
                   /\ (stopped st' = false ->
                       forall a, a = n \/ (a ∈ visited st' /\ a ∉ visited st) ->
                                 hasNode g a = true ->
                                 a ∈ visited st'
                                 /\ explored visit gc g evs0 (visited st') a)).
      { split; [done|]. split.
        { rewrite Hv'. etrans; [exact Hsub1|]. by rewrite <- Hv2. }
        exists (before ++ evs ++ after).
        split; [by rewrite Ht', Ht3, Ht2, !app_assoc|].
        intros Hs. by apply Hall, Hs'. }
      case (skipped st'); [|case (stopped st')]; apply wp_ret; exact Hgoal. }
    destruct (exitOf visit) as [exit|] eqn:Hexit.
    - destruct (hasNode (world st3).1 n).
      + apply wp_invoke_all. intros e st' Ht' _ _ _ Hres Hw' Hv' Hstop _.
        apply (Hend _ _ [e]); [|done|done|].
        * rewrite Hw', Hres. rewrite visit_leavesGraphAlone; [done|by right].
        * rewrite Hstop. intros H. by apply orb_false_iff in H as [? _].
      + apply wp_ret. apply (Hend _ _ []); [done|done|by rewrite app_nil_r|done].
    - apply wp_ret. apply (Hend _ _ []); [done|done|by rewrite app_nil_r|done]. }
  apply wp_bind.
  destruct (enterOf visit) as [enter|] eqn:Henter.
  - apply wp_invoke_all. intros e st2 Ht2 Hk Hnode _ Hres Hw2 Hv2 _ Hskip.
    apply (Hrest _ _ [e]); [|exact Hv2|exact Ht2|].
    + rewrite Hw2, Hres. rewrite visit_leavesGraphAlone; [done|by left].
    + exists e. split; [done|]. split; [done|]. split; [done|]. exact Hskip.
  - apply wp_ret. apply (Hrest _ _ []); [done|done|by rewrite app_nil_r|done].
Qed.

End DfsCovers.

(** ** Graph.dfs as a whole, on a graph the visitor does not change *)

Section DfsRun.
Import Graph.
Context {TNode S C : Type}.
Variable visit : @GraphVisitor TNode S C.
Variable gc : Graph.t TNode -> nat -> outcome (list nat).
Variable g : Graph.t TNode.
Hypothesis visit_leavesGraphAlone : leavesGraphAlone visit.

Abbreviation St := (@DfsState TNode S C).
Implicit Types st : St.

Lemma unvisited_le (vis : list nat) : unvisited g vis <= length (present g).
Proof. unfold unvisited. apply length_filter. Qed.

(** The run of [dfs] from a start node that is in the graph. *)
Lemma dfs_run_walk fuel startNodeId start (s : S) :
  traversalStart g startNodeId = Some start -> hasNode g start = true ->
  dfs_run visit (fun w nodeId => gc w.1 nodeId) fuel startNodeId (g, s)
  = walk visit (fun w nodeId => gc w.1 nodeId) fuel start None
      (mkDfsState [] false false (g, s) []).
Proof.
  unfold dfs_run, traversalStart. simpl. intros -> Hhas. by rewrite Hhas.
Qed.

Lemma dfs_run_reached fuel startNodeId (s : S) r st :
  dfs_run visit (fun w nodeId => gc w.1 nodeId) fuel startNodeId (g, s) = (r, st) ->
  (world st).1 = g
  /\ Forall (fun e => (ev_world e).1 = g
                      /\ hasNode g (ev_node e) = true
                      /\ exists start, traversalStart g startNodeId = Some start
                                       /\ rtc (stepVia visit gc g (trace st)) start (ev_node e))
            (trace st).
Proof.
  intros Hrun.
  pose proof (dfs_run_traversed _ _ _ _ _ _ _ Hrun) as (evs & Ht & Hpresent & _).
  simpl in Ht. subst evs.
  assert (Hd : dfs_run visit (fun w nodeId => gc w.1 nodeId) fuel startNodeId (g, s)
               = match traversalStart g startNodeId with
                 | None => (Throw "A start node is required to traverse",
                            mkDfsState [] false false (g, s) [])
                 | Some n =>
                     if hasNode g n
                     then walk visit (fun w nodeId => gc w.1 nodeId) fuel n None
                            (mkDfsState [] false false (g, s) [])
                     else (Throw "Does not have node", mkDfsState [] false false (g, s) [])
                 end) by reflexivity.
  rewrite Hd in Hrun. clear Hd.
  destruct (traversalStart g startNodeId) as [start|] eqn:Hstart;
    [|injection Hrun as <- <-; split; [done|constructor]].
  destruct (hasNode g start) eqn:Hhas;
    [|injection Hrun as <- <-; split; [done|constructor]].
  pose proof (walk_reached visit gc g visit_leavesGraphAlone fuel start None
                (mkDfsState [] false false (g, s) []) eq_refl) as Hr.
  unfold wp in Hr. rewrite Hrun in Hr.
  assert (Hreached : reachedFrom visit gc g [start]
                       (mkDfsState [] false false (g, s) []) st) by (by destruct r).
  destruct Hreached as (Hw & evs & Ht & Hf). simpl in Ht. subst evs.
  split; [done|].
  rewrite Forall_forall in Hf, Hpresent. apply Forall_forall. intros e He.
  destruct (Hf e He) as (Hwe & c & Hc & Hrtc). apply list_elem_of_singleton in Hc. subst c.
  split; [done|]. split.
  - specialize (Hpresent e He). unfold invokedOnPresentNode in Hpresent. by rewrite Hwe in Hpresent.
  - by exists start.
Qed.

Hypothesis gc_present : forall n, hasNode g n = true -> exists l, gc g n = Ok l.

Lemma dfs_run_returns fuel startNodeId start (s : S) :
  traversalStart g startNodeId = Some start -> hasNode g start = true ->
  length (present g) + 1 <= fuel ->
  exists ctx, (dfs_run visit (fun w nodeId => gc w.1 nodeId) fuel startNodeId (g, s)).1 = Ok ctx.
Proof.
  intros Hstart Hhas Hfuel. rewrite (dfs_run_walk _ _ start) by done.
  assert (Hlt : unvisited g (set_add [] start) + 2 <= fuel).
  { pose proof (unvisited_add g [] start Hhas (not_elem_of_nil _)).
    pose proof (unvisited_le []). lia. }
  pose proof (walk_total visit gc g visit_leavesGraphAlone gc_present fuel start None
                (mkDfsState [] false false (g, s) []) eq_refl ltac:(lia) (fun _ => Hlt)) as Ht.
  unfold wp in Ht.
  destruct (walk _ _ fuel start None _) as [[ctx| |] st]; [by exists ctx|done..].
Qed.

(** What a run that was not stopped has covered. *)
Lemma dfs_run_covers fuel startNodeId start (s : S) r st :
  traversalStart g startNodeId = Some start -> hasNode g start = true ->
  dfs_run visit (fun w nodeId => gc w.1 nodeId) fuel startNodeId (g, s) = (Ok r, st) ->
  stopped st = false ->
  start ∈ visited st
  /\ forall a, a ∈ visited st -> hasNode g a = true ->
               explored visit gc g (trace st) (visited st) a.
Proof.
  intros Hstart Hhas Hrun Hs. rewrite (dfs_run_walk _ _ start) in Hrun by done.
  pose proof (walk_covers visit gc g visit_leavesGraphAlone fuel start None
                (mkDfsState [] false false (g, s) []) eq_refl) as Hc.
  unfold wp in Hc. rewrite Hrun in Hc.
  destruct Hc as (_ & _ & evs & Ht & Hcov). simpl in Ht. subst evs.
  specialize (Hcov Hs). split.
  - by apply (Hcov start (or_introl eq_refl) Hhas).
  - intros a Ha Hpresent. apply (Hcov a); [|done]. right. split; [done|]. apply not_elem_of_nil.
Qed.

(** Along steps whose source was entered without skipping its children, a
    run that was not stopped has visited every node. *)
Lemma dfs_run_visits_what_it_can fuel startNodeId start (s : S) r st :
  traversalStart g startNodeId = Some start -> hasNode g start = true ->
  dfs_run visit (fun w nodeId => gc w.1 nodeId) fuel startNodeId (g, s) = (Ok r, st) ->
  stopped st = false ->
  forall m,
    rtc (fun a b =>
           hasNode g a = true /\ childVia gc g a b
           /\ forall e, e ∈ trace st -> ev_kind e = Enter -> ev_node e = a ->
                        calledSkipChildren (ev_result e) = false) start m ->
    m ∈ visited st.
Proof.
  intros Hstart Hhas Hrun Hs m Hpath.
  destruct (dfs_run_covers _ _ _ _ _ _ Hstart Hhas Hrun Hs) as [Hin Hcov].
  clear Hstart Hhas Hrun.
  induction Hpath as [a|a b c (Ha & Hab & Hskip) Hbc IH]; [done|].
  apply IH. specialize (Hcov a Hin Ha). unfold explored in Hcov.
  destruct (enterOf visit).
  - destruct Hcov as (e & He & Hk & Hn & Hc). apply Hc; [|done]. by apply Hskip.
  - by apply Hcov.
Qed.

End DfsRun.

(** ** Graph.traverse and Graph.traverseAncestors *)

Section TraverseFacts.
Import Graph.
Context {TNode S C : Type}.
Variable g : Graph.t TNode.
Variable type : TypeSpec.

Abbreviation forwards := (fun (g : Graph.t TNode) n => getNodeIdsConnectedFrom g n type).
Abbreviation backwards := (fun (g : Graph.t TNode) n => getNodeIdsConnectedTo g n type).

Lemma childVia_forwards a b : childVia forwards g a b <-> linkFrom g type a b.
Proof.
  unfold childVia, linkFrom, edgeBetween, getNodeIdsConnectedFrom. split.
  - intros (l & Hl & Hb). destruct (hasNode g a); [|discriminate].
    injection Hl as <-. split; [done|]. by apply elem_of_getNodesConnectedFrom.
  - intros [Ha He]. rewrite Ha. eexists. split; [reflexivity|].
    by apply elem_of_getNodesConnectedFrom.
Qed.

Lemma childVia_backwards a b : childVia backwards g a b <-> linkTo g type a b.
Proof.
  unfold childVia, linkTo, edgeBetween, getNodeIdsConnectedTo. split.
  - intros (l & Hl & Hb). destruct (hasNode g a); [|discriminate].
    injection Hl as <-. split; [done|]. by apply elem_of_getNodesConnectedTo.
  - intros [Ha He]. rewrite Ha. eexists. split; [reflexivity|].
    by apply elem_of_getNodesConnectedTo.
Qed.

Lemma forwards_present n : hasNode g n = true -> exists l, forwards g n = Ok l.
Proof. intros H. unfold getNodeIdsConnectedFrom. rewrite H. by eexists. Qed.

Lemma backwards_present n : hasNode g n = true -> exists l, backwards g n = Ok l.
Proof. intros H. unfold getNodeIdsConnectedTo. rewrite H. by eexists. Qed.

Variable visit : @GraphVisitor TNode S C.
Hypothesis visit_leavesGraphAlone : leavesGraphAlone visit.

(** The three facts, for any neighbour query that agrees with a link
    relation. *)
Lemma dfs_withinReach (gc : Graph.t TNode -> nat -> outcome (list nat)) (link : relation nat)
    fuel startNodeId (s : S) :
  (forall a b, childVia gc g a b -> link a b) ->
  withinReach visit g link startNodeId
    (dfs_run visit (fun w nodeId => gc w.1 nodeId) fuel startNodeId (g, s)).2.
Proof.
  intros Hlink.
  destruct (dfs_run visit _ fuel startNodeId (g, s)) as [r st] eqn:Hrun.
  destruct (dfs_run_reached visit gc g visit_leavesGraphAlone _ _ _ _ _ Hrun) as [Hw Hf].
  split; [done|]. simpl. eapply Forall_impl; [exact Hf|].
  intros e (He & Hp & start & Hstart & Hr). split; [done|]. split; [done|].
  exists start. split; [done|]. eapply rtc_subrel; [|exact Hr].
  intros a b [Hc Hu]. split; [by apply Hlink|done].
Qed.

Lemma dfs_endsAsExpected (gc : Graph.t TNode -> nat -> outcome (list nat))
    fuel startNodeId (s : S) :
  (forall n, hasNode g n = true -> exists l, gc g n = Ok l) ->
  length (present g) + 1 <= fuel ->
  endsAsExpected g startNodeId
    (dfs_run visit (fun w nodeId => gc w.1 nodeId) fuel startNodeId (g, s)).1.
Proof.
  intros Hgc Hfuel. unfold endsAsExpected.
  destruct (traversalStart g startNodeId) as [start|] eqn:Hstart.
  - destruct (hasNode g start) eqn:Hhas.
    + by apply (dfs_run_returns visit gc g visit_leavesGraphAlone Hgc fuel startNodeId start s).
    + unfold dfs_run. unfold traversalStart in Hstart. simpl. rewrite Hstart, Hhas. done.
  - unfold dfs_run. unfold traversalStart in Hstart. simpl. by rewrite Hstart.
Qed.

Lemma dfs_coversReach (gc : Graph.t TNode -> nat -> outcome (list nat)) (link : relation nat)
    fuel startNodeId start (s : S) r st :
  (forall a b, link a b -> hasNode g a = true /\ childVia gc g a b) ->
  traversalStart g startNodeId = Some start -> hasNode g start = true ->
  dfs_run visit (fun w nodeId => gc w.1 nodeId) fuel startNodeId (g, s) = (Ok r, st) ->
  stopped st = false ->
  coversReach visit g link start st.
Proof.
  intros Hlink Hstart Hhas Hrun Hs m Hm Hpath.
  assert (Hin : m ∈ visited st).
  { eapply (dfs_run_visits_what_it_can visit gc g); eauto.
    eapply rtc_subrel; [|exact Hpath]. intros a b [Hab Hskip].
    destruct (Hlink a b Hab). by repeat split. }
  split; [done|]. intros [cb Hcb].
  destruct (dfs_run_covers visit gc g visit_leavesGraphAlone _ _ _ _ _ _ Hstart Hhas Hrun Hs)
    as [_ Hcov].
  specialize (Hcov m Hin Hm). unfold explored in Hcov. rewrite Hcb in Hcov.
  destruct Hcov as (e & He & Hk & Hn & _).
  unfold entered. apply list_elem_of_fmap. exists e. split; [done|].
  apply list_elem_of_In, filter_In. split; [by apply list_elem_of_In|by rewrite Hk].
Qed.

End TraverseFacts.

(** X13: a traversal whose visitor leaves the graph alone only calls back
    on nodes of the graph that can be reached from the start node: along
    outgoing edges of the given types for [traverse], along incoming ones
    for [traverseAncestors], and only through nodes that were entered
    without [skipChildren()]. *)
Theorem traversals_call_back_within_reach {TNode S C : Type}
    (visit : @Graph.GraphVisitor TNode S C) (g : Graph.t TNode) (s : S)
    (fuel : nat) (startNodeId : option nat) (type : Graph.TypeSpec) :
  leavesGraphAlone visit ->
  withinReach visit g (linkFrom g type) startNodeId
    (Graph.traverse_run fuel visit startNodeId type (g, s)).2
  /\ withinReach visit g (linkTo g type) startNodeId
       (Graph.traverseAncestors_run fuel startNodeId visit type (g, s)).2.
Proof.
  intros Halone. split.
  - apply (dfs_withinReach g visit Halone (fun g n => Graph.getNodeIdsConnectedFrom g n type)).
    intros a b. apply childVia_forwards.
  - apply (dfs_withinReach g visit Halone (fun g n => Graph.getNodeIdsConnectedTo g n type)).
    intros a b. apply childVia_backwards.
Qed.

(** X14: a traversal whose visitor leaves the graph alone returns, from any
    start node that is in the graph, cycles or not; without a start node
    and without a root it throws, and so it does for a start node that is
    not in the graph.  (The bound on the fuel is one more than the number of
    nodes.) *)
Theorem traversals_return {TNode S C : Type}
    (visit : @Graph.GraphVisitor TNode S C) (g : Graph.t TNode) (s : S)
    (fuel : nat) (startNodeId : option nat) (type : Graph.TypeSpec) :
  leavesGraphAlone visit ->
  length (present g) + 1 <= fuel ->
  endsAsExpected g startNodeId (Graph.traverse_run fuel visit startNodeId type (g, s)).1
  /\ endsAsExpected g startNodeId
       (Graph.traverseAncestors_run fuel startNodeId visit type (g, s)).1.
Proof.
  intros Halone Hfuel. split.
  - apply (dfs_endsAsExpected g visit Halone
             (fun g n => Graph.getNodeIdsConnectedFrom g n type)); [|done].
    apply forwards_present.
  - apply (dfs_endsAsExpected g visit Halone
             (fun g n => Graph.getNodeIdsConnectedTo g n type)); [|done].
    apply backwards_present.
Qed.

(** X15: a traversal that returned without having been stopped, with a
    visitor that leaves the graph alone, has visited (and entered, when
    the visitor has an [enter]) every node of the graph that can be reached
    from the start node through nodes whose [enter] did not call
    [skipChildren()]. *)
Theorem unstopped_traversals_cover_their_reach {TNode S C : Type}
    (visit : @Graph.GraphVisitor TNode S C) (g : Graph.t TNode) (s : S)
    (fuel : nat) (startNodeId : option nat) (start : nat) (type : Graph.TypeSpec) :
  leavesGraphAlone visit ->
  traversalStart g startNodeId = Some start ->
  Graph.hasNode g start = true ->
  (forall r st, Graph.traverse_run fuel visit startNodeId type (g, s) = (Ok r, st) ->
                Graph.stopped st = false ->
                coversReach visit g (linkFrom g type) start st)
  /\ (forall r st, Graph.traverseAncestors_run fuel startNodeId visit type (g, s) = (Ok r, st) ->
                   Graph.stopped st = false ->
                   coversReach visit g (linkTo g type) start st).
Proof.
  intros Halone Hstart Hhas. split; intros r st Hrun Hs.
  - eapply (dfs_coversReach g visit Halone
              (fun g n => Graph.getNodeIdsConnectedFrom g n type)); eauto.
    intros a b Hab. split; [by destruct Hab|by apply childVia_forwards].
  - eapply (dfs_coversReach g visit Halone
              (fun g n => Graph.getNodeIdsConnectedTo g n type)); eauto.
    intros a b Hab. split; [by destruct Hab|by apply childVia_backwards].
Qed.

(** ** The searches and the orphan test, as traversals *)

Section SearchFacts.
Import Graph GraphMethods.
Context {TNode : Type}.
Variable g : Graph.t TNode.

(** An event of a visitor that is a function. *)
Lemma genuine_function {S C} (f : @Callback TNode S C) e :
  genuine (VisitFunction f) e ->
  ev_kind e = Enter /\ ev_result e = f (ev_node e) (ev_context e) (ev_world e).
Proof.
  intros (cb & Hcb & Hres). destruct (ev_kind e); simpl in Hcb; [|discriminate].
  injection Hcb as <-. by split.
Qed.

Lemma entered_function {S C} (f : @Callback TNode S C) (evs : list (@Event TNode S C)) :
  Forall (genuine (VisitFunction f)) evs -> entered evs = ev_node <$> evs.
Proof.
  induction 1 as [|e evs He _ IH]; [done|].
  unfold entered in *. simpl. destruct (genuine_function f e He) as [-> _].
  rewrite !fmap_cons. by f_equal.
Qed.

(** A run that is stopped ends with the event that stopped it. *)
Lemma dfs_run_stopped {S C} (visit : @GraphVisitor TNode S C) getChildren fuel start w r st :
  dfs_run visit getChildren fuel start w = (r, st) ->
  if stopped st
  then exists evs e, trace st = evs ++ [e] /\ Forall (fun e' => stopsAt e' = false) evs
                     /\ stopsAt e = true
  else Forall (fun e' => stopsAt e' = false) (trace st).
Proof.
  intros Hrun. apply dfs_run_traversed in Hrun.
  destruct Hrun as (evs & Ht & _ & Hstop & _). simpl in Ht. subst evs. exact Hstop.
Qed.

(** *** [findAncestors] and [findDescendants] *)

Lemma findAll_leavesGraphAlone fn : leavesGraphAlone (@findAll_visitor TNode fn).
Proof.
  intros cb [Hcb|Hcb] n ctx w; simpl in Hcb; [|discriminate].
  injection Hcb as <-. by destruct (fn n).
Qed.

Lemma findAll_event fn e :
  genuine (@findAll_visitor TNode fn) e ->
  ev_kind e = Enter
  /\ calledSkipChildren (ev_result e) = fn (ev_node e)
  /\ stopsAt e = false
  /\ (worldAfter (ev_result e)).2
     = (ev_world e).2 ++ (if fn (ev_node e) then [ev_node e] else []).
Proof.
  intros He. apply genuine_function in He. destruct He as [Hk Hres].
  unfold stopsAt. rewrite Hres. split; [done|].
  destruct (fn (ev_node e)); simpl; repeat split; auto. by rewrite app_nil_r.
Qed.

Lemma findAll_chain fn evs : forall w w',
  Forall (genuine (@findAll_visitor TNode fn)) evs -> chained w evs w' ->
  w'.2 = w.2 ++ List.filter fn (ev_node <$> evs).
Proof.
  induction evs as [|e evs IH]; intros w w' Hg Hc; simpl in *.
  - subst w'. by rewrite app_nil_r.
  - apply Forall_cons in Hg. destruct Hg as [He Hg]. destruct Hc as [Hw Hc].
    rewrite (IH _ _ Hg Hc).
    destruct (findAll_event fn e He) as (_ & _ & _ & ->). rewrite Hw.
    destruct (fn (ev_node e)); by rewrite <- app_assoc.
Qed.

(** One search for all, in either direction. *)
Lemma findAll_spec (gc : Graph.t TNode -> nat -> outcome (list nat)) (link : relation nat)
    fuel n fn :
  (forall a b, childVia gc g a b <-> link a b) ->
  (forall a b, link a b -> hasNode g a = true) ->
  (forall a, hasNode g a = true -> exists l, gc g a = Ok l) ->
  hasNode g n = true -> length (present g) + 1 <= fuel ->
  exists res,
    resultOf (dfs_run (findAll_visitor fn) (fun w nodeId => gc w.1 nodeId) fuel (Some n) (g, []))
    = Ok res
    /\ NoDup res
    /\ forall m, m ∈ res <->
                 fn m = true /\ hasNode g m = true
                 /\ rtc (fun a b => link a b /\ fn a = false) n m.
Proof.
  intros Hlink Hsource Hgc Hn Hfuel.
  pose proof (findAll_leavesGraphAlone fn) as Halone.
  destruct (dfs_run_returns (findAll_visitor fn) gc g Halone Hgc fuel (Some n) n []
              eq_refl Hn Hfuel) as [ctx Hok].
  destruct (dfs_run (findAll_visitor fn) _ fuel (Some n) (g, [])) as [r st] eqn:Hrun.
  simpl in Hok. subst r. simpl.
  destruct (dfs_run_logged _ _ _ _ _ _ _ Hrun) as [Hchain Hgen].
  pose proof (findAll_chain fn _ _ _ Hgen Hchain) as Hres. simpl in Hres.
  pose proof (dfs_run_stopped _ _ _ _ _ _ _ Hrun) as Hstop.
  assert (Hs : stopped st = false).
  { destruct (stopped st); [|done]. destruct Hstop as (evs & e & Ht & _ & He).
    rewrite Ht in Hgen. apply Forall_app in Hgen. destruct Hgen as [_ Hgen].
    apply Forall_cons in Hgen. destruct Hgen as [Hgen _].
    destruct (findAll_event fn e Hgen) as (_ & _ & Hno & _). congruence. }
  assert (Hskip : forall e, e ∈ trace st -> calledSkipChildren (ev_result e) = fn (ev_node e)).
  { intros e He. rewrite Forall_forall in Hgen.
    by destruct (findAll_event fn e (Hgen e He)) as (_ & H & _). }
  exists (world st).2. split; [done|]. rewrite Hres. split.
  - apply NoDup_ListNoDup, List.NoDup_filter, NoDup_ListNoDup.
    rewrite <- (entered_function _ _ Hgen).
    exact (dfs_run_once (findAll_visitor fn) (fun w nodeId => gc w.1 nodeId) fuel (Some n)
             (g, []) _ _ Hrun).
  - intros m. rewrite list_elem_of_In, filter_In, <- list_elem_of_In, list_elem_of_fmap.
    split.
    + intros [(e & -> & He) Hfn]. split; [done|].
      pose proof (dfs_withinReach g (findAll_visitor fn) Halone gc link fuel (Some n) []
                    (fun a b => proj1 (Hlink a b))) as [_ Hreach].
      rewrite Hrun in Hreach. simpl in Hreach. rewrite Forall_forall in Hreach.
      destruct (Hreach e He) as (_ & Hpresent & start & [= <-] & Hpath).
      split; [done|]. eapply rtc_subrel; [|exact Hpath].
      intros a b [Hab (e' & He' & _ & <- & Hno)]. split; [done|].
      by rewrite <- (Hskip e' He').
    + intros (Hfn & Hm & Hpath). split; [|done].
      assert (Hcov : coversReach (findAll_visitor fn) g link n st).
      { eapply (dfs_coversReach g (findAll_visitor fn) Halone gc link fuel (Some n) n []);
          [|done|done|exact Hrun|done].
        intros a b Hab. split; [by eapply Hsource|by apply Hlink]. }
      destruct (Hcov m Hm) as [_ Hentered].
      { eapply rtc_subrel; [|exact Hpath]. intros a b [Hab Ha]. split; [done|].
        intros e He _ Hnode. by rewrite (Hskip e He), Hnode. }
      specialize (Hentered ltac:(by eexists)).
      rewrite (entered_function _ _ Hgen) in Hentered.
      by apply list_elem_of_fmap in Hentered.
Qed.

(** *** [findAncestor] and [findDescendant] *)

Lemma findFirst_leavesGraphAlone fn : leavesGraphAlone (@findFirst_visitor TNode fn).
Proof.
  intros cb [Hcb|Hcb] n ctx w; simpl in Hcb; [|discriminate].
  injection Hcb as <-. by destruct (fn n).
Qed.

Lemma findFirst_event fn e :
  genuine (@findFirst_visitor TNode fn) e ->
  ev_kind e = Enter
  /\ calledSkipChildren (ev_result e) = false
  /\ stopsAt e = fn (ev_node e)
  /\ (worldAfter (ev_result e)).2
     = if fn (ev_node e) then Some (ev_node e) else (ev_world e).2.
Proof.
  intros He. apply genuine_function in He. destruct He as [Hk Hres].
  unfold stopsAt. rewrite Hres. split; [done|].
  destruct (fn (ev_node e)); simpl; repeat split; auto.
Qed.

Lemma findFirst_chain fn evs : forall w w',
  Forall (genuine (@findFirst_visitor TNode fn)) evs -> chained w evs w' ->
  w'.2 = match last (List.filter fn (ev_node <$> evs)) with
         | Some m => Some m
         | None => w.2
         end.
Proof.
  induction evs as [|e evs IH]; intros w w' Hg Hc.
  - simpl in *. by subst w'.
  - apply Forall_cons in Hg. destruct Hg as [He Hg]. destruct Hc as [Hw Hc].
    rewrite (IH _ _ Hg Hc).
    destruct (findFirst_event fn e He) as (_ & _ & _ & ->). rewrite Hw.
    rewrite fmap_cons. cbn [List.filter].
    destruct (fn (ev_node e)) eqn:Hfn; [|done].
    destruct (List.filter fn (ev_node <$> evs)) as [|x l] eqn:Hfilter; [done|].
    rewrite (last_cons (ev_node e)). by destruct (last (x :: l)).
Qed.

Lemma filter_none {A} (f : A -> bool) (l : list A) :
  Forall (fun x => f x = false) l -> List.filter f l = [].
Proof. induction 1 as [|x l Hx _ IH]; simpl; [done|]. by rewrite Hx. Qed.

(** One search for the first match, in either direction. *)
Lemma findFirst_spec (gc : Graph.t TNode -> nat -> outcome (list nat)) (link : relation nat)
    fuel n fn :
  (forall a b, childVia gc g a b <-> link a b) ->
  (forall a b, link a b -> hasNode g a = true) ->
  (forall a, hasNode g a = true -> exists l, gc g a = Ok l) ->
  hasNode g n = true -> length (present g) + 1 <= fuel ->
  exists res,
    resultOf (dfs_run (findFirst_visitor fn) (fun w nodeId => gc w.1 nodeId) fuel (Some n)
                (g, None))
    = Ok res
    /\ match res with
       | Some m => fn m = true /\ hasNode g m = true /\ rtc link n m
       | None => forall m, hasNode g m = true -> rtc link n m -> fn m = false
       end.
Proof.
  intros Hlink Hsource Hgc Hn Hfuel.
  pose proof (findFirst_leavesGraphAlone fn) as Halone.
  destruct (dfs_run_returns (findFirst_visitor fn) gc g Halone Hgc fuel (Some n) n None
              eq_refl Hn Hfuel) as [ctx Hok].
  destruct (dfs_run (findFirst_visitor fn) _ fuel (Some n) (g, None)) as [r st] eqn:Hrun.
  simpl in Hok. subst r. simpl.
  destruct (dfs_run_logged _ _ _ _ _ _ _ Hrun) as [Hchain Hgen].
  pose proof (findFirst_chain fn _ _ _ Hgen Hchain) as Hres. simpl in Hres.
  pose proof (dfs_run_stopped _ _ _ _ _ _ _ Hrun) as Hstop.
  assert (Hev : forall e, e ∈ trace st ->
                          calledSkipChildren (ev_result e) = false
                          /\ stopsAt e = fn (ev_node e)).
  { intros e He. rewrite Forall_forall in Hgen.
    by destruct (findFirst_event fn e (Hgen e He)) as (_ & H1 & H2 & _). }
  exists (world st).2. split; [done|]. rewrite Hres.
  destruct (stopped st) eqn:Hs.
  - destruct Hstop as (evs & e & Ht & Hno & Hyes).
    assert (He : e ∈ trace st).
    { rewrite Ht. apply elem_of_app. right. apply list_elem_of_singleton. reflexivity. }
    destruct (Hev e He) as [_ Hfn]. rewrite Hyes in Hfn.
    rewrite Ht, fmap_app, List.filter_app, filter_none.
    2:{ apply Forall_fmap. apply Forall_forall. intros e' He'. simpl.
        rewrite Forall_forall in Hno.
        destruct (Hev e') as [_ <-]; [|by apply Hno].
        rewrite Ht. apply elem_of_app. by left. }
    simpl. rewrite <- Hfn. simpl. split; [done|].
    pose proof (dfs_withinReach g (findFirst_visitor fn) Halone gc link fuel (Some n) None
                  (fun a b => proj1 (Hlink a b))) as [_ Hreach].
    rewrite Hrun in Hreach. simpl in Hreach. rewrite Forall_forall in Hreach.
    destruct (Hreach e He) as (_ & Hpresent & start & [= <-] & Hpath).
    split; [done|]. eapply rtc_subrel; [|exact Hpath]. by intros a b [Hab _].
  - rewrite filter_none.
    2:{ apply Forall_fmap. apply Forall_forall. intros e He. simpl.
        rewrite Forall_forall in Hstop. destruct (Hev e He) as [_ <-]. by apply Hstop. }
    simpl. intros m Hm Hpath.
    assert (Hcov : coversReach (findFirst_visitor fn) g link n st).
    { eapply (dfs_coversReach g (findFirst_visitor fn) Halone gc link fuel (Some n) n None);
        [|done|done|exact Hrun|done].
      intros a b Hab. split; [by eapply Hsource|by apply Hlink]. }
    destruct (Hcov m Hm) as [_ Hentered].
    { eapply rtc_subrel; [|exact Hpath]. intros a b Hab. split; [done|].
      intros e He _ _. by destruct (Hev e He). }
    specialize (Hentered ltac:(by eexists)).
    rewrite (entered_function _ _ Hgen) in Hentered.
    apply list_elem_of_fmap in Hentered. destruct Hentered as (e & -> & He).
    destruct (Hev e He) as [_ <-]. rewrite Forall_forall in Hstop. by apply Hstop.
Qed.

(** *** [isOrphanedNode] *)

Lemma isOrphanedNode_leavesGraphAlone : leavesGraphAlone (@isOrphanedNode_visitor TNode).
Proof.
  intros cb [Hcb|Hcb] n ctx w; simpl in Hcb; [|discriminate].
  injection Hcb as <-. by case_bool_decide.
Qed.

Lemma isOrphanedNode_event e :
  genuine (@isOrphanedNode_visitor TNode) e ->
  (ev_world e).1 = g ->
  ev_kind e = Enter
  /\ calledSkipChildren (ev_result e) = false
  /\ stopsAt e = bool_decide (Some (ev_node e) = rootNodeId g)
  /\ (worldAfter (ev_result e)).2
     = (ev_world e).2 || bool_decide (Some (ev_node e) = rootNodeId g).
Proof.
  intros He Hw. apply genuine_function in He. destruct He as [Hk Hres].
  unfold stopsAt. rewrite Hres. simpl. rewrite Hw. split; [done|].
  destruct (bool_decide (Some (ev_node e) = rootNodeId g)); simpl; repeat split; auto;
    by rewrite ?orb_true_r, ?orb_false_r.
Qed.

Lemma isOrphanedNode_chain evs : forall w w',
  Forall (genuine (@isOrphanedNode_visitor TNode)) evs ->
  Forall (fun e => (ev_world e).1 = g) evs ->
  chained w evs w' ->
  w'.2 = w.2 || existsb (fun e => bool_decide (Some (ev_node e) = rootNodeId g)) evs.
Proof.
  induction evs as [|e evs IH]; intros w w' Hg Hws Hc; simpl in *.
  - subst w'. by rewrite orb_false_r.
  - apply Forall_cons in Hg. destruct Hg as [He Hg].
    apply Forall_cons in Hws. destruct Hws as [Hwe Hws]. destruct Hc as [Hw Hc].
    rewrite (IH _ _ Hg Hws Hc).
    destruct (isOrphanedNode_event e He Hwe) as (_ & _ & _ & ->). rewrite Hw.
    by rewrite orb_assoc.
Qed.

Lemma isOrphanedNode_spec fuel n root :
  rootNodeId g = Some root ->
  hasNode g n = true -> length (present g) + 1 <= fuel ->
  exists orphaned,
    isOrphanedNode fuel g n = Ok orphaned
    /\ (orphaned = false <->
        hasNode g root = true /\ rtc (linkTo g ALL_EDGE_TYPES) n root).
Proof.
  intros Hroot Hn Hfuel.
  pose proof isOrphanedNode_leavesGraphAlone as Halone.
  unfold isOrphanedNode. rewrite Hn, Hroot. simpl.
  unfold traverseAncestors_run.
  set (gc := fun (g : Graph.t TNode) nodeId => getNodeIdsConnectedTo g nodeId ALL_EDGE_TYPES).
  destruct (dfs_run_returns isOrphanedNode_visitor gc g Halone
              (backwards_present g ALL_EDGE_TYPES) fuel (Some n) n false
              eq_refl Hn Hfuel) as [ctx Hok].
  change (dfs_run isOrphanedNode_visitor
            (fun w nodeId => getNodeIdsConnectedTo w.1 nodeId ALL_EDGE_TYPES)
            fuel (Some n) (g, false))
    with (dfs_run isOrphanedNode_visitor (fun w nodeId => gc w.1 nodeId)
            fuel (Some n) (g, false)).
  destruct (dfs_run isOrphanedNode_visitor _ fuel (Some n) (g, false)) as [r st] eqn:Hrun.
  simpl in Hok. subst r.
  destruct (dfs_run_logged _ _ _ _ _ _ _ Hrun) as [Hchain Hgen].
  pose proof (dfs_withinReach g isOrphanedNode_visitor Halone gc (linkTo g ALL_EDGE_TYPES)
                fuel (Some n) false (fun a b => proj1 (childVia_backwards g ALL_EDGE_TYPES a b)))
    as [_ Hreach].
  rewrite Hrun in Hreach. simpl in Hreach.
  assert (Hworlds : Forall (fun e => (ev_world e).1 = g) (trace st)).
  { eapply Forall_impl; [exact Hreach|]. by intros e (He & _). }
  pose proof (isOrphanedNode_chain _ _ _ Hgen Hworlds Hchain) as Hflag. simpl in Hflag.
  pose proof (dfs_run_stopped _ _ _ _ _ _ _ Hrun) as Hstop.
  assert (Hev : forall e, e ∈ trace st ->
                          calledSkipChildren (ev_result e) = false
                          /\ stopsAt e = bool_decide (Some (ev_node e) = rootNodeId g)).
  { intros e He. rewrite Forall_forall in Hgen, Hworlds.
    by destruct (isOrphanedNode_event e (Hgen e He) (Hworlds e He)) as (_ & H1 & H2 & _). }
  eexists. split; [reflexivity|]. rewrite Hflag.
  destruct (existsb _ (trace st)) eqn:Hex.
  - split; [intros _|done].
    apply existsb_exists in Hex. destruct Hex as (e & He & Hb).
    apply list_elem_of_In in He. apply bool_decide_eq_true in Hb.
    rewrite Hroot in Hb. injection Hb as Hb.
    rewrite Forall_forall in Hreach.
    destruct (Hreach e He) as (_ & Hpresent & start & [= <-] & Hpath). rewrite Hb in *.
    split; [done|]. eapply rtc_subrel; [|exact Hpath]. by intros a b [Hab _].
  - split; [done|]. intros [Hpresent Hpath]. exfalso.
    assert (Hnone : forall e, e ∈ trace st -> stopsAt e = false).
    { intros e He. destruct (Hev e He) as [_ ->].
      destruct (bool_decide _) eqn:Hb; [|done].
      assert (existsb (fun e => bool_decide (Some (ev_node e) = rootNodeId g)) (trace st)
              = true); [|congruence].
      apply existsb_exists. exists e. split; [by apply list_elem_of_In|done]. }
    assert (Hs : stopped st = false).
    { destruct (stopped st); [|done]. destruct Hstop as (evs & e & Ht & _ & He).
      rewrite Hnone in He; [done|].
      rewrite Ht. apply elem_of_app. right. apply list_elem_of_singleton. reflexivity. }
    assert (Hcov : coversReach isOrphanedNode_visitor g (linkTo g ALL_EDGE_TYPES) n st).
    { eapply (dfs_coversReach g isOrphanedNode_visitor Halone gc (linkTo g ALL_EDGE_TYPES)
                fuel (Some n) n false); [|done|done|exact Hrun|done].
      intros a b Hab. split; [by destruct Hab|by apply childVia_backwards]. }
    destruct (Hcov root Hpresent) as [_ Hentered].
    { eapply rtc_subrel; [|exact Hpath]. intros a b Hab. split; [done|].
      intros e He _ _. by destruct (Hev e He). }
    specialize (Hentered ltac:(by eexists)).
    rewrite (entered_function _ _ Hgen) in Hentered.
    apply list_elem_of_fmap in Hentered. destruct Hentered as (e & Hnode & He).
    specialize (Hnone e He). destruct (Hev e He) as [_ Hst]. rewrite Hnone in Hst.
    symmetry in Hst. apply bool_decide_eq_false in Hst. apply Hst. by rewrite Hroot, Hnode.
Qed.

End SearchFacts.

(** X16: [isOrphanedNode] throws for a node that is not in the graph, and
    otherwise answers: with a root, that the node is orphaned exactly when
    no chain of incoming edges (of any type) through nodes of the graph
    leads back from it to the root, or the root is not in the graph;
    without a root, that it is orphaned exactly when no edge leads to it.
    (The bound on the fuel is one more than the number of nodes.) *)
Theorem isOrphanedNode_means_out_of_reach_of_the_root {TNode : Type} (fuel : nat)
    (g : Graph.t TNode) (nodeId : nat) :
  length (present g) + 1 <= fuel ->
  if Graph.hasNode g nodeId
  then exists orphaned,
         Graph.isOrphanedNode fuel g nodeId = Ok orphaned
         /\ (orphaned = false <->
             match Graph.rootNodeId g with
             | Some root =>
                 Graph.hasNode g root = true
                 /\ rtc (linkTo g Graph.ALL_EDGE_TYPES) nodeId root
             | None => exists e, e ∈ Graph.adjacencyList g /\ Graph.e_to e = nodeId
             end)
  else Graph.isOrphanedNode fuel g nodeId = Throw "Does not have node".
Proof.
  intros Hfuel. destruct (Graph.hasNode g nodeId) eqn:Hn.
  2:{ unfold Graph.isOrphanedNode. by rewrite Hn. }
  destruct (Graph.rootNodeId g) as [root|] eqn:Hroot.
  - by apply isOrphanedNode_spec.
  - unfold Graph.isOrphanedNode. rewrite Hn, Hroot. simpl.
    unfold Graph.AdjacencyList.getInboundEdgesByType.
    destruct (filter (fun e => Graph.e_to e = nodeId) (Graph.adjacencyList g))
      as [|e l] eqn:Hfilter; simpl.
    + exists true. split; [done|]. split; [done|]. intros (e & He & Hto).
      assert (Hin : e ∈ filter (fun e => Graph.e_to e = nodeId) (Graph.adjacencyList g))
        by (by apply list_elem_of_filter).
      rewrite Hfilter in Hin. by apply elem_of_nil in Hin.
    + exists false. split; [done|]. split; [|done]. intros _.
      assert (Hin : e ∈ filter (fun e => Graph.e_to e = nodeId) (Graph.adjacencyList g))
        by (rewrite Hfilter; left).
      apply list_elem_of_filter in Hin. exists e. tauto.
Qed.

(** X17: [removeEdge] does not prune a target that the root still reaches:
    when, with the edge gone, a chain of incoming edges through nodes of
    the graph leads from the target back to the root, the call unlinks the
    edge and does nothing else. *)
Theorem removeEdge_keeps_what_the_root_still_reaches {TNode : Type} (fuel : nat)
    (g : Graph.t TNode) (from to type root : nat) :
  Graph.hasEdge g from to type = true ->
  Graph.hasNode g to = true ->
  Graph.rootNodeId g = Some root ->
  Graph.hasNode g root = true ->
  rtc (linkTo (unlink g from to type) Graph.ALL_EDGE_TYPES) to root ->
  length (present g) + 1 <= fuel ->
  Graph.removeEdge (S fuel) from to type true g = (Ok tt, unlink g from to type).
Proof.
  intros Hedge Hto Hroot Hpresent Hpath Hfuel.
  apply removeEdge_not_orphaned; [done|].
  destruct (isOrphanedNode_spec (unlink g from to type) fuel to root Hroot Hto Hfuel)
    as (orphaned & -> & Hiff).
  f_equal. apply Hiff. by split.
Qed.

(** X18: [findDescendant] and [findAncestor] return, for a node of the
    graph: a node that satisfies the predicate and that a chain of edges of
    type 1 through nodes of the graph leads to (for [findAncestor]: leads
    from), or [null] when no such node satisfies the predicate. *)
Theorem findDescendant_and_findAncestor_find_a_match_in_reach {TNode : Type} (fuel : nat)
    (g : Graph.t TNode) (nodeId : nat) (fn : nat -> bool) :
  Graph.hasNode g nodeId = true ->
  length (present g) + 1 <= fuel ->
  (exists res,
     GraphMethods.findDescendant fuel g nodeId fn = Ok res
     /\ match res with
        | Some m => fn m = true /\ Graph.hasNode g m = true
                    /\ rtc (linkFrom g (Graph.OneType 1)) nodeId m
        | None => forall m, Graph.hasNode g m = true ->
                            rtc (linkFrom g (Graph.OneType 1)) nodeId m -> fn m = false
        end)
  /\ (exists res,
        GraphMethods.findAncestor fuel g nodeId fn = Ok res
        /\ match res with
           | Some m => fn m = true /\ Graph.hasNode g m = true
                       /\ rtc (linkTo g (Graph.OneType 1)) nodeId m
           | None => forall m, Graph.hasNode g m = true ->
                               rtc (linkTo g (Graph.OneType 1)) nodeId m -> fn m = false
           end).
Proof.
  intros Hn Hfuel. split.
  - apply (findFirst_spec g (fun g n => Graph.getNodeIdsConnectedFrom g n (Graph.OneType 1))
             (linkFrom g (Graph.OneType 1))); auto.
    + apply childVia_forwards.
    + by intros a b [Ha _].
    + apply forwards_present.
  - apply (findFirst_spec g (fun g n => Graph.getNodeIdsConnectedTo g n (Graph.OneType 1))
             (linkTo g (Graph.OneType 1))); auto.
    + apply childVia_backwards.
    + by intros a b [Ha _].
    + apply backwards_present.
Qed.

(** X19: [findDescendants] and [findAncestors] return, for a node of the
    graph, each once, exactly the nodes of the graph that satisfy the
    predicate and that a chain of edges of type 1 leads to (for
    [findAncestors]: leads from) through nodes of the graph that do not
    satisfy it: the search does not look behind a match. *)
Theorem findDescendants_and_findAncestors_find_the_nearest_matches {TNode : Type}
    (fuel : nat) (g : Graph.t TNode) (nodeId : nat) (fn : nat -> bool) :
  Graph.hasNode g nodeId = true ->
  length (present g) + 1 <= fuel ->
  (exists res,
     GraphMethods.findDescendants fuel g nodeId fn = Ok res
     /\ NoDup res
     /\ forall m, m ∈ res <->
                  fn m = true /\ Graph.hasNode g m = true
                  /\ rtc (fun a b => linkFrom g (Graph.OneType 1) a b /\ fn a = false)
                         nodeId m)
  /\ (exists res,
        GraphMethods.findAncestors fuel g nodeId fn = Ok res
        /\ NoDup res
        /\ forall m, m ∈ res <->
                     fn m = true /\ Graph.hasNode g m = true
                     /\ rtc (fun a b => linkTo g (Graph.OneType 1) a b /\ fn a = false)
                            nodeId m).
Proof.
  intros Hn Hfuel. split.
  - apply (findAll_spec g (fun g n => Graph.getNodeIdsConnectedFrom g n (Graph.OneType 1))
             (linkFrom g (Graph.OneType 1))); auto.
    + apply childVia_forwards.
    + by intros a b [Ha _].
    + apply forwards_present.
  - apply (findAll_spec g (fun g n => Graph.getNodeIdsConnectedTo g n (Graph.OneType 1))
             (linkTo g (Graph.OneType 1))); auto.
    + apply childVia_backwards.
    + by intros a b [Ha _].
    + apply backwards_present.
Qed.

(** ** The same on concrete graphs *)

Lemma idle_leavesGraphAlone : leavesGraphAlone GraphExamples.idle.
Proof.
  intros cb [H|H] n ctx w; [|discriminate]. by injection H as <-.
Qed.

(** On the cycle [0 -> 1 -> 0], forwards and backwards from the root. *)
Lemma traversals_call_back_within_reach_witness :
  let g := GraphExamples.cycle in
  let type := Graph.OneType 1 in
  withinReach GraphExamples.idle g (linkFrom g type) None
    (Graph.traverse_run 5 GraphExamples.idle None type (g, tt)).2
  /\ withinReach GraphExamples.idle g (linkTo g type) None
       (Graph.traverseAncestors_run 5 None GraphExamples.idle type (g, tt)).2.
Proof.
  intros g type.
  apply (traversals_call_back_within_reach GraphExamples.idle g tt 5 None type).
  exact idle_leavesGraphAlone.
Defined.

(** The cycle [0 -> 1 -> 0] has two nodes: with fuel [3] both traversals
    return. *)
Lemma traversals_return_witness :
  let g := GraphExamples.cycle in
  let type := Graph.OneType 1 in
  length (present g) + 1 <= 3
  /\ endsAsExpected g None (Graph.traverse_run 3 GraphExamples.idle None type (g, tt)).1
  /\ endsAsExpected g None (Graph.traverseAncestors_run 3 None GraphExamples.idle type (g, tt)).1.
Proof.
  intros g type.
  assert (Hfuel : length (present g) + 1 <= 3) by (vm_compute; lia).
  split; [exact Hfuel|].
  apply (traversals_return GraphExamples.idle g tt 3 None type);
    [exact idle_leavesGraphAlone|exact Hfuel].
Defined.

(** From the root of the fan, the traversal visits [0], [1] and [2]; node
    [3] is out of reach. *)
Lemma unstopped_traversals_cover_their_reach_witness :
  let g := GraphExamples.fan in
  let type := Graph.OneType 1 in
  let run := Graph.traverse_run 5 GraphExamples.idle None type (g, tt) in
  Graph.visited run.2 = [0; 1; 2]
  /\ coversReach GraphExamples.idle g (linkFrom g type) 0 run.2.
Proof.
  intros g type run.
  split; [vm_compute; reflexivity|].
  destruct (unstopped_traversals_cover_their_reach GraphExamples.idle g tt 5 None 0 type
              idle_leavesGraphAlone eq_refl eq_refl) as [Hcovers _].
  apply (Hcovers None run.2); [vm_compute; reflexivity|vm_compute; reflexivity].
Defined.

(** In the fan nothing leads to node [3]: it is orphaned. *)
Lemma isOrphanedNode_means_out_of_reach_of_the_root_witness :
  let g := GraphExamples.fan in
  length (present g) + 1 <= 5
  /\ exists orphaned,
       Graph.isOrphanedNode 5 g 3 = Ok orphaned
       /\ (orphaned = false <->
           Graph.hasNode g 0 = true /\ rtc (linkTo g Graph.ALL_EDGE_TYPES) 3 0).
Proof.
  intros g.
  assert (Hfuel : length (present g) + 1 <= 5) by (vm_compute; lia).
  split; [exact Hfuel|].
  exact (isOrphanedNode_means_out_of_reach_of_the_root 5 g 3 Hfuel).
Defined.

(** In the diamond, node [3] has the parents [1] and [2]: with the edge
    [1 -> 3] gone the root still reaches it through [2], and removing that
    edge removes nothing else. *)
Lemma removeEdge_keeps_what_the_root_still_reaches_witness :
  let g := Examples.diamond in
  rtc (linkTo (unlink g 1 3 1) Graph.ALL_EDGE_TYPES) 3 0
  /\ Graph.removeEdge 6 1 3 1 true g = (Ok tt, unlink g 1 3 1).
Proof.
  intros g.
  assert (Hstep : forall n m, (n = 0 /\ m = 1) \/ (n = 1 /\ m = 2) \/ (n = 2 /\ m = 3) ->
            linkTo (unlink g 1 3 1) Graph.ALL_EDGE_TYPES m n).
  { intros n m Hin. split; [destruct Hin as [[-> ->]|[[-> ->]|[-> ->]]]; reflexivity|].
    exists 1. split; [reflexivity|].
    destruct Hin as [[-> ->]|[[-> ->]|[-> ->]]]; vm_compute; repeat constructor. }
  assert (Hpath : rtc (linkTo (unlink g 1 3 1) Graph.ALL_EDGE_TYPES) 3 0).
  { eapply rtc_l; [apply (Hstep 2 3); right; right; done|].
    eapply rtc_l; [apply (Hstep 1 2); right; left; done|].
    eapply rtc_l; [apply (Hstep 0 1); left; done|]. reflexivity. }
  split; [exact Hpath|].
  apply (removeEdge_keeps_what_the_root_still_reaches 5 g 1 3 1 0);
    [reflexivity|reflexivity|reflexivity|reflexivity|exact Hpath|vm_compute; lia].
Defined.

(** In the fan, looking from the root for node [2], and from node [2] for
    the root. *)
Lemma findDescendant_and_findAncestor_find_a_match_in_reach_witness :
  let g := GraphExamples.fan in
  (exists res,
     GraphMethods.findDescendant 5 g 0 (Nat.eqb 2) = Ok res
     /\ match res with
        | Some m => Nat.eqb 2 m = true /\ Graph.hasNode g m = true
                    /\ rtc (linkFrom g (Graph.OneType 1)) 0 m
        | None => forall m, Graph.hasNode g m = true ->
                            rtc (linkFrom g (Graph.OneType 1)) 0 m -> Nat.eqb 2 m = false
        end)
  /\ (exists res,
        GraphMethods.findAncestor 5 g 2 (Nat.eqb 0) = Ok res
        /\ match res with
           | Some m => Nat.eqb 0 m = true /\ Graph.hasNode g m = true
                       /\ rtc (linkTo g (Graph.OneType 1)) 2 m
           | None => forall m, Graph.hasNode g m = true ->
                               rtc (linkTo g (Graph.OneType 1)) 2 m -> Nat.eqb 0 m = false
           end).
Proof.
  intros g.
  assert (Hfuel : length (present g) + 1 <= 5) by (vm_compute; lia).
  split.
  - exact (proj1 (findDescendant_and_findAncestor_find_a_match_in_reach 5 g 0 (Nat.eqb 2)
                    eq_refl Hfuel)).
  - exact (proj2 (findDescendant_and_findAncestor_find_a_match_in_reach 5 g 2 (Nat.eqb 0)
                    eq_refl Hfuel)).
Defined.

(** In the chain [0 -> 1 -> 2], the descendants of the root other than the
    root itself: the search stops at node [1] and does not find [2] behind
    it. *)
Lemma findDescendants_and_findAncestors_find_the_nearest_matches_witness :
  let g := Examples.chain in
  let fn := fun n => negb (Nat.eqb n 0) in
  GraphMethods.findDescendants 4 g 0 fn = Ok [1]
  /\ exists res,
       GraphMethods.findDescendants 4 g 0 fn = Ok res
       /\ NoDup res
       /\ forall m, m ∈ res <->
                    fn m = true /\ Graph.hasNode g m = true
                    /\ rtc (fun a b => linkFrom g (Graph.OneType 1) a b /\ fn a = false) 0 m.
Proof.
  intros g fn.
  split; [vm_compute; reflexivity|].
  exact (proj1 (findDescendants_and_findAncestors_find_the_nearest_matches 4 g 0 fn
                  eq_refl ltac:(vm_compute; lia))).
Defined.
